(** * Lesson Sectioning Engine and QA checker of muallimi-soniy

    A shallow embedding of
      - [backend/app/services/sectioning.py]     (module [Sectioning]),
      - [backend/app/services/qa_checker.py]     (module [QAChecker]),
      - the diacritics table of [backend/app/services/image_analyzer.py]
        (module [ImageAnalyzer]), its unit classification and the line
        grouping of [analyze_image_tesseract] (module [ImageAnalysis]),
      - the unit lists of [split_section] in
        [backend/app/api/v1/admin/book.py]      (module [AdminBook]),
      - [check_overlaps] once more, in the double-precision arithmetic of
        Python floats                            (module [Double]),
    followed by the properties established about them.

    Modelling conventions.
      - A Python [str] is a sequence of Unicode code points: [text] is
        [list N].
      - A Python [float] is modelled by an exact rational ([Q]) in the
        modules [Sectioning], [QAChecker] and [ImageAnalysis]: the
        rounding of binary floating-point arithmetic is outside these
        models, and their comparisons are the boolean ones of [Q].  The
        overlap rule, whose verdict at the threshold depends on that
        rounding, is stated over [Double], where a float is a binary64
        number of [PrimFloat].
      - A unit [dict] is the record [TextUnit]; every key the code reads is
        a field, so the defaults of [dict.get] never fire.
      - [sorted] is a stable sort; [set] is [gset]; the insertion-ordered
        [dict] behind [collections.Counter] is an association list; the
        [seen] dictionary of the duplicate check is a [gmap].
      - Exceptions are values of [PyExc] carried in a [result]; the loops
        thread their local variables explicitly. *)

From Stdlib Require Import QArith Qround Qabs Lqa String Ascii.
From Stdlib Require Floats.PrimFloat Floats.FloatOps Floats.SpecFloat.
From stdpp Require Import base option list gmap strings sorting.

Local Open Scope nat_scope.

(** ** Python built-ins used by the two services *)

Module Py.

Inductive PyExc := AssertionError | ValueError.

Inductive result (A : Type) :=
| Ok (a : A)
| Raise (e : PyExc).
Arguments Ok {A} a.
Arguments Raise {A} e.

(** Sequencing: the first exception raised aborts the computation. *)
#[global] Instance result_ret : MRet result := fun _ a => Ok a.
#[global] Instance result_bind : MBind result := fun _ _ k r =>
  match r with
  | Ok a => k a
  | Raise e => Raise e
  end.

(** Code points and strings. *)
Definition chr := N.
Definition text := list chr.

Definition latin (s : string) : text :=
  map N_of_ascii (list_ascii_of_string s).

(** ['\uLLLL' <= c <= '\uHHHH'] *)
Definition between (lo hi c : chr) : bool :=
  (lo <=? c)%N && (c <=? hi)%N.
Arguments between (lo hi c)%_N_scope.

(** [str.isspace] on one code point: the Unicode white space table of
    CPython. *)
Definition isspace (c : chr) : bool :=
  between 0x09 0x0D c || between 0x1C 0x20 c || (c =? 0x85)%N
  || (c =? 0xA0)%N || (c =? 0x1680)%N || between 0x2000 0x200A c
  || (c =? 0x2028)%N || (c =? 0x2029)%N || (c =? 0x202F)%N
  || (c =? 0x205F)%N || (c =? 0x3000)%N.

Fixpoint lstrip (t : text) : text :=
  match t with
  | c :: t' => if isspace c then lstrip t' else t
  | [] => []
  end.

(** [str.strip()] *)
Definition strip (t : text) : text :=
  reverse (lstrip (reverse (lstrip t))).

(** Float comparisons. *)
Definition Qgtb (x y : Q) : bool := negb (Qle_bool x y).
Definition Qltb (x y : Q) : bool := negb (Qle_bool y x).
Definition Qgeb (x y : Q) : bool := Qle_bool y x.

Definition Qmaxb (x y : Q) : Q := if Qltb x y then y else x.
Definition Qminb (x y : Q) : Q := if Qltb y x then y else x.

Definition Qofnat (n : nat) : Q := inject_Z (Z.of_nat n).

Definition Qsum (l : list Q) : Q := foldl Qplus 0%Q l.

(** [min(iterable)] and [max(iterable)]: [ValueError] on an empty
    iterable, otherwise the first extremal element. *)
Definition py_min (l : list Q) : result Q :=
  match l with
  | [] => Raise ValueError
  | x :: l' => Ok (foldl (fun m y => if Qltb y m then y else m) x l')
  end.

Definition py_max (l : list Q) : result Q :=
  match l with
  | [] => Raise ValueError
  | x :: l' => Ok (foldl (fun m y => if Qltb m y then y else m) x l')
  end.

(** [round(x, 2)]: to the nearest hundredth, ties to even. *)
Definition round_half_even (x : Q) : Z :=
  let f := Qfloor x in
  let r := (x - inject_Z f)%Q in
  if Qltb r (1 # 2) then f
  else if Qltb (1 # 2) r then (f + 1)%Z
  else if Z.even f then f else (f + 1)%Z.

Definition round2 (x : Q) : Q :=
  Qred (inject_Z (round_half_even (x * 100)) / 100).

(** [sorted(l, key=...)]: stable, ascending. *)
Section Sorted.
Context {A K : Type} (ltb : K -> K -> bool) (key : A -> K).

Fixpoint insert_by (x : A) (l : list A) : list A :=
  match l with
  | [] => [x]
  | y :: l' =>
      if ltb (key y) (key x) then y :: insert_by x l' else x :: y :: l'
  end.

Definition sorted_by (l : list A) : list A := foldr insert_by [] l.
End Sorted.

End Py.
Import Py.

(** ** Data model *)

(** [models/book.py], [UnitType] *)
Inductive UnitType := letter | word | sentence | drill_group | divider.

(** [models/section.py], [SectionType] *)
Inductive SectionType :=
| opening_sentence | alphabet_grid | letter_introduction | letter_drill
| word_drill | divider_section | generic.

#[global] Instance UnitType_eq_dec : EqDecision UnitType.
Proof. solve_decision. Defined.
#[global] Instance SectionType_eq_dec : EqDecision SectionType.
Proof. solve_decision. Defined.

(** The unit dictionaries built by [api/v1/admin/book.py]. *)
Record TextUnit := {
id : Z;
unit_type : UnitType;
text_content : text;
bbox_x : Q;
bbox_y : Q;
bbox_w : Q;
bbox_h : Q;
sort_order : Z;
audio_segment_url : option text;
}.

(** The section dictionaries returned by [auto_section_page]. *)
Record Section := {
page_id : Z;
section_type : SectionType;
target_letter : option chr;
title_ar : text;
title_uz : text;
section_sort_order : nat;
unit_ids : list Z;
bbox_y_start : Q;
bbox_y_end : Q;
is_manual : bool;
}.

(** A block is a list of units. *)
Abbreviation block := (list TextUnit).

(** ** [services/sectioning.py] *)

Module Sectioning.

(** *** Arabic text utilities *)

(** [_DIACRITICS_RE]: one code point in U+0610..U+061A, U+064B..U+065F
    or U+0670. *)
Definition is_diacritic (c : chr) : bool :=
  between 0x0610 0x061A c || between 0x064B 0x065F c || (c =? 0x0670)%N.

Definition strip_diacritics (t : text) : text :=
  List.filter (fun c => negb (is_diacritic c)) t.

Definition is_arabic_letter (ch : chr) : bool :=
  between 0x0621 0x064A ch || between 0x0671 0x06FF ch.

Definition extract_arabic_letters (t : text) : list chr :=
  let clean := strip_diacritics t in
  List.filter is_arabic_letter clean.

Definition count_chars (t : text) : nat :=
  length (extract_arabic_letters t).

Definition has_diacritics (t : text) : bool :=
  existsb is_diacritic t.

(** *** Title generation *)

Definition _LETTER_NAMES_UZ : list (chr * text) :=
  [ (0x0627, latin "Alif"); (0x0628, latin "Bo"); (0x062A, latin "To");
    (0x062B, latin "So"); (0x062C, latin "Jim"); (0x062D, latin "Ha");
    (0x062E, latin "Xo"); (0x062F, latin "Dal"); (0x0630, latin "Zol");
    (0x0631, latin "Ro"); (0x0632, latin "Zayn"); (0x0633, latin "Sin");
    (0x0634, latin "Shin"); (0x0635, latin "Sod"); (0x0636, latin "Zod");
    (0x0637, latin "To"); (0x0638, latin "Zo"); (0x0639, latin "Ayn");
    (0x063A, latin "G'ayn"); (0x0641, latin "Fo"); (0x0642, latin "Qof");
    (0x0643, latin "Kof"); (0x0644, latin "Lom"); (0x0645, latin "Mim");
    (0x0646, latin "Nun"); (0x0647, latin "Ho"); (0x0648, latin "Vov");
    (0x064A, latin "Yo"); (0x06A9, latin "Kof"); (0x06CC, latin "Yo") ]%N.

(** [_LETTER_NAMES_UZ.get(target_letter or '', target_letter or '')] *)
Definition letter_name (target_letter : option chr) : text :=
  match target_letter with
  | None => []
  | Some c =>
      match List.find (fun kv => (fst kv =? c)%N) _LETTER_NAMES_UZ with
      | Some kv => snd kv
      | None => [c]
      end
  end.

Definition _generate_titles (section_type : SectionType)
    (target_letter : option chr) : text * text :=
  match section_type with
  | opening_sentence =>
      ([0x0628; 0x0633; 0x0645; 0x0020; 0x0627; 0x0644; 0x0644; 0x0647]%N,
       latin "Bismillah")
  | alphabet_grid =>
      ([0x0627; 0x0644; 0x062D; 0x0631; 0x0648; 0x0641]%N, latin "Alifbo")
  | divider_section => ([], [])
  | _ =>
      let letter_ar := match target_letter with Some c => [c] | None => [] end in
      let letter_uz := letter_name target_letter in
      match section_type with
      | letter_introduction =>
          ([0x062D; 0x0631; 0x0641; 0x0020]%N ++ letter_ar,
           letter_uz ++ latin " harfi")
      | letter_drill =>
          ([0x062A; 0x0645; 0x0631; 0x064A; 0x0646; 0x0020]%N ++ letter_ar,
           letter_uz ++ latin " mashqi")
      | word_drill =>
          ([0x0643; 0x0644; 0x0645; 0x0627; 0x062A; 0x0020]%N ++ letter_ar,
           letter_uz ++ latin " so'zlari")
      | _ =>
          (letter_ar,
           match letter_uz with [] => latin "Bo'lim" | _ => letter_uz end)
      end
  end.

(** *** Y-axis segmentation *)

Definition is_divider_unit (u : TextUnit) : bool :=
  bool_decide (unit_type u = divider).

(** The body of [for i in range(1, len(sorted_units))]: [prev] is
    [sorted_units[i - 1]], the head of [rest] is [sorted_units[i]], and the
    two accumulators are the local variables [blocks] and [current_block]. *)
Fixpoint segment_loop (gap_threshold : Q) (prev : TextUnit)
    (rest : list TextUnit) (blocks : list block) (current_block : block)
    : list block * block :=
  match rest with
  | [] => (blocks, current_block)
  | curr :: rest' =>
      let prev_bottom := (bbox_y prev + bbox_h prev)%Q in
      let curr_top := bbox_y curr in
      let gap := (curr_top - prev_bottom)%Q in
      let is_divider := is_divider_unit curr in
      if Qgtb gap gap_threshold || is_divider then
        if is_divider then
          let blocks :=
            match current_block with
            | [] => blocks
            | _ => blocks ++ [current_block]
            end in
          segment_loop gap_threshold curr rest' (blocks ++ [[curr]]) []
        else
          segment_loop gap_threshold curr rest'
            (blocks ++ [current_block]) [curr]
      else
        segment_loop gap_threshold curr rest' blocks (current_block ++ [curr])
  end.

Definition _segment_by_y_axis (units : list TextUnit) (gap_threshold : Q)
    : list block :=
  match units with
  | [] => []
  | _ =>
      match sorted_by Qltb bbox_y units with
      | [] => []
      | first :: rest =>
          let '(blocks, current_block) :=
            segment_loop gap_threshold first rest [] [first] in
          match current_block with
          | [] => blocks
          | _ => blocks ++ [current_block]
          end
      end
  end.

(** *** Block classification *)

Definition count_type (ty : UnitType) (b : block) : nat :=
  length (List.filter (fun u => bool_decide (unit_type u = ty)) b).

(** Rule 2: a single long sentence at the top of the page. *)
Definition is_opening_sentence (b : block) (block_index : nat) : bool :=
  let texts := map text_content b in
  let total := length b in
  (block_index =? 0) && (1 <=? count_type sentence b) && (total <=? 3)
  && (let avg_len :=
        (Qofnat (sum_list (map length texts)) / Qofnat (Nat.max total 1))%Q in
      Qgtb avg_len 10).

(** Rule 3: many letters of similar height. *)
Definition is_alphabet_grid (b : block) : bool :=
  (14 <=? count_type letter b)
  && (let heights :=
        map bbox_h (List.filter (fun u => bool_decide (unit_type u = letter)) b) in
      match heights with
      | [] => false
      | _ =>
          let avg_h := (Qsum heights / Qofnat (length heights))%Q in
          let similar :=
            length (List.filter
              (fun h => Qltb (Qabs (h - avg_h) / Qmaxb avg_h (1 # 100)) (3 # 10))
              heights) in
          Qgtb (Qofnat similar / Qofnat (length heights)) (7 # 10)
      end).

(** Rule 4: one to three large single letters. *)
Definition is_letter_introduction (b : block) : bool :=
  let total := length b in
  (total <=? 5)
  && (let single_letters :=
        List.filter (fun u => count_chars (text_content u) =? 1) b in
      match single_letters with
      | [] => false
      | _ =>
          Qgeb (Qofnat (length single_letters)) (Qofnat total * (1 # 2))
          && (let heights := map bbox_h single_letters in
              let max_h :=
                match heights with
                | [] => 0%Q
                | h :: hs => foldl (fun m y => if Qltb m y then y else m) h hs
                end in
              Qgtb max_h 3)
      end).

(** Rule 5: single letters with diacritics. *)
Definition is_letter_drill (b : block) : bool :=
  let texts := map text_content b in
  let total := length b in
  (Qgeb (Qofnat (count_type letter b)) (Qofnat total * (1 # 2)) || (3 <=? total))
  && (let diacritical_count :=
        length (List.filter
          (fun t => has_diacritics t && (count_chars t <=? 2)) texts) in
      Qgeb (Qofnat diacritical_count) (Qofnat total * (4 # 10))).

(** Rule 6: multi-letter tokens. *)
Definition is_word_drill (b : block) : bool :=
  let char_counts := map (fun u => count_chars (text_content u)) b in
  let total := length b in
  (Qgeb (Qofnat (count_type word b)) (Qofnat total * (3 # 10)) || (2 <=? total))
  && (let multi_letter :=
        length (List.filter (fun c => (2 <=? c) && (c <=? 6)) char_counts) in
      Qgeb (Qofnat multi_letter) (Qofnat total * (4 # 10))).

(** Rule 7: mostly letters, without diacritics. *)
Definition is_mostly_letters (b : block) : bool :=
  Qgeb (Qofnat (count_type letter b)) (Qofnat (length b) * (6 # 10)).

Definition _classify_block (b : block) (block_index total_blocks : nat)
    : SectionType :=
  match b with
  | [] => generic
  | u :: b' =>
      if (length b =? 1) && is_divider_unit u then divider_section
      else if is_opening_sentence b block_index then opening_sentence
      else if is_alphabet_grid b then alphabet_grid
      else if is_letter_introduction b then letter_introduction
      else if is_letter_drill b then letter_drill
      else if is_word_drill b then word_drill
      else if is_mostly_letters b then letter_drill
      else generic
  end.

(** *** Target letter extraction *)

(** [collections.Counter]: an insertion-ordered table of counts.  Counting
    a key already present updates it in place; a new key goes last. *)
Fixpoint counter_incr (c : chr) (cnt : list (chr * nat)) : list (chr * nat) :=
  match cnt with
  | [] => [(c, 1)]
  | (k, n) :: cnt' =>
      if (k =? c)%N then (k, S n) :: cnt' else (k, n) :: counter_incr c cnt'
  end.

Definition Counter (l : list chr) : list (chr * nat) :=
  foldl (fun cnt c => counter_incr c cnt) [] l.

(** [counter.most_common(1)], that is [max(items, key=itemgetter(1))]: the
    first entry whose count is maximal. *)
Definition most_common_1 (cnt : list (chr * nat)) : list (chr * nat) :=
  match cnt with
  | [] => []
  | kv :: cnt' =>
      [foldl (fun m kv' => if snd m <? snd kv' then kv' else m) kv cnt']
  end.

Definition all_letters (b : block) : list chr :=
  concat (map (fun u => extract_arabic_letters (text_content u)) b).

Definition _extract_target_letter (b : block) (section_type : SectionType)
    : option chr :=
  match section_type with
  | opening_sentence | divider_section | alphabet_grid => None
  | _ =>
      match all_letters b with
      | [] => None
      | letters =>
          match most_common_1 (Counter letters) with
          | kv :: _ => Some (fst kv)
          | [] => None
          end
      end
  end.

(** *** Main auto-sectioning function *)

(** [assert uid not in seen_unit_ids; seen_unit_ids.add(uid)] for every
    [uid] of [unit_ids], in order. *)
Fixpoint record_unit_ids (unit_ids : list Z) (seen_unit_ids : gset Z)
    : result (gset Z) :=
  match unit_ids with
  | [] => Ok seen_unit_ids
  | uid :: unit_ids' =>
      if bool_decide (uid ∈ seen_unit_ids) then Raise AssertionError
      else record_unit_ids unit_ids' ({[uid]} ∪ seen_unit_ids)
  end.

(** One iteration of [for i, block in enumerate(blocks)]. *)
Definition section_of_block (page : Z) (i total_blocks : nat) (b : block)
    (seen_unit_ids : gset Z) : result (Section * gset Z) :=
  let section_type := _classify_block b i total_blocks in
  let target_letter := _extract_target_letter b section_type in
  let '(title_ar, title_uz) := _generate_titles section_type target_letter in
  let block_sorted := sorted_by Z.ltb sort_order b in
  let unit_ids := map id block_sorted in
  seen ← record_unit_ids unit_ids seen_unit_ids;
  y_start ← py_min (map bbox_y b);
  y_end ← py_max (map (fun u => (bbox_y u + bbox_h u)%Q) b);
  mret ({| page_id := page;
           section_type := section_type;
           target_letter := target_letter;
           title_ar := title_ar;
           title_uz := title_uz;
           section_sort_order := i;
           unit_ids := unit_ids;
           bbox_y_start := round2 y_start;
           bbox_y_end := round2 y_end;
           is_manual := false |}, seen).

Fixpoint section_loop (page : Z) (total_blocks i : nat) (blocks : list block)
    (sections : list Section) (seen_unit_ids : gset Z)
    : result (list Section * gset Z) :=
  match blocks with
  | [] => Ok (sections, seen_unit_ids)
  | b :: blocks' =>
      '(s, seen) ← section_of_block page i total_blocks b seen_unit_ids;
      section_loop page total_blocks (S i) blocks' (sections ++ [s]) seen
  end.

Definition auto_section_page (page : Z) (units : list TextUnit)
    (gap_threshold : Q) : result (list Section) :=
  match units with
  | [] => Ok []
  | _ =>
      let blocks := _segment_by_y_axis units gap_threshold in
      '(sections, seen_unit_ids) ←
        section_loop page (length blocks) 0 blocks [] ∅;
      let all_unit_ids : gset Z := list_to_set (map id units) in
      if bool_decide (seen_unit_ids = all_unit_ids) then Ok sections
      else Raise AssertionError
  end.

End Sectioning.

(** ** [services/image_analyzer.py], the part the QA checker imports *)

Module ImageAnalyzer.

Definition ARABIC_DIACRITICS : list chr :=
  [ 0x064B; 0x064C; 0x064D; 0x064E; 0x064F; 0x0650; 0x0651; 0x0652;
    0x0653; 0x0654; 0x0655; 0x0670 ]%N.

Definition has_arabic_diacritics (t : text) : bool :=
  existsb (fun c => bool_decide (c ∈ ARABIC_DIACRITICS)) t.

End ImageAnalyzer.

(** ** [services/image_analyzer.py], classification and line grouping

    The part of [analyze_image_tesseract] between the call of the OCR
    engine and the return is a function of the engine's table of boxes and
    of the image size; the imports, the file test and the call of the
    engine itself are outside the model.  Every exception raised in that
    part is caught by [except Exception] and turns the result into the
    empty list; [option] carries it. *)

Module ImageAnalysis.
Import ImageAnalyzer.

Definition count_diacritics (t : text) : nat :=
  length (List.filter (fun c => bool_decide (c ∈ ARABIC_DIACRITICS)) t).

(** One code point of the character class of the divider pattern: white
    space, hyphen, en dash, em dash, five box-drawing lines (U+2550,
    U+2501, U+2500, U+2502, U+2503), asterisk, full stop, bullet. *)
Definition is_decoration (c : chr) : bool :=
  isspace c || (c =? 0x2D)%N || (c =? 0x2013)%N || (c =? 0x2014)%N
  || (c =? 0x2550)%N || (c =? 0x2501)%N || (c =? 0x2500)%N
  || (c =? 0x2502)%N || (c =? 0x2503)%N || (c =? 0x2A)%N || (c =? 0x2E)%N
  || (c =? 0x2022)%N.

(** The strings returned are the values of [UnitType]; [UNIT_TYPE_MAP] of
    [api/deps.py] maps them to the enumeration one to one. *)
Definition classify_unit_type (t : text) (word_count : Z) : UnitType :=
  let stripped := strip t in
  match stripped with
  | [] => divider
  | _ =>
      if forallb is_decoration stripped then divider
      else
        let base_chars :=
          List.filter
            (fun c => negb (bool_decide (c ∈ ARABIC_DIACRITICS))
                      && negb (c =? 0x20)%N) stripped in
        let arabic_letters :=
          List.filter
            (fun c => between 0x0600 0x06FF c || between 0x0750 0x077F c)
            base_chars in
        if (length arabic_letters <=? 2) && (word_count <=? 1)%Z then letter
        else if (word_count <=? 1)%Z then word
        else if (word_count <=? 4)%Z then word
        else sentence
  end.

(** Row [i] of the table returned by [pytesseract.image_to_data]. *)
Record OcrBox := {
  box_text : text;
  line_num : Z;
  left : Z;
  top : Z;
  width : Z;
  height : Z;
  conf : Q;
}.

(** The dictionaries appended to [lines[line_num]]. *)
Record OcrWord := {
  word_text : text;
  word_left : Z;
  word_top : Z;
  word_width : Z;
  word_height : Z;
  word_conf : Q;
}.

Record Metadata := {
  word_count : nat;
  has_diacritics : bool;
  diacritics_count : nat;
  source : string;
}.

Record AnalyzedUnit := {
  unit_text : text;
  unit_type : UnitType;
  bbox_x : Q;
  bbox_y : Q;
  bbox_w : Q;
  bbox_h : Q;
  confidence : Q;
  sort_order : nat;
  metadata : Metadata;
}.

(** [round(x, 3)] *)
Definition round3 (x : Q) : Q :=
  Qred (inject_Z (round_half_even (x * 1000)) / 1000).

(** [a / b] on numbers: [ZeroDivisionError] when [b] is zero. *)
Definition py_div (a b : Q) : option Q :=
  if Qeq_bool b 0 then None else Some (a / b)%Q.

(** [' '.join(texts)] *)
Fixpoint join_space (texts : list text) : text :=
  match texts with
  | [] => []
  | [t] => t
  | t :: texts' => t ++ [0x20%N] ++ join_space texts'
  end.

(** The body of the loop [for i in range(n_boxes)]. *)
Definition group_step (lines : gmap Z (list OcrWord)) (b : OcrBox)
    : gmap Z (list OcrWord) :=
  match strip (box_text b) with
  | [] => lines
  | t =>
      let c := (conf b / 100)%Q in
      let words := default [] (lines !! line_num b) in
      <[line_num b :=
          words ++ [{| word_text := t; word_left := left b;
                       word_top := top b; word_width := width b;
                       word_height := height b;
                       word_conf := Qmaxb 0 c |}]]> lines
  end.

(** The unit built from the words [w :: ws] of one line. *)
Definition unit_of_line (img_width img_height : Z) (sort_idx : nat)
    (w : OcrWord) (ws : list OcrWord) : option AnalyzedUnit :=
  let words := w :: ws in
  let min_left := foldl Z.min (word_left w) (map word_left ws) in
  let min_top := foldl Z.min (word_top w) (map word_top ws) in
  let max_right :=
    foldl Z.max (word_left w + word_width w)%Z
      (map (fun w => (word_left w + word_width w)%Z) ws) in
  let max_bottom :=
    foldl Z.max (word_top w + word_height w)%Z
      (map (fun w => (word_top w + word_height w)%Z) ws) in
  let avg_conf := (Qsum (map word_conf words) / Qofnat (length words))%Q in
  let line_text := join_space (map word_text words) in
  let word_count := length words in
  let unit_type := classify_unit_type line_text (Z.of_nat word_count) in
  x ← py_div (inject_Z min_left) (inject_Z img_width);
  y ← py_div (inject_Z min_top) (inject_Z img_height);
  w ← py_div (inject_Z (max_right - min_left)) (inject_Z img_width);
  h ← py_div (inject_Z (max_bottom - min_top)) (inject_Z img_height);
  Some {| unit_text := line_text;
          unit_type := unit_type;
          bbox_x := round2 (x * 100);
          bbox_y := round2 (y * 100);
          bbox_w := round2 (w * 100);
          bbox_h := round2 (h * 100);
          confidence := round3 avg_conf;
          sort_order := sort_idx;
          metadata :=
            {| word_count := word_count;
               has_diacritics := has_arabic_diacritics line_text;
               diacritics_count := count_diacritics line_text;
               source := "tesseract" |} |}.

(** The loop [for line_num in sorted(lines.keys())]; the accumulators are
    [units] and [sort_idx]. *)
Fixpoint process_lines (img_width img_height : Z)
    (lines : gmap Z (list OcrWord)) (keys : list Z)
    (units : list AnalyzedUnit) (sort_idx : nat)
    : option (list AnalyzedUnit) :=
  match keys with
  | [] => Some units
  | k :: keys' =>
      match lines !! k with
      | None => None
      | Some [] =>
          process_lines img_width img_height lines keys' units sort_idx
      | Some (w :: ws) =>
          u ← unit_of_line img_width img_height sort_idx w ws;
          process_lines img_width img_height lines keys'
            (units ++ [u]) (S sort_idx)
      end
  end.

(** [analyze_image_tesseract] from the table of boxes on. *)
Definition units_of_boxes (img_width img_height : Z) (data : list OcrBox)
    : list AnalyzedUnit :=
  let lines := foldl group_step ∅ data in
  let keys := sorted_by Z.ltb (fun k => k) (map fst (map_to_list lines)) in
  default [] (process_lines img_width img_height lines keys [] 0).

End ImageAnalysis.

(** ** [api/v1/admin/book.py], the unit lists of [split_section] *)

Module AdminBook.

(** What a handler does: it returns a value, raises an [HTTPException], or
    lets a Python exception escape. *)
Inductive outcome (A : Type) : Type :=
| Return (a : A)
| HTTPError (status_code : nat) (detail : string)
| Unhandled (e : PyExc).
Arguments Return {A} a.
Arguments HTTPError {A} status_code detail.
Arguments Unhandled {A} e.

(** [l.index(x)]: the first position of [x]; [None] stands for the
    [ValueError] of a missing element. *)
Fixpoint index (x : Z) (l : list Z) : option nat :=
  match l with
  | [] => None
  | y :: l' => if (y =? x)%Z then Some 0 else S <$> index x l'
  end.

(** [first_half] and [second_half] of [split_section], computed from the
    [unit_ids] of the section that was loaded.  The database side of the
    handler (loading the section, adding the new row, shifting the
    [sort_order] of the later sections, the audit log) is outside the
    model. *)
Definition split_section (unit_ids : list Z) (split_after_unit_id : Z)
    : outcome (list Z * list Z) :=
  if negb (bool_decide (split_after_unit_id ∈ unit_ids))
  then HTTPError 400 "Unit bu bo'limda emas"
  else
    match index split_after_unit_id unit_ids with
    | None => Unhandled ValueError
    | Some i =>
        let split_idx := i + 1 in
        if length unit_ids <=? split_idx
        then HTTPError 400 "Oxirgi unitdan keyin bo'lish mumkin emas"
        else Return (take split_idx unit_ids, drop split_idx unit_ids)
    end.

End AdminBook.

(** ** [services/qa_checker.py] *)

Module QAChecker.
Import ImageAnalyzer.

(** The ["details"] dictionary of each check.  The human-readable
    ["message"] strings and the ["summary"] are formatted from the same
    data and are not modelled; [failed] keeps the names the summary lists. *)
Inductive Details :=
| UnitCountDetails (count min_required : nat)
| NoDetails
| DiacriticsDetails (total_arabic_units with_diacritics : nat) (ratio : Q)
    (missing : list (Z * text))
| OverlapDetails (overlaps : list (Z * Z * Q))
| DuplicateDetails (duplicates : list (text * Z * Z))
| HitboxDetails (empty_count : nat) (empty_units : list (Z * text))
| AudioDetails (total with_audio : nat) (ratio : Q).

Record Check := {
  name : string;
  passed : bool;
  details : Details;
}.

Record QAResult := {
  qa_passed : bool;
  score : Q;
  checks : list Check;
  failed : list string;
}.

Definition check_unit_count (units : list TextUnit) (min_units : nat) : Check :=
  let count := length units in
  {| name := "unit_count";
     passed := min_units <=? count;
     details := UnitCountDetails count min_units |}.

(** [any('\u0600' <= c <= '\u06FF' for c in text)] *)
Definition has_arabic (t : text) : bool := existsb (between 0x0600 0x06FF) t.

(** The loop of [check_diacritics_presence]; the state is
    [(total_arabic_units, units_with_diacritics, units_missing_diacritics)]. *)
Definition diacritics_step (st : nat * nat * list (Z * text)) (u : TextUnit)
    : nat * nat * list (Z * text) :=
  let '(total_arabic_units, units_with_diacritics, missing) := st in
  let t := text_content u in
  if has_arabic t then
    if has_arabic_diacritics t then
      (S total_arabic_units, S units_with_diacritics, missing)
    else
      (S total_arabic_units, units_with_diacritics,
       missing ++ [(sort_order u, take 50 t)])
  else st.

Definition check_diacritics_presence (units : list TextUnit) : Check :=
  let '(total_arabic_units, units_with_diacritics, missing) :=
    foldl diacritics_step (0, 0, []) units in
  if total_arabic_units =? 0 then
    {| name := "diacritics_presence"; passed := true; details := NoDetails |}
  else
    let ratio := (Qofnat units_with_diacritics / Qofnat total_arabic_units)%Q in
    {| name := "diacritics_presence";
       passed := Qgeb ratio (8 # 10);
       details := DiacriticsDetails total_arabic_units units_with_diacritics
                    (round2 ratio) (take 10 missing) |}.

(** The body of the two nested loops of [check_overlaps] for one pair:
    [None] when the pair is skipped or not flagged, otherwise the
    overlap ratio. *)
Definition overlap_of (u1 u2 : TextUnit) : option Q :=
  let '(x1, y1, w1, h1) := (bbox_x u1, bbox_y u1, bbox_w u1, bbox_h u1) in
  let '(x2, y2, w2, h2) := (bbox_x u2, bbox_y u2, bbox_w u2, bbox_h u2) in
  if Qeq_bool w1 0 || Qeq_bool w2 0 then None
  else
    let overlap_x := Qmaxb 0 (Qminb (x1 + w1) (x2 + w2) - Qmaxb x1 x2) in
    let overlap_y := Qmaxb 0 (Qminb (y1 + h1) (y2 + h2) - Qmaxb y1 y2) in
    let overlap_area := (overlap_x * overlap_y)%Q in
    let area1 := (w1 * h1)%Q in
    let area2 := (w2 * h2)%Q in
    let min_area :=
      if Qgtb (Qminb area1 area2) 0 then Qminb area1 area2 else 1%Q in
    if Qgtb (overlap_area / min_area) (3 # 10)
    then Some (overlap_area / min_area)%Q
    else None.

Definition find_overlaps (units : list TextUnit) : list (Z * Z * Q) :=
  concat (imap (fun i u1 =>
    concat (imap (fun j u2 =>
      if j <=? i then []
      else match overlap_of u1 u2 with
           | Some r => [(sort_order u1, sort_order u2, round2 r)]
           | None => []
           end) units)) units).

Definition check_overlaps (units : list TextUnit) : Check :=
  let overlaps := find_overlaps units in
  {| name := "no_overlaps";
     passed := length overlaps =? 0;
     details := OverlapDetails (take 10 overlaps) |}.

(** The loop of [check_duplicates]; the state is [(seen, duplicates)]. *)
Definition duplicates_step (st : gmap text Z * list (text * Z * Z))
    (u : TextUnit) : gmap text Z * list (text * Z * Z) :=
  let '(seen, duplicates) := st in
  let t := strip (text_content u) in
  match t with
  | [] => st
  | _ =>
      match seen !! t with
      | Some first_order =>
          (seen, duplicates ++ [(take 50 t, first_order, sort_order u)])
      | None => (<[t := sort_order u]> seen, duplicates)
      end
  end.

Definition check_duplicates (units : list TextUnit) : Check :=
  let '(seen, duplicates) := foldl duplicates_step (∅, []) units in
  {| name := "no_duplicates";
     passed := length duplicates =? 0;
     details := DuplicateDetails (take 10 duplicates) |}.

Definition check_empty_hitboxes (units : list TextUnit) : Check :=
  let empty :=
    omap (fun u =>
      if Qeq_bool (bbox_w u) 0 || Qeq_bool (bbox_h u) 0
      then Some (sort_order u, take 30 (text_content u)) else None) units in
  {| name := "hitbox_check";
     passed := true;
     details := HitboxDetails (length empty) (take 10 empty) |}.

(** Truth value of [u.get("audio_segment_url")]. *)
Definition has_audio (u : TextUnit) : bool :=
  match audio_segment_url u with
  | Some (_ :: _) => true
  | _ => false
  end.

Definition check_audio_coverage (units : list TextUnit) : Check :=
  let total := length units in
  let with_audio := length (List.filter has_audio units) in
  let ratio :=
    if 0 <? total then (Qofnat with_audio / Qofnat total)%Q else 0%Q in
  {| name := "audio_coverage";
     passed := true;
     details := AudioDetails total with_audio (round2 ratio) |}.

(** [weights.get(c["name"], 0.1)] *)
Definition weights (n : string) : Q :=
  if String.eqb n "unit_count" then 15 # 100
  else if String.eqb n "diacritics_presence" then 30 # 100
  else if String.eqb n "no_overlaps" then 20 # 100
  else if String.eqb n "no_duplicates" then 15 # 100
  else if String.eqb n "hitbox_check" then 10 # 100
  else if String.eqb n "audio_coverage" then 10 # 100
  else 1 # 10.

Definition run_qa_checks (units : list TextUnit) : QAResult :=
  let checks :=
    [ check_unit_count units 1;
      check_diacritics_presence units;
      check_overlaps units;
      check_duplicates units;
      check_empty_hitboxes units;
      check_audio_coverage units ] in
  let blocking_checks :=
    List.filter (fun c => negb (String.eqb (name c) "audio_coverage")) checks in
  let passed_all := forallb passed blocking_checks in
  let score :=
    Qsum (map (fun c => (weights (name c) * (if passed c then 1 else 0))%Q)
              checks) in
  let failed := map name (List.filter (fun c => negb (passed c)) checks) in
  {| qa_passed := passed_all;
     score := round2 score;
     checks := checks;
     failed := failed |}.

End QAChecker.

(** ** [check_overlaps] in double precision

    A Python [float] is an IEEE 754 binary64 number and its operations
    round to nearest, ties to even; [PrimFloat.float] is that format with
    those operations.  This module repeats [check_overlaps] with the
    arithmetic of the code, for the statements that depend on how the
    comparison with 0.3 falls; the comparisons are the IEEE ones, false as
    soon as an operand is not a number. *)

Module Double.

Abbreviation float := PrimFloat.float.

(** [max(a, b)] and [min(a, b)]: the first argument, unless the second is
    strictly greater (smaller). *)
Definition py_max (a b : float) : float :=
  if PrimFloat.ltb a b then b else a.
Definition py_min (a b : float) : float :=
  if PrimFloat.ltb b a then b else a.

(** The rational number a finite [float] stands for. *)
Definition exact (x : float) : option Q :=
  match FloatOps.Prim2SF x with
  | SpecFloat.S754_zero _ => Some 0%Q
  | SpecFloat.S754_finite s m e =>
      let v := (inject_Z (Z.pos m) * Qpower 2 e)%Q in
      Some (Qred (if s then - v else v))
  | _ => None
  end.

(** The [float] nearest to [n / d], ties to even. *)
Definition nearest (s : bool) (n d : positive) : float :=
  FloatOps.SF2Prim
    (SpecFloat.SFdiv FloatOps.prec FloatOps.emax
       (SpecFloat.S754_finite s n 0) (SpecFloat.S754_finite false d 0)).

(** [round(x, 2)]: the exact value of [x] is rounded to two decimals,
    ties to even, and the decimal result is converted back to the nearest
    [float]; infinities and NaN are returned as they are. *)
Definition round2 (x : float) : float :=
  match exact x with
  | None => x
  | Some q =>
      match round_half_even (q * 100) with
      | Z0 => if PrimFloat.get_sign x then PrimFloat.neg_zero
              else PrimFloat.zero
      | Zpos n => nearest false n 100
      | Zneg n => nearest true n 100
      end
  end.

(** A unit [dict] whose numbers are floats. *)
Record TextUnit := {
  id : Z;
  unit_type : UnitType;
  text_content : text;
  bbox_x : float;
  bbox_y : float;
  bbox_w : float;
  bbox_h : float;
  sort_order : Z;
  audio_segment_url : option text;
}.

Record Check := {
  name : string;
  passed : bool;
  overlaps : list (Z * Z * float);
}.

Section Arithmetic.
Import PrimFloat.
Local Open Scope float_scope.
#[local] Set Warnings "-inexact-float".

(** The body of the two nested loops of [check_overlaps] for one pair:
    [None] when the pair is skipped or not flagged, otherwise the
    overlap ratio. *)
Definition overlap_of (u1 u2 : TextUnit) : option float :=
  let '(x1, y1, w1, h1) := (bbox_x u1, bbox_y u1, bbox_w u1, bbox_h u1) in
  let '(x2, y2, w2, h2) := (bbox_x u2, bbox_y u2, bbox_w u2, bbox_h u2) in
  if (w1 =? 0) || (w2 =? 0) then None
  else
    let overlap_x := py_max 0 (py_min (x1 + w1) (x2 + w2) - py_max x1 x2) in
    let overlap_y := py_max 0 (py_min (y1 + h1) (y2 + h2) - py_max y1 y2) in
    let overlap_area := overlap_x * overlap_y in
    let area1 := w1 * h1 in
    let area2 := w2 * h2 in
    let min_area :=
      if 0 <? py_min area1 area2 then py_min area1 area2 else 1 in
    if 0.3 <? overlap_area / min_area
    then Some (overlap_area / min_area)
    else None.

End Arithmetic.

Definition find_overlaps (units : list TextUnit) : list (Z * Z * float) :=
  concat (imap (fun i u1 =>
    concat (imap (fun j u2 =>
      if (j <=? i)%nat then []
      else match overlap_of u1 u2 with
           | Some r => [(sort_order u1, sort_order u2, round2 r)]
           | None => []
           end) units)) units).

Definition check_overlaps (units : list TextUnit) : Check :=
  let overlaps := find_overlaps units in
  {| name := "no_overlaps";
     passed := (length overlaps =? 0)%nat;
     overlaps := take 10 overlaps |}.

End Double.

(** ** The specification's reading of the checks

    These definitions follow the wording of the specification; they are
    compared below with the functions embedded from the source. *)

Module Spec.

(** Section 4.1, [hasDiacritics]: some code point lies in U+0610..U+061A,
    U+064B..U+065F or is U+0670. *)
Definition hasDiacritics (t : text) : Prop :=
  ∃ c, c ∈ t ∧
    ((0x0610 ≤ c ≤ 0x061A) ∨ (0x064B ≤ c ≤ 0x065F) ∨ c = 0x0670)%N.

(** "among fragments whose text contains any Arabic-range character,
    compute the fraction that [hasDiacritics]; passes iff that fraction is
    at least 0.8 (or there are zero Arabic fragments)". *)
Definition diacritics_presence_passes (has : text → bool)
    (units : list TextUnit) : Prop :=
  let arabic :=
    List.filter (fun u => QAChecker.has_arabic (text_content u)) units in
  let marked := List.filter (fun u => has (text_content u)) arabic in
  length arabic = 0
  ∨ (8 # 10 <= Qofnat (length marked) / Qofnat (length arabic))%Q.

(** "no two fragments share identical trimmed [text_content]". *)
Definition no_two_share_trimmed_text (units : list TextUnit) : Prop :=
  ∀ i j u v, i < j → units !! i = Some u → units !! j = Some v →
    strip (text_content u) ≠ strip (text_content v).

(** "rectangle intersection area over the smaller fragment's area". *)
Definition intersection_area (u1 u2 : TextUnit) : Q :=
  (Qmaxb 0 (Qminb (bbox_x u1 + bbox_w u1) (bbox_x u2 + bbox_w u2)
            - Qmaxb (bbox_x u1) (bbox_x u2))
   * Qmaxb 0 (Qminb (bbox_y u1 + bbox_h u1) (bbox_y u2 + bbox_h u2)
              - Qmaxb (bbox_y u1) (bbox_y u2)))%Q.

Definition smaller_area (u1 u2 : TextUnit) : Q :=
  Qminb (bbox_w u1 * bbox_h u1) (bbox_w u2 * bbox_h u2).

Definition overlap_ratio (u1 u2 : TextUnit) : Q :=
  (intersection_area u1 u2 / smaller_area u1 u2)%Q.

(** [c] occurs in [l], and its first occurrence comes before every
    occurrence of [d]. *)
Definition first_seen_before (c d : chr) (l : list chr) : Prop :=
  ∃ l1 l2, l = l1 ++ c :: l2 ∧ d ∉ l1.

(** Number of occurrences of [c] in [l]. *)
Definition occurrences (c : chr) (l : list chr) : nat :=
  length (List.filter (fun x => (x =? c)%N) l).


(** Section 4.1, [isArabicBaseLetter]: "true for code points in
    U+0621..U+064A or U+0671..U+06FF". *)
Definition isArabicBaseLetter (c : chr) : Prop :=
  ((0x0621 ≤ c ∧ c ≤ 0x064A) ∨ (0x0671 ≤ c ∧ c ≤ 0x06FF))%N.

(** A code point of "the Arabic diacritic ranges (U+0610..U+061A,
    U+064B..U+065F, U+0670)". *)
Definition isDiacritic (c : chr) : Prop :=
  ((0x0610 ≤ c ∧ c ≤ 0x061A) ∨ (0x064B ≤ c ∧ c ≤ 0x065F) ∨ c = 0x0670)%N.

#[global] Instance isArabicBaseLetter_dec c : Decision (isArabicBaseLetter c).
Proof. unfold isArabicBaseLetter. apply _. Defined.

#[global] Instance isDiacritic_dec c : Decision (isDiacritic c).
Proof. unfold isDiacritic. apply _. Defined.

(** Section 4.1, [extractBaseLetters]: "[stripDiacritics] then filter by
    [isArabicBaseLetter], preserving order, duplicates retained". *)
Definition extractBaseLetters (t : text) : list chr :=
  filter isArabicBaseLetter (filter (λ c, ¬ isDiacritic c) t).

(** Section 4.4: "concatenate [extractBaseLetters(text)] over all
    fragments in block (in block order)". *)
Definition block_base_letters (b : block) : list chr :=
  concat (map (λ u, extractBaseLetters (text_content u)) b).

(** The ratio of the overlap rule as the code evaluates it on floats:
    every operation is rounded, and the divisor is 1 when the smaller
    area is not positive. *)
Section DoubleRatio.
Import PrimFloat.
Local Open Scope float_scope.

Definition intersection_area_double (u1 u2 : Double.TextUnit) : float :=
  Double.py_max 0
    (Double.py_min (Double.bbox_x u1 + Double.bbox_w u1)
                   (Double.bbox_x u2 + Double.bbox_w u2)
     - Double.py_max (Double.bbox_x u1) (Double.bbox_x u2))
  * Double.py_max 0
      (Double.py_min (Double.bbox_y u1 + Double.bbox_h u1)
                     (Double.bbox_y u2 + Double.bbox_h u2)
       - Double.py_max (Double.bbox_y u1) (Double.bbox_y u2)).

Definition smaller_area_double (u1 u2 : Double.TextUnit) : float :=
  Double.py_min (Double.bbox_w u1 * Double.bbox_h u1)
                (Double.bbox_w u2 * Double.bbox_h u2).

Definition overlap_ratio_double (u1 u2 : Double.TextUnit) : float :=
  intersection_area_double u1 u2
  / (if 0 <? smaller_area_double u1 u2 then smaller_area_double u1 u2
     else 1).

End DoubleRatio.

End Spec.

(** ** Concrete pages used in the evaluations below *)

Module Pages.

Definition unit_at (i : Z) (ty : UnitType) (t : text) (y h : Q) : TextUnit :=
  {| id := i; unit_type := ty; text_content := t;
     bbox_x := 10; bbox_y := y; bbox_w := 80; bbox_h := h;
     sort_order := i; audio_segment_url := None |}.

Definition boxed (i : Z) (t : text) (x y w h : Q) : TextUnit :=
  {| id := i; unit_type := letter; text_content := t;
     bbox_x := x; bbox_y := y; bbox_w := w; bbox_h := h;
     sort_order := i; audio_segment_url := None |}.

(** BEH, a rule, TEH far below the rule. *)
Definition letter_rule_letter : list TextUnit :=
  [ unit_at 1 letter [0x0628%N] 0 1;
    unit_at 2 divider (latin "---") 2 1;
    unit_at 3 letter [0x062A%N] 20 1 ].

(** A rule at the top of the page, BEH right under it. *)
Definition rule_on_top : list TextUnit :=
  [ unit_at 2 divider (latin "---") 0 1;
    unit_at 3 letter [0x0628%N] 2 1 ].

(** One bare BEH. *)
Definition bare_letter : list TextUnit :=
  [ boxed 0 [0x0628%N] 0 0 0 0 ].

(** BEH carrying U+0610, a mark of the classifier's range that is not in
    [ARABIC_DIACRITICS]. *)
Definition honorific_mark : list TextUnit :=
  [ boxed 0 [0x0628; 0x0610]%N 0 0 0 0 ].

(** Two fragments whose text is blank. *)
Definition two_blanks : list TextUnit :=
  [ boxed 0 [] 0 0 0 0; boxed 1 (latin "  ") 0 0 0 0 ].

(** Base letters BEH / BEH TEH / TEH: both letters occur twice. *)
Definition tie_block : block :=
  [ unit_at 1 letter [0x0628%N] 0 1;
    unit_at 2 word [0x0628; 0x062A]%N 0 1;
    unit_at 3 letter [0x062A%N] 0 1 ].


(** BEH FATHA / TEH FATHA / TEH FATHA / BEH FATHA: the mark FATHA occurs
    four times, each base letter twice. *)
Definition marked_tie_block : block :=
  [ unit_at 1 letter [0x0628; 0x064E]%N 0 1;
    unit_at 2 letter [0x062A; 0x064E]%N 0 1;
    unit_at 3 letter [0x062A; 0x064E]%N 0 1;
    unit_at 4 letter [0x0628; 0x064E]%N 0 1 ].

(** The boxes of the overlap example; their numbers are floats. *)
Section DoublePages.
Import PrimFloat.
Local Open Scope float_scope.
#[local] Set Warnings "-inexact-float".

Definition boxed_double (i : Z) (t : text) (x y w h : float)
    : Double.TextUnit :=
  {| Double.id := i; Double.unit_type := letter; Double.text_content := t;
     Double.bbox_x := x; Double.bbox_y := y;
     Double.bbox_w := w; Double.bbox_h := h;
     Double.sort_order := i; Double.audio_segment_url := None |}.

Definition box_a_double : Double.TextUnit :=
  boxed_double 0 (latin "a") 0 0 10 10.
Definition box_b_double : Double.TextUnit :=
  boxed_double 1 (latin "b") 5 5 10 10.
Definition box_c_double : Double.TextUnit :=
  boxed_double 1 (latin "b") 5 5 6 6.

(** Two strips of height 0.1 that share 3 of the 10 units of width of the
    narrower one. *)
Definition strip_13 : Double.TextUnit :=
  boxed_double 0 (latin "a") 0 0 13 0.1.
Definition strip_10 : Double.TextUnit :=
  boxed_double 1 (latin "b") 10 0 10 0.1.

End DoublePages.

End Pages.

Import Sectioning ImageAnalyzer QAChecker.

(** ** Auxiliary notions used in the proofs *)

(** The trimmed, non-empty texts of a page, in page order. *)
Definition trimmed_texts (units : list TextUnit) : list text :=
  filter (λ t, t ≠ []) (map (λ u, strip (text_content u)) units).

(** Two fragments of the page, the first before the second, whose trimmed
    texts are equal and not empty. *)
Definition has_repeated_text (units : list TextUnit) : Prop :=
  ∃ i j u v, i < j ∧ units !! i = Some u ∧ units !! j = Some v
    ∧ strip (text_content u) = strip (text_content v)
    ∧ strip (text_content u) ≠ [].

(** The count recorded for [c] in a counter table, 0 when absent. *)
Fixpoint count_of (c : chr) (cnt : list (chr * nat)) : nat :=
  match cnt with
  | [] => 0
  | (k, n) :: cnt' => if (k =? c)%N then n else count_of c cnt'
  end.

(** The [unit_ids] recorded for a block: its ids in [sort_order]. *)
Definition block_unit_ids (b : block) : list Z :=
  map id (sorted_by Z.ltb sort_order b).

(** The unit whose numbers are the exact values of the floats of [u];
    there is none when a coordinate is infinite or not a number. *)
Definition exact_unit (u : Double.TextUnit) : option TextUnit :=
  x ← Double.exact (Double.bbox_x u);
  y ← Double.exact (Double.bbox_y u);
  w ← Double.exact (Double.bbox_w u);
  h ← Double.exact (Double.bbox_h u);
  Some {| id := Double.id u; unit_type := Double.unit_type u;
          text_content := Double.text_content u;
          bbox_x := x; bbox_y := y; bbox_w := w; bbox_h := h;
          sort_order := Double.sort_order u;
          audio_segment_url := Double.audio_segment_url u |}.

(** [units !! i] is the first fragment whose trimmed text is [t]. *)
Definition first_with_text (units : list TextUnit) (i : nat) (t : text) : Prop :=
  ∃ u, units !! i = Some u ∧ strip (text_content u) = t
    ∧ ∀ k w, k < i → units !! k = Some w → strip (text_content w) ≠ t.

(** Notions used in the statements about the image analyzer. *)
Section ImageAnalysisNotions.
Import ImageAnalysis.

(** The code points [classify_unit_type] counts as Arabic letters. *)
Definition counted_letters (stripped : text) : list chr :=
  List.filter (λ c, between 0x0600 0x06FF c || between 0x0750 0x077F c)
    (List.filter
       (λ c, negb (bool_decide (c ∈ ImageAnalyzer.ARABIC_DIACRITICS))
             && negb (c =? 0x20)%N) stripped).

(** A word of the table [lines] comes from a box of the same line whose
    text is not blank. *)
Definition word_of_box (k : Z) (w : OcrWord) (b : OcrBox) : Prop :=
  line_num b = k ∧ word_text w = strip (box_text b) ∧ word_text w ≠ []
  ∧ word_left w = left b ∧ word_top w = top b
  ∧ word_width w = width b ∧ word_height w = height b
  ∧ word_conf w = Qmaxb 0 (conf b / 100).

(** The entry of [lines] made from the box [b]. *)
Definition word_of (b : OcrBox) : OcrWord :=
  {| word_text := strip (box_text b); word_left := left b;
     word_top := top b; word_width := width b; word_height := height b;
     word_conf := Qmaxb 0 (conf b / 100) |}.

(** The boxes of line [k] whose text is not blank, in the order of the
    table. *)
Definition line_boxes (k : Z) (data : list OcrBox) : list OcrBox :=
  List.filter
    (λ b, (line_num b =? k)%Z
          && negb (bool_decide (strip (box_text b) = []))) data.

End ImageAnalysisNotions.

(** ** Properties *)

(** *** Boolean comparisons of rationals *)

Lemma Qltb_lt x y : Qltb x y = true ↔ (x < y)%Q.
Proof.
  unfold Qltb. rewrite negb_true_iff, <- not_true_iff_false, Qle_bool_iff.
  split; [apply Qnot_le_lt|apply Qlt_not_le].
Qed.

Lemma Qltb_ge x y : Qltb x y = false ↔ (y <= x)%Q.
Proof.
  unfold Qltb. rewrite negb_false_iff, Qle_bool_iff. reflexivity.
Qed.

Lemma Qminb_le_l x y : (Qminb x y <= x)%Q.
Proof.
  unfold Qminb. destruct (Qltb y x) eqn:E; [|apply Qle_refl].
  apply Qltb_lt in E. by apply Qlt_le_weak.
Qed.

Lemma Qminb_le_r x y : (Qminb x y <= y)%Q.
Proof.
  unfold Qminb. destruct (Qltb y x) eqn:E; [apply Qle_refl|].
  by apply Qltb_ge in E.
Qed.

Lemma Qmaxb_ge_l x y : (x <= Qmaxb x y)%Q.
Proof.
  unfold Qmaxb. destruct (Qltb x y) eqn:E; [|apply Qle_refl].
  apply Qltb_lt in E. by apply Qlt_le_weak.
Qed.

Lemma Qmaxb_ge_r x y : (y <= Qmaxb x y)%Q.
Proof.
  unfold Qmaxb. destruct (Qltb x y) eqn:E; [apply Qle_refl|].
  by apply Qltb_ge in E.
Qed.

Lemma Qmaxb_0_nonpos v : (v <= 0)%Q → Qmaxb 0 v = 0%Q.
Proof.
  intros Hv. unfold Qmaxb. destruct (Qltb 0 v) eqn:E; [|done].
  apply Qltb_lt in E. exfalso. by apply (Qlt_not_le _ _ E).
Qed.

(** *** Empty input *)

(** C7. On the empty fragment list [auto_section_page] returns the empty
    list, and [run_qa_checks] returns [passed = false] with [unit_count]
    the only failing check and score 1.0 - 0.15 = 0.85. *)
Theorem empty_input :
  (∀ page gap_threshold, auto_section_page page [] gap_threshold = Ok [])
  ∧ qa_passed (run_qa_checks []) = false
  ∧ failed (run_qa_checks []) = ["unit_count"%string]
  ∧ (score (run_qa_checks []) == 85 # 100)%Q
  ∧ (score (run_qa_checks []) == 1 - weights "unit_count")%Q.
Proof.
  split; [reflexivity|].
  repeat split; vm_compute; reflexivity.
Qed.

(** *** Evaluations of the segmenter and the assembler *)

(** C2. The segmenter emits an empty block when a fragment that is not a
    divider follows a divider after a gap above the threshold: on the page
    "letter, rule, letter far below" the blocks are [[A]; [D]; []; [B]], and
    on an empty block the assembler raises [ValueError] at
    [min(u['bbox_y'] for u in block)]. *)
Theorem segment_emits_empty_block :
  map (map id) (_segment_by_y_axis Pages.letter_rule_letter 5)
    = [[1%Z]; [2%Z]; []; [3%Z]]
  ∧ [] ∈ _segment_by_y_axis Pages.letter_rule_letter 5
  ∧ ∀ page i total_blocks seen,
      section_of_block page i total_blocks [] seen = Raise ValueError.
Proof.
  split; [reflexivity|]. split; [|reflexivity].
  vm_compute. do 2 apply list_elem_of_further. apply list_elem_of_here.
Qed.

(** C1. On a non-empty page whose three fragments have distinct ids,
    [auto_section_page] returns no section list at all: it raises
    [ValueError]. *)
Theorem auto_section_page_raises_on_distinct_ids :
  Pages.letter_rule_letter ≠ []
  ∧ NoDup (map id Pages.letter_rule_letter)
  ∧ auto_section_page 7 Pages.letter_rule_letter 5 = Raise ValueError.
Proof.
  split; [discriminate|]. split; [|vm_compute; reflexivity].
  apply (bool_decide_unpack _). vm_compute. exact I.
Qed.

(** C3. A divider that is the topmost fragment is not isolated: with the
    next fragment within the gap threshold, the page yields one section of
    type [generic] holding both the divider and its neighbour. *)
Theorem top_divider_shares_section :
  ∃ s, auto_section_page 7 Pages.rule_on_top 5 = Ok [s]
       ∧ unit_ids s = [2%Z; 3%Z]
       ∧ section_type s = generic.
Proof.
  eexists. split; [vm_compute; reflexivity|]. split; reflexivity.
Qed.

(** *** What the segmenter and the assembler do guarantee *)

Section SortedFacts.
Context {A K : Type} (ltb : K → K → bool) (key : A → K).

Lemma insert_by_perm x l : insert_by ltb key x l ≡ₚ x :: l.
Proof.
  induction l as [|y l IH]; cbn; [done|].
  destruct (ltb (key y) (key x)); [|done].
  rewrite IH. apply Permutation_swap.
Qed.

Lemma sorted_by_perm l : sorted_by ltb key l ≡ₚ l.
Proof.
  induction l as [|x l IH]; cbn; [done|].
  by rewrite insert_by_perm, IH.
Qed.

End SortedFacts.

(** The blocks and the current block always hold, in order, exactly the
    fragments walked so far. *)
Lemma segment_loop_concat gap_threshold rest : ∀ prev blocks current_block,
  concat (segment_loop gap_threshold prev rest blocks current_block).1
    ++ (segment_loop gap_threshold prev rest blocks current_block).2
  = concat blocks ++ current_block ++ rest.
Proof.
  induction rest as [|curr rest IH]; intros prev blocks current_block.
  - cbn. by rewrite app_nil_r.
  - cbn [segment_loop].
    destruct (Qgtb _ gap_threshold || is_divider_unit curr).
    + destruct (is_divider_unit curr).
      * rewrite IH. destruct current_block; cbn;
          rewrite ?concat_app; cbn; by rewrite <- ?app_assoc, ?app_nil_r.
      * rewrite IH, concat_app. cbn. by rewrite app_nil_r, <- !app_assoc.
    + rewrite IH. by rewrite <- !app_assoc.
Qed.

(** The blocks of a page, concatenated, are the page sorted by [bbox_y]:
    the segmenter neither loses nor repeats a fragment. *)
Lemma segment_concat units gap_threshold :
  concat (_segment_by_y_axis units gap_threshold)
  = sorted_by Qltb bbox_y units.
Proof.
  unfold _segment_by_y_axis. destruct units as [|u units]; [done|].
  destruct (sorted_by Qltb bbox_y (u :: units)) as [|first rest]; [done|].
  pose proof (segment_loop_concat gap_threshold rest first [] [first]) as H.
  destruct (segment_loop gap_threshold first rest [] [first])
    as [blocks current_block].
  cbn in H. rewrite <- H. destruct current_block.
  - by rewrite app_nil_r.
  - rewrite concat_app. cbn. by rewrite app_nil_r.
Qed.

Lemma segment_perm units gap_threshold :
  concat (_segment_by_y_axis units gap_threshold) ≡ₚ units.
Proof. rewrite segment_concat. apply sorted_by_perm. Qed.

(** Blocks already closed stay in the result. *)
Lemma segment_loop_keeps gap_threshold rest : ∀ prev blocks current_block b,
  b ∈ blocks →
  b ∈ (segment_loop gap_threshold prev rest blocks current_block).1.
Proof.
  induction rest as [|curr rest IH]; intros prev blocks current_block b Hb;
    [done|].
  cbn [segment_loop].
  destruct (Qgtb _ gap_threshold || is_divider_unit curr).
  - destruct (is_divider_unit curr); apply IH.
    + apply elem_of_app. left. destruct current_block; [done|].
      apply elem_of_app. by left.
    + apply elem_of_app. by left.
  - by apply IH.
Qed.

(** Every divider after the first fragment in y-order is closed into a
    block of its own. *)
Lemma segment_loop_divider gap_threshold rest : ∀ prev blocks current_block u,
  u ∈ rest → is_divider_unit u = true →
  [u] ∈ (segment_loop gap_threshold prev rest blocks current_block).1.
Proof.
  induction rest as [|curr rest IH]; intros prev blocks current_block u Hu Hd;
    [inversion Hu|].
  apply elem_of_cons in Hu as [<-|Hu].
  - cbn [segment_loop]. rewrite Hd, orb_true_r.
    apply segment_loop_keeps, elem_of_app. right. apply list_elem_of_here.
  - cbn [segment_loop].
    destruct (Qgtb _ gap_threshold || is_divider_unit curr);
      [destruct (is_divider_unit curr)|]; by apply IH.
Qed.

Lemma divider_after_first_is_isolated units gap_threshold first rest u :
  sorted_by Qltb bbox_y units = first :: rest →
  u ∈ rest → unit_type u = divider →
  [u] ∈ _segment_by_y_axis units gap_threshold
  ∧ ∀ i total_blocks, _classify_block [u] i total_blocks = divider_section.
Proof.
  intros Hs Hu Hd.
  assert (is_divider_unit u = true) as Hd'.
  { unfold is_divider_unit. by apply bool_decide_eq_true. }
  split; [|intros i t; cbn; by rewrite Hd'].
  unfold _segment_by_y_axis. destruct units as [|u0 units]; [done|].
  rewrite Hs.
  pose proof (segment_loop_divider gap_threshold rest first [] [first] u Hu Hd')
    as H.
  destruct (segment_loop gap_threshold first rest [] [first])
    as [blocks current_block].
  cbn in H. destruct current_block; [done|]. apply elem_of_app. by left.
Qed.

(** The fidelity assertions of the loop succeed exactly on fresh,
    pairwise-distinct ids. *)
Lemma record_unit_ids_Ok ids : ∀ seen seen',
  record_unit_ids ids seen = Ok seen' ↔
  NoDup ids ∧ (∀ x, x ∈ ids → x ∉ seen) ∧ seen' = list_to_set ids ∪ seen.
Proof.
  induction ids as [|uid ids IH]; intros seen seen'; cbn.
  - split.
    + intros [= <-]. split; [constructor|]. split; [|set_solver].
      intros x Hx. inversion Hx.
    + intros (_ & _ & ->). f_equal. set_solver.
  - destruct (bool_decide (uid ∈ seen)) eqn:E.
    + apply bool_decide_eq_true in E. split; [done|].
      intros (_ & H & _). exfalso. apply (H uid); [apply list_elem_of_here|done].
    + apply bool_decide_eq_false in E. rewrite IH, NoDup_cons. split.
      * intros (Hnd & Hfresh & ->). split; [|split; [|set_solver]].
        -- split; [|done]. intros Hin. apply (Hfresh _ Hin). set_solver.
        -- intros x [->|Hx]%elem_of_cons; [done|].
           specialize (Hfresh _ Hx). set_solver.
      * intros ([Hout Hnd] & Hfresh & ->). split; [done|]. split; [|set_solver].
        intros x Hx. specialize (Hfresh x). set_solver.
Qed.

Lemma section_of_block_Ok page i total_blocks b seen s seen' :
  section_of_block page i total_blocks b seen = Ok (s, seen') ↔
  b ≠ [] ∧ record_unit_ids (block_unit_ids b) seen = Ok seen'
  ∧ ∃ y_start y_end,
      py_min (map bbox_y b) = Ok y_start
      ∧ py_max (map (λ u, (bbox_y u + bbox_h u)%Q) b) = Ok y_end
      ∧ s = {| page_id := page;
               section_type := _classify_block b i total_blocks;
               target_letter :=
                 _extract_target_letter b (_classify_block b i total_blocks);
               title_ar :=
                 (_generate_titles (_classify_block b i total_blocks)
                    (_extract_target_letter b
                       (_classify_block b i total_blocks))).1;
               title_uz :=
                 (_generate_titles (_classify_block b i total_blocks)
                    (_extract_target_letter b
                       (_classify_block b i total_blocks))).2;
               section_sort_order := i;
               unit_ids := block_unit_ids b;
               bbox_y_start := round2 y_start;
               bbox_y_end := round2 y_end;
               is_manual := false |}.
Proof.
  unfold section_of_block, block_unit_ids.
  destruct (_generate_titles _ _) as [ar uz]. cbn [fst snd].
  destruct (record_unit_ids _ seen) as [seen1|e]; cbn;
    [|split; [done|by intros (_ & ? & _)]].
  destruct b as [|u b]; cbn; [split; [done|by intros [? _]]|].
  split.
  - intros [= <- <-]. split; [done|]. split; [done|]. eauto.
  - intros (_ & [= <-] & y1 & y2 & [= <-] & [= <-] & ->). done.
Qed.

Lemma record_unit_ids_app ids1 ids2 : ∀ seen,
  record_unit_ids (ids1 ++ ids2) seen
  = record_unit_ids ids1 seen ≫= record_unit_ids ids2.
Proof.
  induction ids1 as [|uid ids1 IH]; intros seen; cbn; [done|].
  destruct (bool_decide (uid ∈ seen)); [done|]. apply IH.
Qed.

Lemma section_loop_Ok page total_blocks blocks : ∀ i sections seen sections' seen',
  section_loop page total_blocks i blocks sections seen = Ok (sections', seen') →
  ∃ new, sections' = sections ++ new
    ∧ map unit_ids new = map block_unit_ids blocks
    ∧ Forall (λ b, b ≠ []) blocks
    ∧ record_unit_ids (concat (map block_unit_ids blocks)) seen = Ok seen'.
Proof.
  induction blocks as [|b blocks IH]; intros i sections seen sections' seen'.
  - cbn. intros [= <- <-]. exists []. by rewrite app_nil_r.
  - cbn [section_loop].
    destruct (section_of_block page i total_blocks b seen) as [[s seen1]|e]
      eqn:Eb; [|done].
    cbn. intros Hloop. apply section_of_block_Ok in Eb as (Hne & Hrec & Hs).
    destruct (IH _ _ _ _ _ Hloop) as (new & -> & Hids & Hall & Hrest).
    exists (s :: new). split; [by rewrite <- app_assoc|].
    split; [|split; [by constructor|]].
    + cbn. rewrite Hids. f_equal.
      by destruct Hs as (y1 & y2 & _ & _ & ->).
    + cbn. by rewrite record_unit_ids_app, Hrec.
Qed.

Lemma section_loop_returns page total_blocks blocks : ∀ i sections seen seen',
  Forall (λ b, b ≠ []) blocks →
  record_unit_ids (concat (map block_unit_ids blocks)) seen = Ok seen' →
  ∃ sections',
    section_loop page total_blocks i blocks sections seen = Ok (sections', seen').
Proof.
  induction blocks as [|b blocks IH]; intros i sections seen seen' Hall Hrec.
  - cbn in *. injection Hrec as <-. eauto.
  - apply Forall_cons in Hall as [Hne Hall].
    cbn in Hrec. rewrite record_unit_ids_app in Hrec.
    destruct (record_unit_ids (block_unit_ids b) seen) as [seen1|] eqn:Eb;
      [|done].
    cbn in Hrec. cbn [section_loop].
    destruct b as [|u b]; [done|].
    assert (∃ s, section_of_block page i total_blocks (u :: b) seen
                 = Ok (s, seen1)) as [s ->].
    { eexists. apply section_of_block_Ok. split; [done|]. split; [done|].
      eexists _, _. split; [reflexivity|]. split; reflexivity. }
    cbn. by apply IH.
Qed.

Lemma block_unit_ids_perm blocks :
  concat (map block_unit_ids blocks) ≡ₚ map id (concat blocks).
Proof.
  induction blocks as [|b blocks IH]; cbn; [done|].
  rewrite map_app, IH. unfold block_unit_ids.
  by rewrite (sorted_by_perm Z.ltb sort_order b).
Qed.

(** Whenever [auto_section_page] returns, the [unit_ids] of its sections,
    concatenated, hold every input id exactly once. *)
Lemma auto_section_page_partition page units gap_threshold sections :
  auto_section_page page units gap_threshold = Ok sections →
  concat (map unit_ids sections) ≡ₚ map id units
  ∧ NoDup (concat (map unit_ids sections)).
Proof.
  unfold auto_section_page. destruct units as [|u units].
  { intros [= <-]. split; [done|constructor]. }
  set (us := u :: units). set (blocks := _segment_by_y_axis us gap_threshold).
  destruct (section_loop page (length blocks) 0 blocks [] ∅)
    as [[secs seen]|e] eqn:El; [|done].
  cbn. destruct (bool_decide _); [|done]. intros [= <-].
  apply section_loop_Ok in El as (new & -> & Hids & _ & Hrec).
  cbn [app]. rewrite Hids.
  apply record_unit_ids_Ok in Hrec as (Hnd & _ & _).
  split; [|done].
  rewrite block_unit_ids_perm. unfold blocks.
  by rewrite (segment_perm us gap_threshold).
Qed.

(** [auto_section_page] returns on every non-empty page with distinct ids
    whose segmentation has no empty block. *)
Lemma auto_section_page_returns page units gap_threshold :
  NoDup (map id units) →
  Forall (λ b, b ≠ []) (_segment_by_y_axis units gap_threshold) →
  ∃ sections, auto_section_page page units gap_threshold = Ok sections.
Proof.
  intros Hnd Hall. unfold auto_section_page.
  destruct units as [|u units]; [by eexists|].
  set (us := u :: units) in *.
  set (blocks := _segment_by_y_axis us gap_threshold) in *.
  assert (concat (map block_unit_ids blocks) ≡ₚ map id us) as Hperm.
  { rewrite block_unit_ids_perm. unfold blocks.
    by rewrite (segment_perm us gap_threshold). }
  clearbody blocks us.
  destruct (section_loop_returns page (length blocks) blocks 0 [] ∅
              (list_to_set (concat (map block_unit_ids blocks)) ∪ ∅) Hall)
    as [secs ->].
  { apply record_unit_ids_Ok. split; [by rewrite Hperm|]. split; [|done].
    intros x _. apply not_elem_of_empty. }
  cbn. exists secs. rewrite bool_decide_true; [done|].
  rewrite (right_id_L ∅ (∪)). apply set_eq. intros x.
  by rewrite !elem_of_list_to_set, Hperm.
Qed.

(** Without divider fragments no block is empty. *)
Lemma segment_loop_nonempty gap_threshold rest : ∀ prev blocks current_block,
  Forall (λ u, unit_type u ≠ divider) rest →
  Forall (λ b, b ≠ []) blocks → current_block ≠ [] →
  Forall (λ b, b ≠ [])
    (segment_loop gap_threshold prev rest blocks current_block).1
  ∧ (segment_loop gap_threshold prev rest blocks current_block).2 ≠ [].
Proof.
  induction rest as [|curr rest IH]; intros prev blocks current_block Hrest Hb Hc;
    [done|].
  apply Forall_cons in Hrest as [Hcurr Hrest]. cbn [segment_loop].
  assert (is_divider_unit curr = false) as ->.
  { unfold is_divider_unit. by apply bool_decide_eq_false. }
  rewrite orb_false_r. destruct (Qgtb _ gap_threshold); apply IH; try done.
  - apply Forall_app. split; [done|]. by constructor.
  - by destruct current_block.
Qed.

Lemma segment_nonempty_without_dividers units gap_threshold :
  Forall (λ u, unit_type u ≠ divider) units →
  Forall (λ b, b ≠ []) (_segment_by_y_axis units gap_threshold).
Proof.
  intros Hnd. unfold _segment_by_y_axis.
  destruct units as [|u units]; [constructor|].
  rewrite <- (sorted_by_perm Qltb bbox_y (u :: units)) in Hnd.
  destruct (sorted_by Qltb bbox_y (u :: units)) as [|first rest];
    [constructor|].
  apply Forall_cons in Hnd as [_ Hrest].
  destruct (segment_loop_nonempty gap_threshold rest first [] [first] Hrest)
    as [Hblocks Hcur]; [constructor|done|].
  revert Hblocks Hcur.
  destruct (segment_loop gap_threshold first rest [] [first])
    as [blocks current_block].
  cbn [fst snd]. intros Hblocks Hcur.
  destruct current_block; [done|].
  apply Forall_app. split; [done|]. by constructor.
Qed.

(** On a non-empty page without dividers and with distinct ids,
    [auto_section_page] returns sections whose [unit_ids] partition the
    input ids. *)
Lemma auto_section_page_partition_without_dividers page units gap_threshold :
  NoDup (map id units) →
  Forall (λ u, unit_type u ≠ divider) units →
  ∃ sections,
    auto_section_page page units gap_threshold = Ok sections
    ∧ concat (map unit_ids sections) ≡ₚ map id units
    ∧ NoDup (concat (map unit_ids sections)).
Proof.
  intros Hnd Hdiv.
  destruct (auto_section_page_returns page units gap_threshold Hnd)
    as [sections Hs]; [by apply segment_nonempty_without_dividers|].
  exists sections. split; [done|]. by eapply auto_section_page_partition.
Qed.

(** The defect behind the empty block: after a divider the current block
    is empty, and the branch for a gap above the threshold appends it
    without the emptiness test of the divider branch. *)
Lemma segment_loop_empty_block gap_threshold pre d v post :
  is_divider_unit d = true → is_divider_unit v = false →
  Qgtb (bbox_y v - (bbox_y d + bbox_h d)) gap_threshold = true →
  ∀ prev blocks current_block,
    [] ∈ (segment_loop gap_threshold prev (pre ++ d :: v :: post)
            blocks current_block).1.
Proof.
  intros Hd Hv Hgap. induction pre as [|u pre IH];
    intros prev blocks current_block.
  - cbn [app segment_loop]. rewrite Hd, Hv, Hgap, orb_true_r. cbn [orb].
    apply segment_loop_keeps, elem_of_app. right. apply list_elem_of_here.
  - cbn [app segment_loop].
    destruct (Qgtb _ gap_threshold || is_divider_unit u);
      [destruct (is_divider_unit u)|]; apply IH.
Qed.

Lemma section_loop_empty_block page total_blocks blocks :
  ∀ i sections seen seen',
    [] ∈ blocks →
    record_unit_ids (concat (map block_unit_ids blocks)) seen = Ok seen' →
    section_loop page total_blocks i blocks sections seen = Raise ValueError.
Proof.
  induction blocks as [|b blocks IH]; intros i sections seen seen' Hin Hrec;
    [inversion Hin|].
  cbn [section_loop]. destruct b as [|u b]; [done|].
  apply elem_of_cons in Hin as [|Hin]; [done|].
  cbn [map concat] in Hrec. rewrite record_unit_ids_app in Hrec.
  destruct (record_unit_ids (block_unit_ids (u :: b)) seen) as [seen1|] eqn:Eb;
    [|done].
  assert (∃ s, section_of_block page i total_blocks (u :: b) seen
               = Ok (s, seen1)) as [s ->].
  { eexists. apply section_of_block_Ok. split; [done|]. split; [done|].
    eexists _, _. split; [reflexivity|]. split; reflexivity. }
  cbn. by eapply IH.
Qed.

(** On a page with distinct ids, a fragment that is not a divider and lies
    farther than the threshold below the divider preceding it in y-order
    makes [auto_section_page] raise [ValueError]. *)
Lemma auto_section_page_raises page units gap_threshold first pre d v post :
  NoDup (map id units) →
  sorted_by Qltb bbox_y units = first :: pre ++ d :: v :: post →
  unit_type d = divider → unit_type v ≠ divider →
  (gap_threshold < bbox_y v - (bbox_y d + bbox_h d))%Q →
  auto_section_page page units gap_threshold = Raise ValueError.
Proof.
  intros Hnd Hsorted Hd Hv Hgap.
  assert ([] ∈ _segment_by_y_axis units gap_threshold) as Hempty.
  { unfold _segment_by_y_axis. destruct units as [|u units]; [done|].
    rewrite Hsorted.
    pose proof (segment_loop_empty_block gap_threshold pre d v post) as H.
    specialize (H ltac:(by apply bool_decide_eq_true)
                  ltac:(by apply bool_decide_eq_false)
                  ltac:(by apply Qltb_lt) first [] [first]).
    destruct (segment_loop _ _ _ _ _) as [blocks current_block].
    cbn [fst] in H. destruct current_block; [done|].
    apply elem_of_app. by left. }
  unfold auto_section_page. destruct units as [|u units]; [done|].
  set (us := u :: units) in *.
  set (blocks := _segment_by_y_axis us gap_threshold) in *.
  assert (concat (map block_unit_ids blocks) ≡ₚ map id us) as Hperm.
  { rewrite block_unit_ids_perm. unfold blocks.
    by rewrite (segment_perm us gap_threshold). }
  clearbody blocks us.
  rewrite (section_loop_empty_block page (length blocks) blocks 0 [] ∅
             (list_to_set (concat (map block_unit_ids blocks)) ∪ ∅));
    [done|done|].
  apply record_unit_ids_Ok. split; [by rewrite Hperm|]. split; [|done].
  intros x _. apply not_elem_of_empty.
Qed.

(** *** The comparisons respect equality of rationals *)

#[local] Instance Qltb_comp : Proper (Qeq ==> Qeq ==> eq) Qltb.
Proof. intros x x' Hx y y' Hy. unfold Qltb. by rewrite Hx, Hy. Qed.

#[local] Instance Qgtb_comp : Proper (Qeq ==> Qeq ==> eq) Qgtb.
Proof. intros x x' Hx y y' Hy. unfold Qgtb. by rewrite Hx, Hy. Qed.

#[local] Instance Qgeb_comp : Proper (Qeq ==> Qeq ==> eq) Qgeb.
Proof. intros x x' Hx y y' Hy. unfold Qgeb. by rewrite Hx, Hy. Qed.

#[local] Instance Qmaxb_comp : Proper (Qeq ==> Qeq ==> Qeq) Qmaxb.
Proof.
  intros x x' Hx y y' Hy. unfold Qmaxb. rewrite Hx, Hy.
  by destruct (Qltb x' y').
Qed.

Lemma round_half_even_comp x y :
  (x == y)%Q → round_half_even x = round_half_even y.
Proof.
  intros H. unfold round_half_even.
  assert (Qfloor x = Qfloor y) as -> by (by rewrite H).
  assert (∀ f, Qltb (x - inject_Z f) (1 # 2) = Qltb (y - inject_Z f) (1 # 2))
    as -> by (intros f; by rewrite H).
  assert (∀ f, Qltb (1 # 2) (x - inject_Z f) = Qltb (1 # 2) (y - inject_Z f))
    as -> by (intros f; by rewrite H).
  reflexivity.
Qed.

Lemma round2_comp x y : (x == y)%Q → round2 x = round2 y.
Proof.
  intros H. unfold round2.
  rewrite (round_half_even_comp (x * 100) (y * 100)); [done|by rewrite H].
Qed.

(** *** The target letter *)

Lemma occurrences_snoc c l x :
  Spec.occurrences c (l ++ [x])
  = Spec.occurrences c l + (if (x =? c)%N then 1 else 0).
Proof.
  unfold Spec.occurrences. rewrite List.filter_app, length_app. cbn.
  by destruct (x =? c)%N.
Qed.

Lemma occurrences_pos c l : 0 < Spec.occurrences c l ↔ c ∈ l.
Proof.
  unfold Spec.occurrences. induction l as [|x l IH]; cbn.
  - split; [lia|]. intros H. inversion H.
  - rewrite elem_of_cons. destruct (x =? c)%N eqn:E; cbn.
    + apply N.eqb_eq in E. split; [auto|lia].
    + apply N.eqb_neq in E. rewrite IH.
      split; [auto|]. intros [?|?]; [congruence|done].
Qed.

Lemma count_of_incr c x cnt :
  count_of c (counter_incr x cnt)
  = count_of c cnt + (if (x =? c)%N then 1 else 0).
Proof.
  induction cnt as [|[k n] cnt IH]; cbn; [done|].
  destruct (k =? x)%N eqn:Ekx; cbn; destruct (k =? c)%N eqn:Ekc;
    destruct (x =? c)%N eqn:Exc; try lia; try done;
    rewrite ?N.eqb_eq, ?N.eqb_neq in *; congruence.
Qed.

Lemma keys_incr x cnt :
  (counter_incr x cnt).*1
  = if decide (x ∈ cnt.*1) then cnt.*1 else cnt.*1 ++ [x].
Proof.
  induction cnt as [|[k n] cnt IH]; cbn.
  - rewrite decide_False; [done|]. intros H. inversion H.
  - destruct (k =? x)%N eqn:Ekx; cbn.
    + apply N.eqb_eq in Ekx. subst k.
      rewrite decide_True; [done|]. apply list_elem_of_here.
    + apply N.eqb_neq in Ekx. rewrite IH.
      destruct (decide (x ∈ cnt.*1)) as [Hin|Hout].
      * rewrite decide_True; [done|]. by apply list_elem_of_further.
      * rewrite decide_False; [done|].
        intros [?|?]%elem_of_cons; [congruence|done].
Qed.

Lemma Counter_snoc l x : Counter (l ++ [x]) = counter_incr x (Counter l).
Proof. unfold Counter. by rewrite foldl_app. Qed.

Lemma count_of_Counter c l : count_of c (Counter l) = Spec.occurrences c l.
Proof.
  induction l as [|x l IH] using rev_ind; [done|].
  by rewrite Counter_snoc, count_of_incr, occurrences_snoc, IH.
Qed.

Lemma keys_Counter c l : c ∈ (Counter l).*1 ↔ c ∈ l.
Proof.
  induction l as [|x l IH] using rev_ind; [done|].
  rewrite Counter_snoc, keys_incr, elem_of_app, list_elem_of_singleton.
  destruct (decide (x ∈ (Counter l).*1)) as [Hin|Hout].
  - rewrite IH. split; [auto|]. intros [?| ->]; [done|]. by apply IH.
  - by rewrite elem_of_app, list_elem_of_singleton, IH.
Qed.

Lemma NoDup_keys_Counter l : NoDup (Counter l).*1.
Proof.
  induction l as [|x l IH] using rev_ind; [constructor|].
  rewrite Counter_snoc, keys_incr.
  destruct (decide (x ∈ (Counter l).*1)) as [Hin|Hout]; [done|].
  apply NoDup_app. split; [done|]. split; [|apply NoDup_singleton].
  intros y Hy ->%list_elem_of_singleton. done.
Qed.

(** The table lists its keys in the order of their first occurrence. *)
Lemma keys_Counter_order l a c b d :
  (Counter l).*1 = a ++ c :: b → d ∈ b → Spec.first_seen_before c d l.
Proof.
  revert a c b d. induction l as [|x l IH] using rev_ind; intros a c b d.
  - intros H. by destruct a.
  - rewrite Counter_snoc, keys_incr.
    assert (∀ c d, Spec.first_seen_before c d l →
                   Spec.first_seen_before c d (l ++ [x])) as Hmono.
    { intros c' d' (l1 & l2 & -> & Hd). exists l1, (l2 ++ [x]).
      by rewrite <- app_assoc. }
    destruct (decide (x ∈ (Counter l).*1)) as [Hin|Hout]; [by eauto|].
    intros Hks Hd.
    destruct b as [|b0 b _] using rev_ind; [inversion Hd|].
    change (a ++ c :: b ++ [b0]) with (a ++ (c :: b) ++ [b0]) in Hks.
    rewrite app_assoc in Hks. apply app_inj_tail in Hks as [Hks <-].
    apply elem_of_app in Hd as [Hd| ->%list_elem_of_singleton]; [by eauto|].
    assert (c ∈ l) as (l1 & l2 & -> & Hfirst)%list_elem_of_split_l.
    { apply keys_Counter. rewrite Hks. apply elem_of_app. right.
      apply list_elem_of_here. }
    exists l1, (l2 ++ [x]). split; [by rewrite <- app_assoc|].
    intros Hx. apply Hout, keys_Counter.
    apply elem_of_app. by left.
Qed.

Lemma count_of_entry c n cnt :
  NoDup cnt.*1 → (c, n) ∈ cnt → count_of c cnt = n.
Proof.
  induction cnt as [|[k m] cnt IH]; cbn; intros Hnd Hin; [inversion Hin|].
  apply NoDup_cons in Hnd as [Hfresh Hnd].
  apply elem_of_cons in Hin as [Heq|Hin].
  - injection Heq as <- <-. by rewrite N.eqb_refl.
  - destruct (k =? c)%N eqn:E; [|by apply IH].
    apply N.eqb_eq in E. subst k. exfalso. apply Hfresh.
    apply list_elem_of_fmap. by exists (c, n).
Qed.

(** [max(items, key=itemgetter(1))] returns the first entry with the
    greatest count. *)
Lemma first_max_spec (rest : list (chr * nat)) : ∀ a m mid,
  (∀ e, e ∈ a → e.2 < m.2) → (∀ e, e ∈ mid → e.2 ≤ m.2) →
  ∃ a' b' r,
    r = foldl (λ m kv', if m.2 <? kv'.2 then kv' else m) m rest
    ∧ a ++ m :: mid ++ rest = a' ++ r :: b'
    ∧ (∀ e, e ∈ a' → e.2 < r.2) ∧ (∀ e, e ∈ b' → e.2 ≤ r.2).
Proof.
  induction rest as [|kv rest IH]; intros a m mid Ha Hmid; cbn [foldl].
  - exists a, mid, m. by rewrite app_nil_r.
  - destruct (m.2 <? kv.2) eqn:E.
    + apply Nat.ltb_lt in E.
      destruct (IH (a ++ m :: mid) kv []) as (a' & b' & r & Hr & Heq & H).
      * intros e [He|[->|He]%elem_of_cons]%elem_of_app;
          [specialize (Ha _ He)| |specialize (Hmid _ He)]; lia.
      * intros e He. inversion He.
      * exists a', b', r. split; [done|]. split; [|done].
        rewrite <- Heq. cbn. by rewrite <- !app_assoc.
    + apply Nat.ltb_ge in E.
      destruct (IH a m (mid ++ [kv])) as (a' & b' & r & Hr & Heq & H).
      * done.
      * intros e [He| ->%list_elem_of_singleton]%elem_of_app; [auto|done].
      * exists a', b', r. split; [done|]. split; [|done].
        rewrite <- Heq. by rewrite <- !app_assoc.
Qed.

Lemma most_common_1_spec (l : list chr) :
  l ≠ [] →
  ∃ c n, most_common_1 (Counter l) = [(c, n)]
    ∧ c ∈ l
    ∧ ∀ d, Spec.occurrences d l ≤ Spec.occurrences c l
         ∧ (d ≠ c → Spec.occurrences d l = Spec.occurrences c l →
            Spec.first_seen_before c d l).
Proof.
  intros Hne.
  pose proof (NoDup_keys_Counter l) as Hnd.
  pose proof (keys_Counter_order l) as Hord.
  assert (∀ c n, (c, n) ∈ Counter l → n = Spec.occurrences c l ∧ c ∈ l)
    as Hentry.
  { intros c n Hin. rewrite <- count_of_Counter.
    split; [symmetry; by apply count_of_entry|].
    apply keys_Counter, list_elem_of_fmap. by exists (c, n). }
  assert (∀ d, d ∈ l → (d, Spec.occurrences d l) ∈ Counter l) as Hhas.
  { intros d [[d' n] [Hd Hin]]%keys_Counter%list_elem_of_fmap.
    cbn in Hd. subst d'. by destruct (Hentry _ _ Hin) as [<- _]. }
  destruct (Counter l) as [|kv cnt] eqn:EC.
  { destruct l as [|x l]; [done|]. exfalso.
    specialize (Hhas x ltac:(apply list_elem_of_here)). inversion Hhas. }
  destruct (first_max_spec cnt [] kv []) as (a & b & [c n] & Hr & Heq & Ha & Hb).
  { intros e He. inversion He. }
  { intros e He. inversion He. }
  cbn [app] in Heq. cbn [snd] in Ha, Hb.
  exists c, n. split; [unfold most_common_1; by rewrite <- Hr|].
  assert ((c, n) ∈ kv :: cnt) as Hc.
  { rewrite Heq. apply elem_of_app. right. apply list_elem_of_here. }
  destruct (Hentry _ _ Hc) as [Hn Hcl]. split; [done|].
  intros d. rewrite <- Hn.
  destruct (decide (d ∈ l)) as [Hd|Hd]; cycle 1.
  { assert (Spec.occurrences d l = 0) as ->.
    { destruct (Spec.occurrences d l) eqn:E0; [done|].
      exfalso. apply Hd, occurrences_pos. lia. }
    split; [lia|]. intros _ Hn0. exfalso.
    apply occurrences_pos in Hcl. lia. }
  pose proof (Hhas _ Hd) as Hdin. rewrite Heq in Hdin.
  apply elem_of_app in Hdin as [Hdin|[Hdin|Hdin]%elem_of_cons].
  - specialize (Ha _ Hdin). cbn in Ha. split; [lia|]. intros _ ?. lia.
  - injection Hdin as -> _. split; [lia|]. done.
  - pose proof (Hb _ Hdin) as Hle. cbn in Hle. split; [done|].
    intros _ _. apply (Hord a.*1 c b.*1).
    + by rewrite Heq, fmap_app, fmap_cons.
    + apply list_elem_of_fmap. by exists (d, Spec.occurrences d l).
Qed.

(** The base letters the code collects are those of the specification. *)
Lemma is_arabic_letter_spec c :
  is_arabic_letter c = true ↔ Spec.isArabicBaseLetter c.
Proof.
  unfold is_arabic_letter, Spec.isArabicBaseLetter, between.
  by rewrite orb_true_iff, !andb_true_iff, !N.leb_le.
Qed.

Lemma is_diacritic_spec c : is_diacritic c = true ↔ Spec.isDiacritic c.
Proof.
  unfold is_diacritic, Spec.isDiacritic, between.
  rewrite !orb_true_iff, !andb_true_iff, !N.leb_le, N.eqb_eq. tauto.
Qed.

Lemma filter_bool_Prop {A} (f : A → bool) (P : A → Prop)
    `{∀ x, Decision (P x)} (l : list A) :
  (∀ x, f x = true ↔ P x) → List.filter f l = filter P l.
Proof.
  intros Hf. induction l as [|x l IH]; [done|]. cbn [List.filter].
  destruct (f x) eqn:E.
  - rewrite filter_cons_True by by apply Hf. by rewrite IH.
  - rewrite filter_cons_False; [done|].
    intros HP%Hf. by rewrite HP in E.
Qed.

Lemma extract_arabic_letters_spec t :
  extract_arabic_letters t = Spec.extractBaseLetters t.
Proof.
  unfold extract_arabic_letters, strip_diacritics, Spec.extractBaseLetters.
  rewrite (filter_bool_Prop (λ c, negb (is_diacritic c))
             (λ c, ¬ Spec.isDiacritic c) t).
  - apply filter_bool_Prop, is_arabic_letter_spec.
  - intros c. rewrite negb_true_iff, <- not_true_iff_false.
    by rewrite is_diacritic_spec.
Qed.

Lemma all_letters_spec b : all_letters b = Spec.block_base_letters b.
Proof.
  unfold all_letters, Spec.block_base_letters. f_equal.
  apply map_ext. intros u. apply extract_arabic_letters_spec.
Qed.

Lemma elem_of_block_base_letters b c :
  c ∈ Spec.block_base_letters b ↔
  ∃ u, u ∈ b ∧ c ∈ text_content u ∧ Spec.isArabicBaseLetter c.
Proof.
  unfold Spec.block_base_letters, Spec.extractBaseLetters.
  rewrite list_elem_of_In, in_concat. split.
  - intros (l & (u & <- & Hu)%in_map_iff & Hc).
    apply list_elem_of_In, list_elem_of_filter in Hc as [Hbase Hc].
    apply list_elem_of_filter in Hc as [_ Hc].
    exists u. by rewrite list_elem_of_In.
  - intros (u & Hu & Hc & Hbase). eexists. split.
    + apply in_map_iff. exists u. by rewrite <- list_elem_of_In.
    + apply list_elem_of_In, list_elem_of_filter. split; [done|].
      apply list_elem_of_filter. split; [|done].
      unfold Spec.isArabicBaseLetter, Spec.isDiacritic in *. lia.
Qed.

(** A block has no base letter exactly when no code point of its texts
    lies in the base-letter ranges. *)
Lemma block_base_letters_nil b :
  Spec.block_base_letters b = [] ↔
  ∀ u c, u ∈ b → c ∈ text_content u → ¬ Spec.isArabicBaseLetter c.
Proof.
  split.
  - intros Hnil u c Hu Hc Hbase.
    assert (c ∈ Spec.block_base_letters b) as Hin
      by (apply elem_of_block_base_letters; eauto).
    rewrite Hnil in Hin. by apply elem_of_nil in Hin.
  - intros Hno. apply elem_of_nil_inv. intros c Hc.
    apply elem_of_block_base_letters in Hc as (u & Hu & Hc & Hbase).
    by apply (Hno u c).
Qed.

(** C10. [_extract_target_letter] returns nothing for the section types
    [opening_sentence], [divider] and [alphabet_grid], and nothing when
    the block holds no base letter, that is when no code point of its
    texts lies in U+0621..U+064A or U+0671..U+06FF.  Otherwise it returns
    a letter of maximal frequency in the concatenation, in block order, of
    the base-letter sequences of the fragments (diacritics removed, then
    the code points of these two ranges), and among tied letters the one
    whose first occurrence in that concatenation comes earliest: on
    BEH / BEH TEH / TEH the answer is BEH, and on BEH / TEH / TEH / BEH,
    each carrying a FATHA, it is BEH as well, not the more frequent
    mark. *)
Theorem extract_target_letter_spec (b : block) (st : SectionType) :
  (st ∈ [opening_sentence; divider_section; alphabet_grid] →
   _extract_target_letter b st = None)
  ∧ (Spec.block_base_letters b = [] → _extract_target_letter b st = None)
  ∧ (Spec.block_base_letters b = [] ↔
     ∀ u c, u ∈ b → c ∈ text_content u → ¬ Spec.isArabicBaseLetter c)
  ∧ (st ∉ [opening_sentence; divider_section; alphabet_grid] →
     Spec.block_base_letters b ≠ [] →
     ∃ c, _extract_target_letter b st = Some c
       ∧ c ∈ Spec.block_base_letters b
       ∧ ∀ d,
           Spec.occurrences d (Spec.block_base_letters b)
             ≤ Spec.occurrences c (Spec.block_base_letters b)
           ∧ (d ≠ c →
              Spec.occurrences d (Spec.block_base_letters b)
                = Spec.occurrences c (Spec.block_base_letters b) →
              Spec.first_seen_before c d (Spec.block_base_letters b)))
  ∧ _extract_target_letter Pages.tie_block letter_drill = Some 0x0628%N
  ∧ _extract_target_letter Pages.marked_tie_block letter_drill
    = Some 0x0628%N.
Proof.
  rewrite <- all_letters_spec.
  split; [|split; [|split; [|split; [|split; reflexivity]]]].
  - rewrite !elem_of_cons, elem_of_nil. by intros [->|[->|[->|[]]]].
  - intros H. unfold _extract_target_letter. rewrite H. by destruct st.
  - rewrite all_letters_spec. apply block_base_letters_nil.
  - intros Hst Hne. unfold _extract_target_letter.
    destruct (all_letters b) as [|x l] eqn:E; [done|].
    destruct (most_common_1_spec (x :: l) Hne) as (c & n & Hmc & Hc).
    exists c. split; [|done]. rewrite Hmc.
    destruct st; try reflexivity; exfalso; apply Hst;
      rewrite !elem_of_cons; tauto.
Qed.

(** *** The verdict of [run_qa_checks] *)

Lemma check_diacritics_presence_name units :
  name (check_diacritics_presence units) = "diacritics_presence"%string.
Proof.
  unfold check_diacritics_presence.
  destruct (foldl diacritics_step _ units) as [[total marked] missing].
  destruct (total =? 0); reflexivity.
Qed.

Lemma check_duplicates_name units :
  name (check_duplicates units) = "no_duplicates"%string.
Proof.
  unfold check_duplicates.
  destruct (foldl duplicates_step _ units) as [seen duplicates]. reflexivity.
Qed.

Lemma qa_passed_unfold units :
  qa_passed (run_qa_checks units)
  = passed (check_unit_count units 1)
    && (passed (check_diacritics_presence units)
    && (passed (check_overlaps units)
    && (passed (check_duplicates units) && true))).
Proof.
  unfold run_qa_checks. cbn [qa_passed List.filter].
  rewrite check_diacritics_presence_name, check_duplicates_name.
  reflexivity.
Qed.

(** C4, refuted as stated: on a page holding one bare letter the verdict
    is [passed = false] although [unit_count], [no_overlaps] and
    [no_duplicates] all pass; the failing check is
    [diacritics_presence]. *)
Lemma diacritics_failure_blocks :
  ¬ (qa_passed (run_qa_checks Pages.bare_letter) = false →
     passed (check_unit_count Pages.bare_letter 1) = false
     ∨ passed (check_overlaps Pages.bare_letter) = false
     ∨ passed (check_duplicates Pages.bare_letter) = false).
Proof.
  intros H.
  destruct H as [H|[H|H]]; [vm_compute; reflexivity|..];
    vm_compute in H; discriminate.
Qed.

(** C4, amended. [run_qa_checks] returns [passed = false] exactly when at
    least one of [unit_count], [diacritics_presence], [no_overlaps] or
    [no_duplicates] fails; [hitbox_check] and [audio_coverage] are always
    reported with [passed = true]. *)
Theorem run_qa_checks_verdict units :
  (qa_passed (run_qa_checks units) = false ↔
     passed (check_unit_count units 1) = false
     ∨ passed (check_diacritics_presence units) = false
     ∨ passed (check_overlaps units) = false
     ∨ passed (check_duplicates units) = false)
  ∧ passed (check_empty_hitboxes units) = true
  ∧ passed (check_audio_coverage units) = true.
Proof.
  split; [|split; reflexivity].
  rewrite qa_passed_unfold.
  destruct (passed (check_unit_count units 1)),
    (passed (check_diacritics_presence units)),
    (passed (check_overlaps units)),
    (passed (check_duplicates units)); cbn; intuition congruence.
Qed.

(** *** The diacritics check *)

Lemma between_spec lo hi c : between lo hi c = true ↔ (lo ≤ c ≤ hi)%N.
Proof.
  unfold between. rewrite andb_true_iff, !N.leb_le. reflexivity.
Qed.

(** The classifier's predicate is the one of the specification. *)
Lemma has_diacritics_spec t :
  has_diacritics t = true ↔ Spec.hasDiacritics t.
Proof.
  unfold has_diacritics, Spec.hasDiacritics, is_diacritic.
  rewrite existsb_exists. split.
  - intros (c & Hin & Hc). exists c. rewrite list_elem_of_In.
    rewrite !orb_true_iff, !between_spec, N.eqb_eq in Hc. tauto.
  - intros (c & Hin & Hc). exists c. rewrite <- list_elem_of_In.
    rewrite !orb_true_iff, !between_spec, N.eqb_eq. tauto.
Qed.

(** The QA checker's predicate: membership in the twelve-entry table. *)
Lemma has_arabic_diacritics_spec t :
  has_arabic_diacritics t = true ↔
  ∃ c, c ∈ t ∧ ((0x064B ≤ c ≤ 0x0655) ∨ c = 0x0670)%N.
Proof.
  unfold has_arabic_diacritics. rewrite existsb_exists.
  split; intros (c & Hin & Hc); exists c.
  - rewrite list_elem_of_In. split; [done|].
    apply bool_decide_eq_true in Hc. unfold ARABIC_DIACRITICS in Hc.
    rewrite !elem_of_cons, elem_of_nil in Hc. lia.
  - rewrite <- list_elem_of_In. split; [done|].
    apply bool_decide_eq_true. unfold ARABIC_DIACRITICS.
    rewrite !elem_of_cons, elem_of_nil. lia.
Qed.

Lemma diacritics_fold units : ∀ total marked missing,
  ∃ missing',
    foldl diacritics_step (total, marked, missing) units
    = (total + length (List.filter (λ u, has_arabic (text_content u)) units),
       marked + length (List.filter (λ u, has_arabic_diacritics (text_content u))
                   (List.filter (λ u, has_arabic (text_content u)) units)),
       missing').
Proof.
  induction units as [|u units IH]; intros total marked missing; cbn.
  - exists missing. by rewrite !Nat.add_0_r.
  - destruct (has_arabic (text_content u)) eqn:Ha; cbn.
    + destruct (has_arabic_diacritics (text_content u)) eqn:Hd; cbn.
      * destruct (IH (S total) (S marked) missing) as [m' ->].
        exists m'. f_equal. f_equal; lia.
      * destruct (IH (S total) marked
                    (missing ++ [(sort_order u, take 50 (text_content u))]))
          as [m' ->].
        exists m'. f_equal. f_equal; lia.
    + apply IH.
Qed.

Lemma check_diacritics_presence_passed units :
  passed (check_diacritics_presence units) = true ↔
  Spec.diacritics_presence_passes has_arabic_diacritics units.
Proof.
  unfold check_diacritics_presence, Spec.diacritics_presence_passes.
  destruct (diacritics_fold units 0 0 []) as [m' ->]. cbn zeta.
  set (arabic := List.filter _ units).
  set (marked := List.filter _ arabic).
  rewrite !Nat.add_0_l.
  destruct (length arabic =? 0) eqn:E; cbn.
  - apply Nat.eqb_eq in E. tauto.
  - apply Nat.eqb_neq in E. unfold Qgeb. rewrite Qle_bool_iff. tauto.
Qed.

(** C5, refuted as stated: for the single fragment BEH + U+0610 the
    classifier's predicate holds, so the fraction of the specification is
    1/1 and the check would pass; the check of the code fails. *)
Lemma diacritics_presence_ignores_U0610 :
  ¬ (passed (check_diacritics_presence Pages.honorific_mark) = true ↔
     Spec.diacritics_presence_passes has_diacritics Pages.honorific_mark).
Proof.
  intros [_ H]. enough (false = true) by discriminate.
  change false with (passed (check_diacritics_presence Pages.honorific_mark)).
  apply H. right. vm_compute. discriminate.
Qed.

(** C5, amended. The [diacritics_presence] check counts a fragment as
    having diacritics exactly when its text contains one of the twelve code
    points U+064B..U+0655, U+0670 of the image analyzer's table (a subset of
    the classifier's ranges), and it passes iff the fraction of
    Arabic-containing fragments with such a code point is at least 0.8, or
    there is no Arabic-containing fragment. *)
Theorem check_diacritics_presence_spec units :
  (∀ t, has_arabic_diacritics t = true ↔
        ∃ c, c ∈ t ∧ ((0x064B ≤ c ≤ 0x0655) ∨ c = 0x0670)%N)
  ∧ (∀ t, has_arabic_diacritics t = true → has_diacritics t = true)
  ∧ (passed (check_diacritics_presence units) = true ↔
     Spec.diacritics_presence_passes has_arabic_diacritics units).
Proof.
  split; [apply has_arabic_diacritics_spec|].
  split; [|apply check_diacritics_presence_passed].
  intros t. rewrite has_arabic_diacritics_spec, has_diacritics_spec.
  intros (c & Hin & Hc). exists c. split; [done|]. lia.
Qed.

(** *** The duplicate check *)

Lemma trimmed_texts_cons u units :
  trimmed_texts (u :: units)
  = match strip (text_content u) with
    | [] => trimmed_texts units
    | t => t :: trimmed_texts units
    end.
Proof.
  unfold trimmed_texts. cbn [map].
  destruct (strip (text_content u)) as [|c t] eqn:E.
  - by rewrite filter_cons_False by (intros H; by apply H).
  - by rewrite filter_cons_True.
Qed.

Lemma duplicates_step_eq seen duplicates u :
  duplicates_step (seen, duplicates) u
  = match strip (text_content u) with
    | [] => (seen, duplicates)
    | c :: l =>
        match seen !! (c :: l) with
        | Some first_order =>
            (seen,
             duplicates ++ [(take 50 (c :: l), first_order, sort_order u)])
        | None => (<[c :: l := sort_order u]> seen, duplicates)
        end
    end.
Proof. unfold duplicates_step. by destruct (strip (text_content u)). Qed.

Lemma duplicates_fold units : ∀ seen duplicates,
  (foldl duplicates_step (seen, duplicates) units).2 = [] ↔
  duplicates = [] ∧ NoDup (trimmed_texts units)
  ∧ ∀ t, t ∈ trimmed_texts units → seen !! t = None.
Proof.
  induction units as [|u units IH]; intros seen duplicates.
  - cbn. split; [intros ->|tauto].
    split; [done|]. split; [constructor|]. intros t Ht. inversion Ht.
  - cbn [foldl]. rewrite trimmed_texts_cons, duplicates_step_eq.
    destruct (strip (text_content u)) as [|c t] eqn:E; [apply IH|].
    destruct (seen !! (c :: t)) as [first|] eqn:Hs; rewrite IH; clear IH.
    + split.
      * intros [Hd _]. by destruct duplicates.
      * intros (_ & _ & Hnone).
        rewrite Hnone in Hs; [done|apply list_elem_of_here].
    + rewrite NoDup_cons. split.
      * intros (-> & Hnd & Hnone). split; [done|].
        assert (c :: t ∉ trimmed_texts units) as Hfresh.
        { intros Hin. specialize (Hnone _ Hin).
          by rewrite lookup_insert_eq in Hnone. }
        split; [done|]. intros t' [->|Hin]%elem_of_cons; [done|].
        specialize (Hnone _ Hin).
        rewrite lookup_insert_ne in Hnone; [done|]. by intros <-.
      * intros (-> & [Hfresh Hnd] & Hnone). split; [done|]. split; [done|].
        intros t' Hin. rewrite lookup_insert_ne by (by intros <-).
        apply Hnone. by apply list_elem_of_further.
Qed.

Lemma elem_of_trimmed_texts t units :
  t ∈ trimmed_texts units ↔
  t ≠ [] ∧ ∃ j v, units !! j = Some v ∧ strip (text_content v) = t.
Proof.
  unfold trimmed_texts. rewrite list_elem_of_filter, list_elem_of_fmap.
  split.
  - intros (Hne & v & -> & [j Hj]%list_elem_of_lookup). eauto.
  - intros (Hne & j & v & Hj & <-). split; [done|].
    exists v. split; [done|]. eapply list_elem_of_lookup_2, Hj.
Qed.

Lemma NoDup_trimmed_texts units :
  NoDup (trimmed_texts units) ↔ ¬ has_repeated_text units.
Proof.
  induction units as [|u units IH].
  - split; [|constructor]. intros _ (i & j & u & v & _ & Hi & _). done.
  - rewrite trimmed_texts_cons.
    assert (has_repeated_text (u :: units) ↔
            (strip (text_content u) ≠ []
             ∧ strip (text_content u) ∈ trimmed_texts units)
            ∨ has_repeated_text units) as ->.
    { rewrite elem_of_trimmed_texts. split.
      - intros (i & j & a & b & Hlt & Hi & Hj & Heq & Hne).
        destruct j as [|j]; [lia|]. destruct i as [|i]; cbn in Hi, Hj.
        + left. injection Hi as <-. eauto 8.
        + right. exists i, j, a, b. repeat split; [lia|done..].
      - intros [(Hne & _ & j & v & Hj & Heq)
               |(i & j & a & b & Hlt & Hi & Hj & Heq & Hne)].
        + exists 0, (S j), u, v. repeat split; [lia|done..].
        + exists (S i), (S j), a, b. repeat split; [lia|done..]. }
    destruct (strip (text_content u)) as [|c t] eqn:E.
    + rewrite IH. tauto.
    + rewrite NoDup_cons, IH. split.
      * intros [Hfresh Hno] [[_ Hin]|Hrep]; tauto.
      * intros Hno. split; [|tauto]. intros Hin. apply Hno. by left.
Qed.

Lemma check_duplicates_passed units :
  passed (check_duplicates units) = true ↔ ¬ has_repeated_text units.
Proof.
  rewrite <- NoDup_trimmed_texts. unfold check_duplicates.
  pose proof (duplicates_fold units ∅ []) as H.
  destruct (foldl duplicates_step (∅, []) units) as [seen duplicates].
  cbn in *. rewrite Nat.eqb_eq, length_zero_iff_nil, H.
  split; [tauto|]. intros Hnd. split; [done|]. split; [done|].
  intros t _. apply lookup_empty.
Qed.

(** C6, refuted as stated: two fragments whose texts both trim to the
    empty string share identical trimmed text, yet [no_duplicates]
    passes. *)
Lemma blank_texts_are_not_duplicates :
  ¬ (passed (check_duplicates Pages.two_blanks) = true ↔
     Spec.no_two_share_trimmed_text Pages.two_blanks).
Proof.
  intros [H _].
  refine (H _ 0 1 _ _ _ eq_refl eq_refl _); [reflexivity|lia|reflexivity].
Qed.

(** C6, amended. The [no_duplicates] check passes if and only if no two
    fragments have identical, non-empty [text_content] after trimming
    surrounding white space; fragments that trim to the empty string are
    skipped. *)
Theorem check_duplicates_spec units :
  passed (check_duplicates units) = true ↔
  ∀ i j u v, i < j → units !! i = Some u → units !! j = Some v →
    strip (text_content u) = strip (text_content v) →
    strip (text_content u) = [].
Proof.
  rewrite check_duplicates_passed. unfold has_repeated_text. split.
  - intros Hno i j u v Hlt Hi Hj Heq.
    destruct (decide (strip (text_content u) = [])) as [|Hne]; [done|].
    exfalso. apply Hno. eauto 10.
  - intros H (i & j & u & v & Hlt & Hi & Hj & Heq & Hne). eauto.
Qed.

(** *** The overlap check in exact arithmetic *)

(** The extent of the intersection along one axis vanishes as soon as one
    of the two sides is not positive. *)
Lemma extent_nonpos a1 s1 a2 s2 :
  (s1 <= 0 ∨ s2 <= 0)%Q →
  Qmaxb 0 (Qminb (a1 + s1) (a2 + s2) - Qmaxb a1 a2) = 0%Q.
Proof.
  intros H. apply Qmaxb_0_nonpos.
  pose proof (Qminb_le_l (a1 + s1) (a2 + s2)).
  pose proof (Qminb_le_r (a1 + s1) (a2 + s2)).
  pose proof (Qmaxb_ge_l a1 a2). pose proof (Qmaxb_ge_r a1 a2).
  destruct H; lra.
Qed.

Lemma nonpos_area_side w h : (w * h <= 0)%Q → (w <= 0 ∨ h <= 0)%Q.
Proof.
  intros H. destruct (Qlt_le_dec 0 w) as [Hw|]; [|by left].
  destruct (Qlt_le_dec 0 h) as [Hh|]; [|by right].
  exfalso. apply (Qlt_not_le _ _ (Qmult_lt_0_compat _ _ Hw Hh)), H.
Qed.

(** A degenerate smaller area leaves no intersection. *)
Lemma degenerate_area_no_intersection u1 u2 :
  (Spec.smaller_area u1 u2 <= 0)%Q → (Spec.intersection_area u1 u2 == 0)%Q.
Proof.
  unfold Spec.smaller_area, Spec.intersection_area. intros H.
  assert ((bbox_w u1 <= 0 ∨ bbox_w u2 <= 0) ∨ (bbox_h u1 <= 0 ∨ bbox_h u2 <= 0))%Q
    as [Hw|Hh].
  { unfold Qminb in H.
    destruct (Qltb _ _); apply nonpos_area_side in H; tauto. }
  - rewrite (extent_nonpos _ _ _ _ Hw). apply Qmult_0_l.
  - rewrite (extent_nonpos _ _ _ _ Hh). apply Qmult_0_r.
Qed.

Lemma overlap_of_flagged u1 u2 :
  is_Some (overlap_of u1 u2) ↔
  ¬ (bbox_w u1 == 0)%Q ∧ ¬ (bbox_w u2 == 0)%Q
  ∧ (3 # 10 < Spec.overlap_ratio u1 u2)%Q.
Proof.
  unfold overlap_of. cbn zeta beta iota.
  fold (Spec.intersection_area u1 u2). fold (Spec.smaller_area u1 u2).
  fold (Spec.overlap_ratio u1 u2).
  destruct (Qeq_bool (bbox_w u1) 0) eqn:E1.
  { apply Qeq_bool_iff in E1. cbn [orb].
    split; [by intros [? ?]|]. intros (H & _). by destruct H. }
  destruct (Qeq_bool (bbox_w u2) 0) eqn:E2.
  { apply Qeq_bool_iff in E2. cbn [orb].
    split; [by intros [? ?]|]. intros (_ & H & _). by destruct H. }
  apply Qeq_bool_neq in E1, E2. cbn [orb].
  destruct (Qgtb (Spec.smaller_area u1 u2) 0) eqn:Em.
  - fold (Spec.overlap_ratio u1 u2).
    destruct (Qgtb (Spec.overlap_ratio u1 u2) (3 # 10)) eqn:Er.
    + apply Qltb_lt in Er. split; [|intros _; by eexists].
      intros _. split; [done|]. split; done.
    + apply Qltb_ge in Er. split; [by intros [? ?]|].
      intros (_ & _ & Hlt). exfalso. by apply (Qlt_not_le _ _ Hlt).
  - apply Qltb_ge in Em.
    pose proof (degenerate_area_no_intersection u1 u2 Em) as Hz.
    assert (Spec.overlap_ratio u1 u2 == 0)%Q as Hr.
    { unfold Spec.overlap_ratio. rewrite Hz. apply Qmult_0_l. }
    destruct (Qgtb (Spec.intersection_area u1 u2 / 1) (3 # 10)) eqn:Er.
    + apply Qltb_lt in Er. rewrite Hz in Er. discriminate Er.
    + split; [by intros [? ?]|]. rewrite Hr. intros (_ & _ & Hlt).
      discriminate Hlt.
Qed.

(** *** The overlap check in double precision *)

Section DoubleOverlaps.
Import PrimFloat.
Local Open Scope float_scope.
#[local] Set Warnings "-inexact-float".

Lemma double_overlap_of_eq u1 u2 :
  Double.overlap_of u1 u2
  = if (Double.bbox_w u1 =? 0) || (Double.bbox_w u2 =? 0) then None
    else if 0.3 <? Spec.overlap_ratio_double u1 u2
         then Some (Spec.overlap_ratio_double u1 u2)
         else None.
Proof. reflexivity. Qed.

Lemma double_overlap_of_flagged u1 u2 :
  is_Some (Double.overlap_of u1 u2) ↔
  (Double.bbox_w u1 =? 0) = false ∧ (Double.bbox_w u2 =? 0) = false
  ∧ (0.3 <? Spec.overlap_ratio_double u1 u2) = true.
Proof.
  rewrite double_overlap_of_eq.
  destruct (Double.bbox_w u1 =? 0), (Double.bbox_w u2 =? 0); cbn [orb];
    try (split; [by intros [? ?]|by intros (? & ? & ?)]).
  destruct (0.3 <? Spec.overlap_ratio_double u1 u2).
  - split; [done|]. intros _. by eexists.
  - split; [by intros [? ?]|by intros (? & ? & ?)].
Qed.

Lemma double_overlap_of_ratio u1 u2 r :
  Double.overlap_of u1 u2 = Some r → r = Spec.overlap_ratio_double u1 u2.
Proof.
  rewrite double_overlap_of_eq.
  destruct (_ || _); [done|].
  destruct (0.3 <? _); [|done]. by intros [= <-].
Qed.

Lemma double_find_overlaps_elem units a b r :
  (a, b, r) ∈ Double.find_overlaps units ↔
  ∃ i j u1 u2, (i < j)%nat ∧ units !! i = Some u1 ∧ units !! j = Some u2
    ∧ is_Some (Double.overlap_of u1 u2)
    ∧ a = Double.sort_order u1 ∧ b = Double.sort_order u2
    ∧ r = Double.round2 (Spec.overlap_ratio_double u1 u2).
Proof.
  unfold Double.find_overlaps.
  rewrite list_elem_of_In, in_concat. split.
  - intros (l & Hl & Hin). apply list_elem_of_In in Hl, Hin.
    apply list_elem_of_lookup in Hl as [i Hi].
    rewrite list_lookup_imap in Hi.
    destruct (units !! i) as [u1|] eqn:Hu1; [|done]. injection Hi as <-.
    apply list_elem_of_In, in_concat in Hin as (l & Hl & Hin).
    apply list_elem_of_In in Hl, Hin.
    apply list_elem_of_lookup in Hl as [j Hj].
    rewrite list_lookup_imap in Hj.
    destruct (units !! j) as [u2|] eqn:Hu2; [|done]. injection Hj as <-.
    destruct (j <=? i)%nat eqn:E; [by apply elem_of_nil in Hin|].
    apply Nat.leb_gt in E.
    destruct (Double.overlap_of u1 u2) as [r'|] eqn:Er;
      [|by apply elem_of_nil in Hin].
    apply list_elem_of_singleton in Hin. injection Hin as -> -> ->.
    exists i, j, u1, u2. rewrite Er.
    by rewrite (double_overlap_of_ratio _ _ _ Er).
  - intros (i & j & u1 & u2 & Hlt & Hu1 & Hu2 & [r' Er] & -> & -> & ->).
    eexists. split.
    + apply list_elem_of_In, list_elem_of_lookup. exists i.
      rewrite list_lookup_imap, Hu1. reflexivity.
    + apply in_concat. eexists. split.
      * apply list_elem_of_In, list_elem_of_lookup. exists j.
        rewrite list_lookup_imap, Hu2. reflexivity.
      * cbn beta. destruct (Nat.leb_spec j i) as [?|_]; [lia|].
        rewrite Er, (double_overlap_of_ratio _ _ _ Er). by left.
Qed.

Lemma double_check_overlaps_passed units :
  Double.passed (Double.check_overlaps units) = true ↔
  ∀ i j u1 u2, (i < j)%nat → units !! i = Some u1 → units !! j = Some u2 →
    ¬ is_Some (Double.overlap_of u1 u2).
Proof.
  unfold Double.check_overlaps. cbn [Double.passed].
  rewrite Nat.eqb_eq, length_zero_iff_nil. split.
  - intros Hnil i j u1 u2 Hlt Hu1 Hu2 Hflag.
    assert ((Double.sort_order u1, Double.sort_order u2,
             Double.round2 (Spec.overlap_ratio_double u1 u2))
            ∈ Double.find_overlaps units) as Hin.
    { apply double_find_overlaps_elem. by exists i, j, u1, u2. }
    rewrite Hnil in Hin. by apply elem_of_nil in Hin.
  - intros Hnone.
    destruct (Double.find_overlaps units) as [|[[a b] r] l] eqn:E; [done|].
    assert ((a, b, r) ∈ Double.find_overlaps units) as Hin
      by (rewrite E; apply list_elem_of_here).
    apply double_find_overlaps_elem in Hin
      as (i & j & u1 & u2 & Hlt & Hu1 & Hu2 & Hflag & _).
    by destruct (Hnone i j u1 u2 Hlt Hu1 Hu2).
Qed.

(** [round(x, 2)] on a few floats: the exact binary value decides, so
    2.675 (stored slightly below) goes down and 1/40 (stored slightly
    above 0.025) goes up; exact ties go to the even neighbour. *)
Lemma double_round2_examples :
  Double.round2 2.675 = 2.67
  ∧ Double.round2 (1 / 40) = 0.03
  ∧ Double.round2 0.125 = 0.12
  ∧ Double.round2 0.375 = 0.38
  ∧ Double.round2 (3 * 0.1 / (10 * 0.1)) = 0.3
  ∧ Double.round2 (-0.001) = neg_zero
  ∧ Double.round2 infinity = infinity.
Proof. repeat split; vm_compute; reflexivity. Qed.

(** The claim read in exact arithmetic fails on floats: the strips
    (0, 0, 13, 0.1) and (10, 0, 10, 0.1) share exactly 3/10 of the area
    of the smaller one, which does not exceed 0.3, and the check flags
    them, because the rounded product 3 * 0.1 is above the float 0.3. *)
Lemma exact_ratio_at_threshold_is_flagged :
  ∃ q1 q2,
    exact_unit Pages.strip_13 = Some q1
    ∧ exact_unit Pages.strip_10 = Some q2
    ∧ (Spec.overlap_ratio q1 q2 == 3 # 10)%Q
    ∧ ¬ (3 # 10 < Spec.overlap_ratio q1 q2)%Q
    ∧ overlap_of q1 q2 = None
    ∧ is_Some (Double.overlap_of Pages.strip_13 Pages.strip_10)
    ∧ Double.passed (Double.check_overlaps [Pages.strip_13; Pages.strip_10])
      = false.
Proof.
  eexists _, _. split; [vm_compute; reflexivity|].
  split; [vm_compute; reflexivity|].
  split; [by vm_compute|]. split; [by vm_compute|].
  split; [by vm_compute|]. split; [vm_compute; by eexists|].
  by vm_compute.
Qed.

(** C8. [no_overlaps] takes every pair of fragments once, the earlier
    one first, skips it when one of the two widths is zero, and flags it
    exactly when the ratio it computes in double precision (the
    intersection area over the smaller of the two areas, over 1 when that
    area is not positive, every operation rounded) exceeds the float 0.3;
    every flagged pair is recorded with the [sort_order] of its two
    fragments and the ratio rounded to two decimals, and the check passes
    iff no pair is flagged.  The boxes (0,0,10,10) and (5,5,10,10) have
    ratio 0.25 and are not flagged; with the second box shrunk to width
    and height 6 the ratio is the float nearest 25/36, the pair is
    flagged and reported with ratio 0.69. *)
Theorem check_overlaps_double_spec :
  (∀ u1 u2,
     is_Some (Double.overlap_of u1 u2) ↔
     (Double.bbox_w u1 =? 0) = false ∧ (Double.bbox_w u2 =? 0) = false
     ∧ (0.3 <? Spec.overlap_ratio_double u1 u2) = true)
  ∧ (∀ units a b r,
       (a, b, r) ∈ Double.find_overlaps units ↔
       ∃ i j u1 u2,
         (i < j)%nat ∧ units !! i = Some u1 ∧ units !! j = Some u2
         ∧ is_Some (Double.overlap_of u1 u2)
         ∧ a = Double.sort_order u1 ∧ b = Double.sort_order u2
         ∧ r = Double.round2 (Spec.overlap_ratio_double u1 u2))
  ∧ (∀ units,
       Double.passed (Double.check_overlaps units) = true ↔
       ∀ i j u1 u2,
         (i < j)%nat → units !! i = Some u1 → units !! j = Some u2 →
         ¬ is_Some (Double.overlap_of u1 u2))
  ∧ Spec.overlap_ratio_double Pages.box_a_double Pages.box_b_double = 0.25
  ∧ Double.overlap_of Pages.box_a_double Pages.box_b_double = None
  ∧ Double.passed
      (Double.check_overlaps [Pages.box_a_double; Pages.box_b_double])
    = true
  ∧ Spec.overlap_ratio_double Pages.box_a_double Pages.box_c_double
    = 25 / 36
  ∧ is_Some (Double.overlap_of Pages.box_a_double Pages.box_c_double)
  ∧ Double.check_overlaps [Pages.box_a_double; Pages.box_c_double]
    = {| Double.name := "no_overlaps"; Double.passed := false;
         Double.overlaps := [(0%Z, 1%Z, 0.69)] |}.
Proof.
  split; [apply double_overlap_of_flagged|].
  split; [apply double_find_overlaps_elem|].
  split; [apply double_check_overlaps_passed|].
  repeat split; try (vm_compute; reflexivity).
  vm_compute. by eexists.
Qed.

End DoubleOverlaps.

(** ** Further properties of the sectioning engine *)

(** *** [sorted] returns a sorted list *)

Section SortedBy.
Context {A K : Type} (ltb : K → K → bool) (key : A → K) (le : K → K → Prop).
Context (le_trans : ∀ x y z, le x y → le y z → le x z).
Context (ltb_le : ∀ x y, ltb x y = true → le x y).
Context (ltb_ge : ∀ x y, ltb x y = false → le y x).

Lemma insert_by_sorted x l :
  StronglySorted (λ a b, le (key a) (key b)) l →
  StronglySorted (λ a b, le (key a) (key b)) (insert_by ltb key x l).
Proof.
  induction 1 as [|y l Hl IH Hy]; cbn; [repeat constructor|].
  destruct (ltb (key y) (key x)) eqn:E.
  - constructor; [done|]. rewrite insert_by_perm.
    constructor; [by apply ltb_le|done].
  - apply ltb_ge in E. constructor; [by constructor|].
    constructor; [done|]. eapply Forall_impl; [exact Hy|].
    intros z Hz. by eapply le_trans.
Qed.

Lemma sorted_by_sorted l :
  StronglySorted (λ a b, le (key a) (key b)) (sorted_by ltb key l).
Proof.
  induction l as [|x l IH]; cbn; [constructor|]. by apply insert_by_sorted.
Qed.
End SortedBy.

Lemma sorted_by_bbox_y units :
  StronglySorted (λ u v, (bbox_y u <= bbox_y v)%Q)
    (sorted_by Qltb bbox_y units).
Proof.
  apply (sorted_by_sorted Qltb bbox_y Qle).
  - intros x y z. apply Qle_trans.
  - intros x y H. apply Qltb_lt in H. by apply Qlt_le_weak.
  - intros x y H. by apply Qltb_ge in H.
Qed.

Lemma sorted_by_sort_order (b : block) :
  StronglySorted (λ u v, (sort_order u ≤ sort_order v)%Z)
    (sorted_by Z.ltb sort_order b).
Proof.
  apply (sorted_by_sorted Z.ltb sort_order Z.le); intros x y; [lia|..];
    rewrite ?Z.ltb_lt, ?Z.ltb_ge; lia.
Qed.

(** *** [round(x, 2)] is monotone *)

Lemma round_half_even_mono x y :
  (x <= y)%Q → (round_half_even x ≤ round_half_even y)%Z.
Proof.
  intros H. pose proof (Qfloor_resp_le _ _ H) as Hf.
  unfold round_half_even.
  destruct (Z.eq_dec (Qfloor x) (Qfloor y)) as [E|NE].
  - rewrite <- E.
    destruct (Qltb (x - inject_Z (Qfloor x)) (1 # 2)) eqn:E1;
      [destruct (Qltb (y - inject_Z (Qfloor x)) (1 # 2));
       [|destruct (Qltb (1 # 2) (y - inject_Z (Qfloor x)));
         [|destruct (Z.even (Qfloor x))]]; lia|].
    apply Qltb_ge in E1.
    destruct (Qltb (y - inject_Z (Qfloor x)) (1 # 2)) eqn:E2.
    { apply Qltb_lt in E2. exfalso. lra. }
    destruct (Qltb (1 # 2) (x - inject_Z (Qfloor x))) eqn:E3.
    { apply Qltb_lt in E3.
      destruct (Qltb (1 # 2) (y - inject_Z (Qfloor x))) eqn:E4; [lia|].
      apply Qltb_ge in E4. exfalso. lra. }
    destruct (Qltb (1 # 2) (y - inject_Z (Qfloor x)));
      destruct (Z.even (Qfloor x)); lia.
  - destruct (Qltb (x - inject_Z (Qfloor x)) (1 # 2)),
      (Qltb (1 # 2) (x - inject_Z (Qfloor x))), (Z.even (Qfloor x)),
      (Qltb (y - inject_Z (Qfloor y)) (1 # 2)),
      (Qltb (1 # 2) (y - inject_Z (Qfloor y))), (Z.even (Qfloor y)); lia.
Qed.

Lemma round2_mono x y : (x <= y)%Q → (round2 x <= round2 y)%Q.
Proof.
  intros H. unfold round2. rewrite !Qred_correct.
  apply Qmult_le_compat_r; [|done].
  rewrite <- Zle_Qle. apply round_half_even_mono. lra.
Qed.

(** *** [min] and [max] *)

Lemma foldl_min_spec l : ∀ x,
  let m := foldl (λ m y, if Qltb y m then y else m) x l in
  m ∈ x :: l ∧ ∀ y, y ∈ x :: l → (m <= y)%Q.
Proof.
  induction l as [|z l IH]; intros x; cbn.
  - split; [apply list_elem_of_here|].
    intros y ->%list_elem_of_singleton. apply Qle_refl.
  - destruct (Qltb z x) eqn:E; destruct (IH (if Qltb z x then z else x))
      as [Hin Hle]; rewrite E in Hin, Hle.
    + apply Qltb_lt in E. split.
      * by apply list_elem_of_further.
      * intros y [->|Hy]%elem_of_cons; [|by apply Hle].
        eapply Qle_trans; [apply Hle, list_elem_of_here|by apply Qlt_le_weak].
    + apply Qltb_ge in E. split.
      * apply elem_of_cons in Hin as [->|Hin];
          [apply list_elem_of_here|by do 2 apply list_elem_of_further].
      * intros y [->|[->|Hy]%elem_of_cons]%elem_of_cons.
        -- apply Hle, list_elem_of_here.
        -- eapply Qle_trans; [apply Hle, list_elem_of_here|done].
        -- by apply Hle, list_elem_of_further.
Qed.

Lemma foldl_max_spec l : ∀ x,
  let m := foldl (λ m y, if Qltb m y then y else m) x l in
  m ∈ x :: l ∧ ∀ y, y ∈ x :: l → (y <= m)%Q.
Proof.
  induction l as [|z l IH]; intros x; cbn.
  - split; [apply list_elem_of_here|].
    intros y ->%list_elem_of_singleton. apply Qle_refl.
  - destruct (Qltb x z) eqn:E; destruct (IH (if Qltb x z then z else x))
      as [Hin Hle]; rewrite E in Hin, Hle.
    + apply Qltb_lt in E. split.
      * by apply list_elem_of_further.
      * intros y [->|Hy]%elem_of_cons; [|by apply Hle].
        eapply Qle_trans; [by apply Qlt_le_weak|apply Hle, list_elem_of_here].
    + apply Qltb_ge in E. split.
      * apply elem_of_cons in Hin as [->|Hin];
          [apply list_elem_of_here|by do 2 apply list_elem_of_further].
      * intros y [->|[->|Hy]%elem_of_cons]%elem_of_cons.
        -- apply Hle, list_elem_of_here.
        -- eapply Qle_trans; [done|apply Hle, list_elem_of_here].
        -- by apply Hle, list_elem_of_further.
Qed.

Lemma py_min_Ok l m :
  py_min l = Ok m → m ∈ l ∧ ∀ y, y ∈ l → (m <= y)%Q.
Proof.
  destruct l as [|x l]; [done|]. intros [= <-]. apply foldl_min_spec.
Qed.

Lemma py_max_Ok l m :
  py_max l = Ok m → m ∈ l ∧ ∀ y, y ∈ l → (y <= m)%Q.
Proof.
  destruct l as [|x l]; [done|]. intros [= <-]. apply foldl_max_spec.
Qed.

(** *** The sections returned, block by block *)

Lemma section_loop_lookup page total_blocks blocks :
  ∀ i sections seen sections' seen',
    section_loop page total_blocks i blocks sections seen
      = Ok (sections', seen') →
    ∃ new, sections' = sections ++ new ∧ length new = length blocks
      ∧ ∀ k b, blocks !! k = Some b →
          ∃ s seen1 seen2,
            new !! k = Some s
            ∧ section_of_block page (i + k) total_blocks b seen1
              = Ok (s, seen2).
Proof.
  induction blocks as [|b blocks IH]; intros i sections seen sections' seen'.
  - cbn. intros [= <- <-]. exists []. rewrite app_nil_r.
    split; [done|]. split; [done|]. intros k b Hk. done.
  - cbn [section_loop].
    destruct (section_of_block page i total_blocks b seen) as [[s seen1]|e]
      eqn:Eb; [|done].
    cbn. intros Hloop.
    destruct (IH _ _ _ _ _ Hloop) as (new & -> & Hlen & Hnew).
    exists (s :: new). split; [by rewrite <- app_assoc|].
    split; [cbn; by rewrite Hlen|].
    intros [|k] b' Hk; cbn in Hk.
    + injection Hk as <-. exists s, seen, seen1. rewrite Nat.add_0_r. done.
    + destruct (Hnew k b' Hk) as (s' & seen2 & seen3 & Hs' & Hb').
      exists s', seen2, seen3. split; [done|].
      by replace (i + S k) with (S i + k) by lia.
Qed.

Lemma auto_section_page_lookup page units gap_threshold sections :
  auto_section_page page units gap_threshold = Ok sections →
  length sections = length (_segment_by_y_axis units gap_threshold)
  ∧ ∀ k b, _segment_by_y_axis units gap_threshold !! k = Some b →
      ∃ s seen1 seen2,
        sections !! k = Some s
        ∧ section_of_block page k
            (length (_segment_by_y_axis units gap_threshold)) b seen1
          = Ok (s, seen2).
Proof.
  unfold auto_section_page. destruct units as [|u units].
  { intros [= <-]. split; [done|]. intros k b Hk. done. }
  set (blocks := _segment_by_y_axis (u :: units) gap_threshold).
  destruct (section_loop page (length blocks) 0 blocks [] ∅)
    as [[secs seen]|e] eqn:El; [|done].
  cbn. destruct (bool_decide _); [|done]. intros [= <-].
  apply section_loop_lookup in El as (new & -> & Hlen & Hnew).
  split; [done|]. intros k b Hk. by apply Hnew.
Qed.

Lemma auto_section_page_block_of page units gap_threshold sections k s :
  auto_section_page page units gap_threshold = Ok sections →
  sections !! k = Some s →
  ∃ b seen1 seen2,
    _segment_by_y_axis units gap_threshold !! k = Some b
    ∧ section_of_block page k
        (length (_segment_by_y_axis units gap_threshold)) b seen1
      = Ok (s, seen2).
Proof.
  intros [Hlen Hblocks]%auto_section_page_lookup Hs.
  destruct (_segment_by_y_axis units gap_threshold !! k) as [b|] eqn:Hb.
  - destruct (Hblocks k b Hb) as (s' & seen1 & seen2 & Hs' & Hsec).
    rewrite Hs in Hs'. injection Hs' as <-. eauto.
  - apply lookup_ge_None in Hb. apply lookup_lt_Some in Hs. lia.
Qed.

Lemma concat_sorted_lookup {A} (R : A → A → Prop) (ls : list (list A)) :
  ∀ i j a b x y,
    StronglySorted R (concat ls) → i < j →
    ls !! i = Some a → ls !! j = Some b → x ∈ a → y ∈ b → R x y.
Proof.
  induction ls as [|c ls IH]; intros i j a b x y Hs Hlt Hi Hj Hx Hy; [done|].
  cbn in Hs. destruct j as [|j]; [lia|]. cbn in Hj. destruct i as [|i].
  - injection Hi as <-. eapply StronglySorted_app_1_elem_of; [done..|].
    apply list_elem_of_In, in_concat. exists b.
    rewrite <- !list_elem_of_In. split; [|done].
    by eapply list_elem_of_lookup_2.
  - cbn in Hi. apply StronglySorted_app_1_r in Hs.
    eapply (IH i j); [done|lia|done..].
Qed.

(** X1. The blocks of the segmenter, read in order, hold every fragment of
    the page exactly once and in non-decreasing [bbox_y]: segmentation only
    cuts the y-sorted page into consecutive runs. *)
Theorem segmentation_cuts_sorted_page (units : list TextUnit) (gap_threshold : Q) :
  concat (_segment_by_y_axis units gap_threshold) ≡ₚ units
  ∧ StronglySorted (λ u v, (bbox_y u <= bbox_y v)%Q)
      (concat (_segment_by_y_axis units gap_threshold)).
Proof.
  split; [apply segment_perm|]. rewrite segment_concat.
  apply sorted_by_bbox_y.
Qed.

(** X2. Whenever [auto_section_page] returns, there is one section per
    block, in block order; section number [k] carries the page id,
    [sort_order = k], [is_manual = False], the type the classifier gives
    block [k], and a non-empty [unit_ids] list. *)
Theorem sections_follow_blocks page units gap_threshold sections :
  auto_section_page page units gap_threshold = Ok sections →
  length sections = length (_segment_by_y_axis units gap_threshold)
  ∧ ∀ k s, sections !! k = Some s →
      page_id s = page ∧ section_sort_order s = k ∧ is_manual s = false
      ∧ unit_ids s ≠ []
      ∧ ∃ b, _segment_by_y_axis units gap_threshold !! k = Some b
          ∧ section_type s
            = _classify_block b k
                (length (_segment_by_y_axis units gap_threshold))
          ∧ target_letter s = _extract_target_letter b (section_type s)
          ∧ (title_ar s, title_uz s)
            = _generate_titles (section_type s) (target_letter s).
Proof.
  intros Hok. split; [by apply auto_section_page_lookup in Hok as [? _]|].
  intros k s Hs.
  destruct (auto_section_page_block_of _ _ _ _ _ _ Hok Hs)
    as (b & seen1 & seen2 & Hb & Hsec).
  apply section_of_block_Ok in Hsec
    as (Hne & _ & y1 & y2 & _ & _ & ->). cbn.
  repeat split; try done.
  - unfold block_unit_ids. intros Hnil. apply Hne.
    apply fmap_nil_inv in Hnil.
    apply Permutation_nil_r. rewrite <- Hnil.
    by rewrite sorted_by_perm.
  - exists b. repeat split; try done. by destruct (_generate_titles _ _).
Qed.

Lemma sections_follow_blocks_witness :
  ∃ s t,
    auto_section_page 7 Pages.rule_on_top (1 # 2) = Ok [s; t]
    ∧ length [s; t] = length (_segment_by_y_axis Pages.rule_on_top (1 # 2)).
Proof.
  eexists _, _. split; [vm_compute; reflexivity|].
  refine (proj1 (sections_follow_blocks 7 Pages.rule_on_top (1 # 2) _ _)).
  vm_compute; reflexivity.
Defined.

Lemma section_of_block_y_start page i total_blocks b seen s seen' :
  section_of_block page i total_blocks b seen = Ok (s, seen') →
  ∃ y_start y_end,
    bbox_y_start s = round2 y_start ∧ bbox_y_end s = round2 y_end
    ∧ (∃ u, u ∈ b ∧ y_start = bbox_y u)
    ∧ (∃ u, u ∈ b ∧ y_end = (bbox_y u + bbox_h u)%Q)
    ∧ ∀ u, u ∈ b →
        (y_start <= bbox_y u)%Q ∧ (bbox_y u + bbox_h u <= y_end)%Q.
Proof.
  intros (_ & _ & y1 & y2 & Hmin & Hmax & ->)%section_of_block_Ok.
  apply py_min_Ok in Hmin as [Hin1 Hle1].
  apply py_max_Ok in Hmax as [Hin2 Hle2].
  exists y1, y2. cbn. split; [done|]. split; [done|].
  apply list_elem_of_fmap in Hin1 as (u1 & -> & Hu1).
  apply list_elem_of_fmap in Hin2 as (u2 & -> & Hu2).
  split; [by eauto|]. split; [by eauto|].
  intros u Hu. split.
  - apply Hle1, list_elem_of_fmap. by exists u.
  - apply Hle2, list_elem_of_fmap. by exists u.
Qed.

(** X3. The sections returned by [auto_section_page] are ordered by
    [bbox_y_start] (the guarantee of its docstring): an earlier section
    never starts below a later one. *)
Theorem sections_ordered_by_bbox_y_start
    page units gap_threshold sections i j s t :
  auto_section_page page units gap_threshold = Ok sections →
  i ≤ j → sections !! i = Some s → sections !! j = Some t →
  (bbox_y_start s <= bbox_y_start t)%Q.
Proof.
  intros Hok Hij Hs Ht.
  destruct (decide (i = j)) as [->|Hne].
  { rewrite Hs in Ht. injection Ht as <-. apply Qle_refl. }
  destruct (auto_section_page_block_of _ _ _ _ _ _ Hok Hs)
    as (a & ? & ? & Ha & Hsa).
  destruct (auto_section_page_block_of _ _ _ _ _ _ Hok Ht)
    as (b & ? & ? & Hb & Hsb).
  pose proof Hsa as (Hane & _)%section_of_block_Ok.
  apply section_of_block_y_start in Hsa as (ya & ea & -> & _ & _ & _ & Hya).
  apply section_of_block_y_start in Hsb
    as (yb & eb & -> & _ & (v & Hv & ->) & _ & _).
  apply round2_mono. destruct a as [|u a]; [done|].
  eapply Qle_trans; [apply (Hya u), list_elem_of_here|].
  assert (StronglySorted (λ u v, (bbox_y u <= bbox_y v)%Q)
            (concat (_segment_by_y_axis units gap_threshold))) as Hsorted.
  { rewrite segment_concat. apply sorted_by_bbox_y. }
  apply (concat_sorted_lookup _ _ i j (u :: a) b u v Hsorted);
    [lia|done|done|apply list_elem_of_here|done].
Qed.

Lemma sections_ordered_by_bbox_y_start_witness :
  ∃ s t,
    auto_section_page 7 Pages.rule_on_top (1 # 2) = Ok [s; t]
    ∧ (bbox_y_start s <= bbox_y_start t)%Q.
Proof.
  eexists _, _. split; [vm_compute; reflexivity|].
  eapply (sections_ordered_by_bbox_y_start 7 Pages.rule_on_top (1 # 2) _ 0 1);
    [vm_compute; reflexivity|lia|reflexivity|reflexivity].
Defined.

(** X4. Inside every returned section the [unit_ids] are the ids of the
    units of its block, listed in non-decreasing [sort_order]. *)
Theorem unit_ids_follow_sort_order page units gap_threshold sections k s :
  auto_section_page page units gap_threshold = Ok sections →
  sections !! k = Some s →
  ∃ b ordered,
    _segment_by_y_axis units gap_threshold !! k = Some b
    ∧ ordered ≡ₚ b
    ∧ StronglySorted (λ u v, (sort_order u ≤ sort_order v)%Z) ordered
    ∧ unit_ids s = map id ordered.
Proof.
  intros Hok Hs.
  destruct (auto_section_page_block_of _ _ _ _ _ _ Hok Hs)
    as (b & seen1 & seen2 & Hb & Hsec).
  apply section_of_block_Ok in Hsec as (_ & _ & y1 & y2 & _ & _ & ->).
  exists b, (sorted_by Z.ltb sort_order b). split; [done|].
  split; [apply sorted_by_perm|]. split; [apply sorted_by_sort_order|done].
Qed.

Lemma unit_ids_follow_sort_order_witness :
  ∃ s b ordered,
    auto_section_page 7 Pages.rule_on_top 5 = Ok [s]
    ∧ _segment_by_y_axis Pages.rule_on_top 5 !! 0 = Some b
    ∧ ordered ≡ₚ b
    ∧ StronglySorted (λ u v, (sort_order u ≤ sort_order v)%Z) ordered
    ∧ unit_ids s = map id ordered.
Proof.
  eexists. 
  destruct (unit_ids_follow_sort_order 7 Pages.rule_on_top 5 _ 0 _
              ltac:(vm_compute; reflexivity) eq_refl)
    as (b & ordered & H).
  exists b, ordered. split; [reflexivity|exact H].
Defined.

Lemma NoDup_fmap_eq {A B} (f : A → B) (l : list A) x y :
  NoDup (map f l) → x ∈ l → y ∈ l → f x = f y → x = y.
Proof.
  induction l as [|z l IH]; cbn; intros Hnd Hx Hy Hf; [inversion Hx|].
  apply NoDup_cons in Hnd as [Hz Hnd].
  apply elem_of_cons in Hx as [->|Hx]; apply elem_of_cons in Hy as [->|Hy];
    [done| | |by apply IH].
  - exfalso. apply Hz. rewrite Hf. apply list_elem_of_fmap. by exists y.
  - exfalso. apply Hz. rewrite <- Hf. apply list_elem_of_fmap. by exists x.
Qed.

(** X5. The y-range stored in a returned section covers, after rounding
    to two decimals, every unit the section lists: it starts no lower than
    the rounded top of the unit and ends no higher than its rounded
    bottom. *)
Theorem section_range_covers_its_units
    page units gap_threshold sections s u :
  auto_section_page page units gap_threshold = Ok sections →
  s ∈ sections → u ∈ units → id u ∈ unit_ids s →
  (bbox_y_start s <= round2 (bbox_y u))%Q
  ∧ (round2 (bbox_y u + bbox_h u) <= bbox_y_end s)%Q.
Proof.
  intros Hok [k Hs]%list_elem_of_lookup Hu Hid.
  pose proof (auto_section_page_partition _ _ _ _ Hok) as [Hperm Hnd].
  rewrite Hperm in Hnd.
  destruct (auto_section_page_block_of _ _ _ _ _ _ Hok Hs)
    as (b & seen1 & seen2 & Hb & Hsec).
  assert (u ∈ b) as Hub.
  { pose proof Hsec as (_ & _ & y1 & y2 & _ & _ & ->)%section_of_block_Ok.
    cbn in Hid. unfold block_unit_ids in Hid.
    apply list_elem_of_fmap in Hid as (u' & Hid & Hu').
    rewrite sorted_by_perm in Hu'.
    assert (u' ∈ units) as Hu'units.
    { rewrite <- (segment_perm units gap_threshold).
      apply list_elem_of_In, in_concat. exists b.
      rewrite <- !list_elem_of_In. split; [|done].
      by eapply list_elem_of_lookup_2. }
    by rewrite (NoDup_fmap_eq id units u u' Hnd Hu Hu'units Hid). }
  apply section_of_block_y_start in Hsec
    as (y1 & y2 & -> & -> & _ & _ & Hcover).
  destruct (Hcover u Hub). split; by apply round2_mono.
Qed.

Lemma section_range_covers_its_units_witness :
  ∃ s u,
    auto_section_page 7 Pages.rule_on_top 5 = Ok [s]
    ∧ Pages.rule_on_top !! 1 = Some u
    ∧ (bbox_y_start s <= round2 (bbox_y u))%Q
    ∧ (round2 (bbox_y u + bbox_h u) <= bbox_y_end s)%Q.
Proof.
  eexists _, _. split; [vm_compute; reflexivity|]. split; [reflexivity|].
  eapply (section_range_covers_its_units 7 Pages.rule_on_top 5).
  - vm_compute. reflexivity.
  - apply list_elem_of_here.
  - apply list_elem_of_further, list_elem_of_here.
  - cbn. apply list_elem_of_further, list_elem_of_here.
Defined.

(** X6. Whenever [auto_section_page] returns, the input ids are pairwise
    distinct and the [unit_ids] of the sections, concatenated, hold every
    input id exactly once; on a page with a repeated id it never returns
    sections. *)
Theorem returned_sections_partition_ids page units gap_threshold sections :
  auto_section_page page units gap_threshold = Ok sections →
  concat (map unit_ids sections) ≡ₚ map id units
  ∧ NoDup (concat (map unit_ids sections))
  ∧ NoDup (map id units).
Proof.
  intros [Hperm Hnd]%auto_section_page_partition.
  split; [done|]. split; [done|]. by rewrite <- Hperm.
Qed.

Lemma returned_sections_partition_ids_witness :
  ∃ s t,
    auto_section_page 7 Pages.rule_on_top (1 # 2) = Ok [s; t]
    ∧ concat (map unit_ids [s; t]) ≡ₚ map id Pages.rule_on_top
    ∧ NoDup (concat (map unit_ids [s; t]))
    ∧ NoDup (map id Pages.rule_on_top).
Proof.
  eexists _, _. split; [vm_compute; reflexivity|].
  apply (returned_sections_partition_ids 7 Pages.rule_on_top (1 # 2)).
  vm_compute. reflexivity.
Defined.

(** X7. On every page without divider fragments whose ids are pairwise
    distinct, [auto_section_page] returns, and the [unit_ids] of the
    returned sections partition the input ids. *)
Theorem divider_free_pages_are_sectioned page units gap_threshold :
  NoDup (map id units) →
  Forall (λ u, unit_type u ≠ divider) units →
  ∃ sections,
    auto_section_page page units gap_threshold = Ok sections
    ∧ concat (map unit_ids sections) ≡ₚ map id units
    ∧ NoDup (concat (map unit_ids sections)).
Proof. apply auto_section_page_partition_without_dividers. Qed.

Lemma divider_free_pages_are_sectioned_witness :
  ∃ sections,
    auto_section_page 7 Pages.tie_block 5 = Ok sections
    ∧ concat (map unit_ids sections) ≡ₚ map id Pages.tie_block
    ∧ NoDup (concat (map unit_ids sections)).
Proof.
  apply (divider_free_pages_are_sectioned 7 Pages.tie_block 5).
  - apply (bool_decide_unpack _). vm_compute. exact I.
  - repeat (constructor; [discriminate|]). constructor.
Defined.

(** X9. Every divider that is not the first fragment in y-order is closed
    into a block of its own, whatever the gaps around it, and that block
    is classified [divider]. *)
Theorem later_dividers_are_isolated units gap_threshold first rest u :
  sorted_by Qltb bbox_y units = first :: rest →
  u ∈ rest → unit_type u = divider →
  [u] ∈ _segment_by_y_axis units gap_threshold
  ∧ ∀ i total_blocks, _classify_block [u] i total_blocks = divider_section.
Proof. apply divider_after_first_is_isolated. Qed.

Lemma later_dividers_are_isolated_witness :
  [Pages.unit_at 2 divider (latin "---") 2 1]
    ∈ _segment_by_y_axis Pages.letter_rule_letter 5
  ∧ ∀ i total_blocks,
      _classify_block [Pages.unit_at 2 divider (latin "---") 2 1]
        i total_blocks = divider_section.
Proof.
  apply (later_dividers_are_isolated Pages.letter_rule_letter 5
           (Pages.unit_at 1 letter [0x0628%N] 0 1)
           [Pages.unit_at 2 divider (latin "---") 2 1;
            Pages.unit_at 3 letter [0x062A%N] 20 1]).
  - reflexivity.
  - apply list_elem_of_here.
  - reflexivity.
Defined.

(** *** The classifier *)

(** X10. What each verdict of [_classify_block] implies: [divider] is
    given exactly to a block made of one divider unit; [opening_sentence]
    only to the first block, holding a sentence and at most three units;
    [alphabet_grid] only to blocks with at least 14 letter units;
    [letter_introduction] only to blocks of at most five units, one of
    them with exactly one base letter; and an empty block is [generic]. *)
Theorem classify_block_verdicts (b : block) (i total_blocks : nat) :
  (_classify_block b i total_blocks = divider_section ↔
     ∃ u, b = [u] ∧ unit_type u = divider)
  ∧ (_classify_block b i total_blocks = opening_sentence →
     i = 0 ∧ 1 ≤ count_type sentence b ∧ length b ≤ 3)
  ∧ (_classify_block b i total_blocks = alphabet_grid →
     14 ≤ count_type letter b ∧ 14 ≤ length b)
  ∧ (_classify_block b i total_blocks = letter_introduction →
     length b ≤ 5 ∧ ∃ u, u ∈ b ∧ count_chars (text_content u) = 1)
  ∧ (b = [] → _classify_block b i total_blocks = generic).
Proof.
  assert (count_type letter b ≤ length b) as Hcount.
  { unfold count_type. apply List.filter_length_le. }
  unfold _classify_block. destruct b as [|u b]; cbn [length].
  { repeat split; try done. intros (u & ? & _). done. }
  destruct ((S (length b) =? 1) && is_divider_unit u) eqn:Ediv.
  { apply andb_true_iff in Ediv as [Hlen Hd].
    apply Nat.eqb_eq in Hlen. apply bool_decide_eq_true in Hd.
    destruct b; [|cbn in Hlen; lia].
    repeat split; try done. intros _. by exists u. }
  assert (¬ ∃ u', u :: b = [u'] ∧ unit_type u' = divider) as Hnot.
  { intros (u' & [= <- ->] & Hd). cbn in Ediv.
    unfold is_divider_unit in Ediv. by rewrite bool_decide_true in Ediv. }
  destruct (is_opening_sentence (u :: b) i) eqn:E2.
  { unfold is_opening_sentence in E2.
    rewrite !andb_true_iff, Nat.eqb_eq, !Nat.leb_le in E2.
    repeat split; try done; tauto. }
  destruct (is_alphabet_grid (u :: b)) eqn:E3.
  { unfold is_alphabet_grid in E3.
    rewrite andb_true_iff, Nat.leb_le in E3. destruct E3 as [E3 _].
    repeat split; try done. cbn [length] in Hcount. lia. }
  destruct (is_letter_introduction (u :: b)) eqn:E4.
  { unfold is_letter_introduction in E4.
    rewrite andb_true_iff, Nat.leb_le in E4. destruct E4 as [Hlen E4].
    repeat split; try done.
    destruct (List.filter _ (u :: b)) as [|v vs] eqn:Ef; [done|].
    exists v. assert (In v (List.filter
      (λ u0, count_chars (text_content u0) =? 1) (u :: b))) as Hin.
    { rewrite Ef. by left. }
    apply filter_In in Hin as [Hin Hv]. apply Nat.eqb_eq in Hv.
    by rewrite list_elem_of_In. }
  destruct (is_letter_drill (u :: b)); [repeat split; done|].
  destruct (is_word_drill (u :: b)); [repeat split; done|].
  destruct (is_mostly_letters (u :: b)); repeat split; done.
Qed.

(** *** Letters and diacritics *)

Lemma is_arabic_letter_not_diacritic c :
  is_arabic_letter c = true → is_diacritic c = false.
Proof.
  unfold is_arabic_letter, is_diacritic.
  rewrite orb_true_iff, !orb_false_iff, !between_spec.
  intros H. repeat split; apply not_true_iff_false;
    rewrite ?between_spec, ?N.eqb_eq; lia.
Qed.

Lemma extract_arabic_letters_filter t :
  extract_arabic_letters t = List.filter is_arabic_letter t.
Proof.
  unfold extract_arabic_letters, strip_diacritics.
  induction t as [|c t IH]; cbn; [done|].
  destruct (is_arabic_letter c) eqn:E.
  - rewrite (is_arabic_letter_not_diacritic c E). cbn. by rewrite E, IH.
  - destruct (is_diacritic c); cbn; [done|]. by rewrite E.
Qed.

(** X11. The target letter of a block, when there is one, is a base
    Arabic letter (never a diacritic) that occurs in the text of one of the
    block's units; there is none exactly when the section type is
    [opening_sentence], [divider] or [alphabet_grid], or no unit of the
    block holds a base letter. *)
Theorem target_letter_is_a_letter_of_the_block (b : block) (st : SectionType) :
  (∀ c, _extract_target_letter b st = Some c →
     is_arabic_letter c = true ∧ is_diacritic c = false
     ∧ ∃ u, u ∈ b ∧ c ∈ text_content u)
  ∧ (_extract_target_letter b st = None ↔
     st ∈ [opening_sentence; divider_section; alphabet_grid]
     ∨ ∀ u, u ∈ b → count_chars (text_content u) = 0).
Proof.
  assert (all_letters b = [] ↔
          ∀ u, u ∈ b → count_chars (text_content u) = 0) as Hnil.
  { unfold all_letters, count_chars.
    induction b as [|u b IH]; cbn.
    - split; [|done]. intros _ u Hu. inversion Hu.
    - rewrite app_nil, IH. split.
      + intros [Hu Hb] v [->|Hv]%elem_of_cons; [by rewrite Hu|by apply Hb].
      + intros H. split.
        * apply length_zero_iff_nil, H, list_elem_of_here.
        * intros v Hv. by apply H, list_elem_of_further. }
  assert (∀ c, c ∈ all_letters b →
            is_arabic_letter c = true ∧ ∃ u, u ∈ b ∧ c ∈ text_content u)
    as Hletters.
  { intros c Hc. unfold all_letters in Hc.
    apply list_elem_of_In, in_concat in Hc as (l & Hl & Hc).
    apply in_map_iff in Hl as (u & <- & Hu).
    rewrite extract_arabic_letters_filter in Hc.
    apply filter_In in Hc as [Hc Hletter].
    split; [done|]. exists u. by rewrite !list_elem_of_In. }
  split.
  - intros c Hc.
    assert (c ∈ all_letters b) as Hin.
    { unfold _extract_target_letter in Hc.
      destruct (all_letters b) as [|x l] eqn:E; [by destruct st|].
      destruct (most_common_1_spec (x :: l) ltac:(done))
        as (c' & n & Hmc & Hc' & _).
      rewrite Hmc in Hc.
      destruct st; cbn in Hc; try done; by injection Hc as <-. }
    destruct (Hletters c Hin) as [Hl Hu].
    split; [done|]. split; [by apply is_arabic_letter_not_diacritic|done].
  - rewrite <- Hnil. rewrite !elem_of_cons, elem_of_nil.
    unfold _extract_target_letter.
    destruct (all_letters b) as [|x l] eqn:E.
    + split; [by right|]. by destruct st.
    + destruct (most_common_1_spec (x :: l) ltac:(done))
        as (c' & n & Hmc & _).
      rewrite Hmc. destruct st; split; try done; try tauto;
        intros [[?|[?|[?|[]]]]|?]; done.
Qed.

Lemma strip_diacritics_clean t : has_diacritics (strip_diacritics t) = false.
Proof.
  unfold has_diacritics, strip_diacritics.
  induction t as [|c t IH]; cbn; [done|].
  destruct (is_diacritic c) eqn:E; cbn; [done|]. by rewrite E.
Qed.

Lemma strip_diacritics_fixed t :
  has_diacritics t = false → strip_diacritics t = t.
Proof.
  unfold has_diacritics, strip_diacritics.
  induction t as [|c t IH]; cbn; [done|].
  intros [Hc Ht]%orb_false_iff. rewrite Hc. cbn. by rewrite IH.
Qed.


(** X13. Base-letter extraction does not depend on diacritics: the ranges
    of base letters and of diacritics are disjoint, so the letters of a
    text are those of the stripped text, every extracted character is a
    base letter, and [count_chars] counts exactly the code points of the
    text that are base letters. *)
Theorem letters_ignore_diacritics (t : text) :
  extract_arabic_letters (strip_diacritics t) = extract_arabic_letters t
  ∧ (∀ c, c ∈ extract_arabic_letters t ↔ c ∈ t ∧ is_arabic_letter c = true)
  ∧ (∀ c, is_arabic_letter c = true → is_diacritic c = false)
  ∧ count_chars t = length (List.filter is_arabic_letter t)
  ∧ count_chars t ≤ length (strip_diacritics t)
  ∧ ∀ t', count_chars (t ++ t') = count_chars t + count_chars t'.
Proof.
  split; [|split; [|split; [|split; [|split]]]].
  - unfold extract_arabic_letters.
    by rewrite (strip_diacritics_fixed _ (strip_diacritics_clean t)).
  - intros c. rewrite extract_arabic_letters_filter.
    by rewrite !list_elem_of_In, filter_In.
  - apply is_arabic_letter_not_diacritic.
  - unfold count_chars. by rewrite extract_arabic_letters_filter.
  - unfold count_chars, extract_arabic_letters. apply List.filter_length_le.
  - intros t'. unfold count_chars.
    by rewrite !extract_arabic_letters_filter, List.filter_app, length_app.
Qed.

(** *** Titles *)

(** X14. [_generate_titles] gives an empty Uzbek title only to a divider;
    the titles of [opening_sentence], [alphabet_grid] and [divider] do not
    depend on the target letter; for the other types the Arabic title ends
    with the target letter, and the Uzbek title starts with the letter's
    name from [_LETTER_NAMES_UZ], or with the letter itself when the table
    does not list it. *)
Theorem titles_by_section_type (st : SectionType) (tl : option chr) :
  ((_generate_titles st tl).2 = [] ↔ st = divider_section)
  ∧ (st ∈ [opening_sentence; alphabet_grid; divider_section] →
     _generate_titles st tl = _generate_titles st None)
  ∧ (st ∉ [opening_sentence; alphabet_grid; divider_section] →
     ∀ c, ∃ prefix suffix,
       (_generate_titles st (Some c)).1 = prefix ++ [c]
       ∧ (_generate_titles st (Some c)).2 = letter_name (Some c) ++ suffix
       ∧ letter_name (Some c) ≠ []).
Proof.
  assert (∀ c, letter_name (Some c) ≠ []) as Hname.
  { intros c. unfold letter_name.
    destruct (List.find (λ kv, (fst kv =? c)%N) _LETTER_NAMES_UZ)
      as [kv|] eqn:E; [|done].
    apply find_some in E as [Hin _].
    unfold _LETTER_NAMES_UZ in Hin. cbn in Hin.
    repeat (destruct Hin as [<-|Hin]; [done|]). done. }
  split; [|split].
  - destruct st; unfold _generate_titles; cbn [fst snd]; (split; [|done]);
      try done;
      try (intros [_ H]%app_nil; vm_compute in H; discriminate H);
      try (intros H; vm_compute in H; discriminate H).
    destruct tl as [c|]; [|intros H; vm_compute in H; discriminate H].
    pose proof (Hname c) as H. destruct (letter_name (Some c)); [done|].
    discriminate.
  - rewrite !elem_of_cons, elem_of_nil. by intros [->|[->|[->|[]]]].
  - rewrite !elem_of_cons, elem_of_nil. intros Hst c.
    destruct st; try (exfalso; tauto); unfold _generate_titles;
      cbn [fst snd].
    1-3: eexists _, _; (split; [reflexivity|]); (split; [|apply Hname]);
      reflexivity.
    exists [], []. split; [done|]. split; [|apply Hname].
    pose proof (Hname c) as H.
    destruct (letter_name (Some c)) eqn:E; [done|]. by rewrite app_nil_r.
Qed.

(** ** Further properties of the QA checker *)

Lemma run_qa_checks_names units :
  map name (checks (run_qa_checks units))
  = ["unit_count"; "diacritics_presence"; "no_overlaps"; "no_duplicates";
     "hitbox_check"; "audio_coverage"]%string.
Proof.
  unfold run_qa_checks. cbn [checks map].
  by rewrite check_diacritics_presence_name, check_duplicates_name.
Qed.

Lemma score_unfold units :
  score (run_qa_checks units)
  = round2 (Qsum
      [ ((15 # 100) * (if passed (check_unit_count units 1) then 1 else 0));
        ((30 # 100)
         * (if passed (check_diacritics_presence units) then 1 else 0));
        ((20 # 100) * (if passed (check_overlaps units) then 1 else 0));
        ((15 # 100) * (if passed (check_duplicates units) then 1 else 0));
        ((10 # 100) * 1); ((10 # 100) * 1) ])%Q.
Proof.
  unfold run_qa_checks. cbn [score map].
  by rewrite check_diacritics_presence_name, check_duplicates_name.
Qed.

(** X15. The score of [run_qa_checks] is 1 minus the weights of the
    failing checks (0.15 for [unit_count], 0.30 for [diacritics_presence],
    0.20 for [no_overlaps], 0.15 for [no_duplicates]); it lies between 0.2
    and 1, and the page passes exactly when the score is 1. *)
Theorem score_is_one_minus_failed_weights (units : list TextUnit) :
  let lost (c : Check) := if passed c then 0%Q else weights (name c) in
  (score (run_qa_checks units)
   == 1 - (lost (check_unit_count units 1)
           + lost (check_diacritics_presence units)
           + lost (check_overlaps units)
           + lost (check_duplicates units)))%Q
  ∧ (2 # 10 <= score (run_qa_checks units) <= 1)%Q
  ∧ (qa_passed (run_qa_checks units) = true ↔
     (score (run_qa_checks units) == 1)%Q).
Proof.
  cbn zeta. rewrite score_unfold, qa_passed_unfold.
  rewrite check_diacritics_presence_name, check_duplicates_name.
  cbn [name check_unit_count check_overlaps].
  destruct (passed (check_unit_count units 1)),
    (passed (check_diacritics_presence units)),
    (passed (check_overlaps units)),
    (passed (check_duplicates units));
    (split; [vm_compute; reflexivity|]);
    (split; [split; vm_compute; discriminate|]);
    split; intros H; try done; vm_compute in H; discriminate H.
Qed.

(** X16. [run_qa_checks] always reports the six checks in the same order;
    the failed names of its summary are exactly the names of the checks
    that did not pass, [hitbox_check] and [audio_coverage] are never among
    them, and the list is empty exactly when the page passes. *)
Theorem failed_checks_are_reported (units : list TextUnit) :
  map name (checks (run_qa_checks units))
  = ["unit_count"; "diacritics_presence"; "no_overlaps"; "no_duplicates";
     "hitbox_check"; "audio_coverage"]%string
  ∧ (∀ n, n ∈ failed (run_qa_checks units) ↔
       ∃ c, c ∈ checks (run_qa_checks units) ∧ name c = n ∧ passed c = false)
  ∧ ("hitbox_check"%string ∉ failed (run_qa_checks units))
  ∧ ("audio_coverage"%string ∉ failed (run_qa_checks units))
  ∧ (failed (run_qa_checks units) = [] ↔
     qa_passed (run_qa_checks units) = true).
Proof.
  split; [apply run_qa_checks_names|].
  assert (∀ n, n ∈ failed (run_qa_checks units) ↔
       ∃ c, c ∈ checks (run_qa_checks units) ∧ name c = n ∧ passed c = false)
    as Hfailed.
  { intros n. unfold run_qa_checks. cbn [failed checks].
    rewrite list_elem_of_fmap. split.
    - intros (c & -> & Hc). exists c.
      apply list_elem_of_In, filter_In in Hc as [Hc Hp].
      apply negb_true_iff in Hp. by rewrite list_elem_of_In.
    - intros (c & Hc & <- & Hp). exists c. split; [done|].
      apply list_elem_of_In, filter_In. rewrite <- list_elem_of_In.
      split; [done|]. by rewrite Hp. }
  split; [done|].
  assert (∀ c, c ∈ checks (run_qa_checks units) → passed c = false →
            name c ≠ "hitbox_check"%string
            ∧ name c ≠ "audio_coverage"%string) as Hinfo.
  { intros c Hc Hp. unfold run_qa_checks in Hc. cbn [checks] in Hc.
    rewrite !elem_of_cons, elem_of_nil in Hc.
    destruct Hc as [->|[->|[->|[->|[->|[->|[]]]]]]];
      rewrite ?check_diacritics_presence_name, ?check_duplicates_name;
      try done. }
  split; [|split].
  - intros (c & Hc & Hn & Hp)%Hfailed. by destruct (Hinfo c Hc Hp).
  - intros (c & Hc & Hn & Hp)%Hfailed. by destruct (Hinfo c Hc Hp).
  - rewrite qa_passed_unfold. unfold run_qa_checks. cbn [failed List.filter].
    destruct (passed (check_unit_count units 1)),
      (passed (check_diacritics_presence units)),
      (passed (check_overlaps units)),
      (passed (check_duplicates units)); cbn; done.
Qed.

(** *** Geometry of the overlap check *)

Lemma overlap_of_None_of_ratio u1 u2 :
  (Spec.overlap_ratio u1 u2 <= 3 # 10)%Q → overlap_of u1 u2 = None.
Proof.
  intros H. destruct (overlap_of u1 u2) as [r|] eqn:E; [|done].
  assert (is_Some (overlap_of u1 u2)) as Hs by (by rewrite E).
  apply overlap_of_flagged in Hs as (_ & _ & Hlt).
  exfalso. by apply (Qlt_not_le _ _ Hlt).
Qed.

(** X17. Rectangles that do not intersect are never flagged by
    [check_overlaps]: when one box ends, horizontally or vertically,
    where the other begins or earlier, the pair is not reported; neither
    is a pair with a fragment of zero width. *)
Theorem separated_boxes_are_not_flagged (u1 u2 : TextUnit) :
  (bbox_x u1 + bbox_w u1 <= bbox_x u2 ∨ bbox_x u2 + bbox_w u2 <= bbox_x u1
   ∨ bbox_y u1 + bbox_h u1 <= bbox_y u2 ∨ bbox_y u2 + bbox_h u2 <= bbox_y u1
   ∨ bbox_w u1 == 0 ∨ bbox_w u2 == 0)%Q →
  overlap_of u1 u2 = None.
Proof.
  intros H.
  destruct H as [H|[H|[H|[H|H]]]]; cycle 4.
  { destruct (overlap_of u1 u2) as [r|] eqn:E; [|done].
    assert (is_Some (overlap_of u1 u2)) as Hs by (by rewrite E).
    apply overlap_of_flagged in Hs as (H1 & H2 & _). tauto. }
  all: apply overlap_of_None_of_ratio.
  all: assert (Spec.intersection_area u1 u2 == 0)%Q as Hz;
    [|unfold Spec.overlap_ratio; rewrite Hz;
      unfold Qdiv; rewrite Qmult_0_l; discriminate].
  all: unfold Spec.intersection_area.
  all: pose proof (Qminb_le_l (bbox_x u1 + bbox_w u1) (bbox_x u2 + bbox_w u2)).
  all: pose proof (Qminb_le_r (bbox_x u1 + bbox_w u1) (bbox_x u2 + bbox_w u2)).
  all: pose proof (Qmaxb_ge_l (bbox_x u1) (bbox_x u2)).
  all: pose proof (Qmaxb_ge_r (bbox_x u1) (bbox_x u2)).
  all: pose proof (Qminb_le_l (bbox_y u1 + bbox_h u1) (bbox_y u2 + bbox_h u2)).
  all: pose proof (Qminb_le_r (bbox_y u1 + bbox_h u1) (bbox_y u2 + bbox_h u2)).
  all: pose proof (Qmaxb_ge_l (bbox_y u1) (bbox_y u2)).
  all: pose proof (Qmaxb_ge_r (bbox_y u1) (bbox_y u2)).
  1,2: rewrite (Qmaxb_0_nonpos
         (Qminb (bbox_x u1 + bbox_w u1) (bbox_x u2 + bbox_w u2)
          - Qmaxb (bbox_x u1) (bbox_x u2))) by lra; apply Qmult_0_l.
  all: rewrite (Qmaxb_0_nonpos
         (Qminb (bbox_y u1 + bbox_h u1) (bbox_y u2 + bbox_h u2)
          - Qmaxb (bbox_y u1) (bbox_y u2))) by lra; apply Qmult_0_r.
Qed.

Lemma separated_boxes_are_not_flagged_witness :
  overlap_of (Pages.boxed 0 (latin "a") 0 0 10 10)
    (Pages.boxed 1 (latin "b") 10 0 10 10) = None.
Proof.
  apply separated_boxes_are_not_flagged. left. vm_compute. discriminate.
Defined.

(** *** What the duplicate check reports *)

Lemma trimmed_texts_snoc units u :
  trimmed_texts (units ++ [u])
  = trimmed_texts units
    ++ match strip (text_content u) with [] => [] | t => [t] end.
Proof.
  unfold trimmed_texts. rewrite map_app, filter_app. f_equal. cbn [map].
  destruct (strip (text_content u)) eqn:E.
  - by rewrite filter_cons_False by (intros H; by apply H).
  - by rewrite filter_cons_True.
Qed.

Lemma first_with_text_snoc units u i t :
  first_with_text units i t → first_with_text (units ++ [u]) i t.
Proof.
  intros (v & Hi & Ht & Hfirst). exists v.
  pose proof (lookup_lt_Some _ _ _ Hi) as Hlt.
  split; [by rewrite lookup_app_l|]. split; [done|].
  intros k w Hk Hw. rewrite lookup_app_l in Hw by lia. by eapply Hfirst.
Qed.

Lemma duplicates_invariant units :
  ∀ seen duplicates,
    foldl duplicates_step (∅, []) units = (seen, duplicates) →
    (∀ t a, seen !! t = Some a →
       t ≠ [] ∧ ∃ i u, units !! i = Some u ∧ sort_order u = a
                       ∧ first_with_text units i t)
    ∧ (∀ i u, units !! i = Some u → strip (text_content u) ≠ [] →
         is_Some (seen !! strip (text_content u)))
    ∧ (∀ t a b, (t, a, b) ∈ duplicates →
         ∃ i j u v, i < j ∧ units !! i = Some u ∧ units !! j = Some v
           ∧ first_with_text units i (strip (text_content v))
           ∧ strip (text_content v) ≠ []
           ∧ t = take 50 (strip (text_content v))
           ∧ a = sort_order u ∧ b = sort_order v)
    ∧ length duplicates + size seen = length (trimmed_texts units).
Proof.
  induction units as [|u units IH] using rev_ind; intros seen duplicates.
  - cbn. intros [= <- <-]. split; [|split; [|split]]; try done.
    intros t a b H. inversion H.
  - rewrite foldl_app. cbn [foldl].
    destruct (foldl duplicates_step (∅, []) units) as [seen0 dups0].
    destruct (IH seen0 dups0 eq_refl) as (I1 & I1' & I2 & I3). clear IH.
    rewrite duplicates_step_eq, trimmed_texts_snoc, length_app.
    assert (∀ i w, (units ++ [u]) !! i = Some w →
              (units !! i = Some w) ∨ (i = length units ∧ w = u)) as Hsnoc.
    { intros i w Hi. apply lookup_app_Some in Hi as [Hi|[Hge Hi]]; [by left|].
      right. destruct (i - length units) as [|n] eqn:En; [|done].
      injection Hi as <-. split; [lia|done]. }
    destruct (strip (text_content u)) as [|c t] eqn:Eu.
    + intros [= <- <-]. split; [|split; [|split]].
      * intros t a Ht. destruct (I1 t a Ht) as (Hne & i & w & Hi & Ha & Hf).
        split; [done|]. exists i, w. split; [|split; [done|]].
        -- rewrite lookup_app_l; [done|]. by eapply lookup_lt_Some.
        -- by apply first_with_text_snoc.
      * intros i w Hi Hne. destruct (Hsnoc i w Hi) as [Hi'|[_ ->]];
          [by eapply I1'|]. by rewrite Eu in Hne.
      * intros t a b Hin.
        destruct (I2 t a b Hin) as (i & j & w & v & Hlt & Hi & Hj & Hf & Hr).
        exists i, j, w, v. split; [done|].
        pose proof (lookup_lt_Some _ _ _ Hi). pose proof (lookup_lt_Some _ _ _ Hj).
        rewrite !lookup_app_l by lia.
        split; [done|]. split; [done|].
        split; [by apply first_with_text_snoc|done].
      * cbn. lia.
    + destruct (seen0 !! (c :: t)) as [a|] eqn:Es.
      * intros [= <- <-]. split; [|split; [|split]].
        -- intros t' a' Ht.
           destruct (I1 t' a' Ht) as (Hne & i & w & Hi & Ha & Hf).
           split; [done|]. exists i, w. split; [|split; [done|]].
           ++ rewrite lookup_app_l; [done|]. by eapply lookup_lt_Some.
           ++ by apply first_with_text_snoc.
        -- intros i w Hi Hne. destruct (Hsnoc i w Hi) as [Hi'|[_ ->]];
             [by eapply I1'|]. rewrite Eu. eexists. exact Es.
        -- intros t' a' b' [Hin|Hin%list_elem_of_singleton]%elem_of_app.
           ++ destruct (I2 t' a' b' Hin)
                as (i & j & w & v & Hlt & Hi & Hj & Hf & Hr).
              exists i, j, w, v. split; [done|].
              pose proof (lookup_lt_Some _ _ _ Hi).
              pose proof (lookup_lt_Some _ _ _ Hj).
              rewrite !lookup_app_l by lia.
              split; [done|]. split; [done|].
              split; [by apply first_with_text_snoc|done].
           ++ injection Hin as -> -> ->.
              destruct (I1 _ _ Es) as (Hne & i & w & Hi & Ha & Hf).
              pose proof (lookup_lt_Some _ _ _ Hi) as Hlt.
              exists i, (length units), w, u. split; [done|].
              split; [by rewrite lookup_app_l|].
              split; [by rewrite list_lookup_middle|].
              rewrite Eu. split; [by apply first_with_text_snoc|done].
        -- rewrite length_app. cbn. lia.
      * intros [= <- <-]. split; [|split; [|split]].
        -- intros t' a' Ht. destruct (decide (t' = c :: t)) as [->|Hne'].
           ++ rewrite lookup_insert_eq in Ht. injection Ht as <-.
              split; [done|]. exists (length units), u.
              split; [by rewrite list_lookup_middle|]. split; [done|].
              exists u. split; [by rewrite list_lookup_middle|].
              split; [done|]. intros k w Hk Hw Heq.
              rewrite lookup_app_l in Hw by lia.
              assert (is_Some (seen0 !! strip (text_content w))) as [? Hs].
              { eapply I1'; [done|]. by rewrite Heq. }
              rewrite Heq in Hs.
              assert (None = Some x) as Hbad
                by (etransitivity; [symmetry; exact Es|exact Hs]).
              discriminate Hbad.
           ++ rewrite lookup_insert_ne in Ht by done.
              destruct (I1 t' a' Ht) as (Hne & i & w & Hi & Ha & Hf).
              split; [done|]. exists i, w. split; [|split; [done|]].
              ** rewrite lookup_app_l; [done|]. by eapply lookup_lt_Some.
              ** by apply first_with_text_snoc.
        -- intros i w Hi Hne. destruct (Hsnoc i w Hi) as [Hi'|[_ ->]].
           ++ destruct (decide (strip (text_content w) = c :: t)) as [->|Hd].
              ** rewrite lookup_insert_eq. by eexists.
              ** rewrite lookup_insert_ne by done. by eapply I1'.
           ++ rewrite Eu, lookup_insert_eq. by eexists.
        -- intros t' a' b' Hin.
           destruct (I2 t' a' b' Hin)
             as (i & j & w & v & Hlt & Hi & Hj & Hf & Hr).
           exists i, j, w, v. split; [done|].
           pose proof (lookup_lt_Some _ _ _ Hi).
           pose proof (lookup_lt_Some _ _ _ Hj).
           rewrite !lookup_app_l by lia.
           split; [done|]. split; [done|].
           split; [by apply first_with_text_snoc|done].
        -- rewrite map_size_insert_None by done. cbn. lia.
Qed.

(** X19. [check_duplicates] reports every later occurrence of a non-blank
    trimmed text once, against the first fragment with that text: the
    number of duplicates found is the number of non-blank fragments minus
    the number of distinct non-blank trimmed texts, each entry names the
    [sort_order] of the first fragment with that text and of a later one,
    and the details keep the first ten entries. *)
Theorem duplicates_refer_to_first_occurrence (units : list TextUnit) :
  ∃ duplicates,
    details (check_duplicates units) = DuplicateDetails (take 10 duplicates)
    ∧ length duplicates
      = length (trimmed_texts units)
        - size (list_to_set (trimmed_texts units) : gset text)
    ∧ ∀ t a b, (t, a, b) ∈ duplicates →
        ∃ i j u v, i < j ∧ units !! i = Some u ∧ units !! j = Some v
          ∧ first_with_text units i (strip (text_content v))
          ∧ strip (text_content v) ≠ []
          ∧ t = take 50 (strip (text_content v))
          ∧ a = sort_order u ∧ b = sort_order v.
Proof.
  unfold check_duplicates.
  destruct (foldl duplicates_step (∅, []) units) as [seen duplicates] eqn:E.
  destruct (duplicates_invariant units seen duplicates E)
    as (I1 & I1' & I2 & I3).
  exists duplicates. split; [done|]. split; [|done].
  assert (dom seen = list_to_set (trimmed_texts units)) as Hdom.
  { apply set_eq. intros t.
    rewrite elem_of_dom, elem_of_list_to_set, elem_of_trimmed_texts. split.
    - intros [a Ha]. destruct (I1 t a Ha) as (Hne & i & u & _ & _ & Hf).
      destruct Hf as (v & Hv & Ht & _). eauto.
    - intros (Hne & j & v & Hv & <-). by eapply I1'. }
  rewrite <- Hdom, size_dom. lia.
Qed.

(** ** Properties of the image analyzer *)

Lemma lstrip_snoc_nonspace a c :
  isspace c = false → lstrip (a ++ [c]) = lstrip a ++ [c].
Proof.
  intros Hc. induction a as [|x a IH]; cbn; [by rewrite Hc|].
  by destruct (isspace x).
Qed.

Lemma lstrip_head t :
  lstrip t = [] ∨ ∃ c l, lstrip t = c :: l ∧ isspace c = false.
Proof.
  induction t as [|x t IH]; cbn; [by left|].
  destruct (isspace x) eqn:E; [done|]. right. by exists x, t.
Qed.

Lemma lstrip_fixed c l : isspace c = false → lstrip (c :: l) = c :: l.
Proof. intros H. cbn. by rewrite H. Qed.

(** The shape of a trimmed text: empty, or between two characters that
    are not white space. *)
Lemma strip_shape t :
  strip t = []
  ∨ ∃ c l, strip t = c :: l ∧ isspace c = false
      ∧ ∃ l' d, reverse (strip t) = d :: l' ∧ isspace d = false.
Proof.
  assert (reverse (strip t) = lstrip (reverse (lstrip t))) as Hrev.
  { unfold strip. apply reverse_involutive. }
  rewrite Hrev. unfold strip.
  destruct (lstrip_head t) as [->|(c & l & -> & Hc)]; [by left|].
  right. rewrite reverse_cons, (lstrip_snoc_nonspace _ _ Hc), reverse_app.
  exists c, (reverse (lstrip (reverse l))).
  split; [done|]. split; [done|].
  destruct (lstrip_head (reverse l)) as [->|(d & l' & -> & Hd)].
  - by exists [], c.
  - by exists (l' ++ [c]), d.
Qed.

Lemma strip_idemp t : strip (strip t) = strip t.
Proof.
  destruct (strip_shape t) as [->|(c & l & E & Hc & l' & d & Er & Hd)];
    [reflexivity|].
  unfold strip at 1. rewrite E, (lstrip_fixed _ _ Hc), <- E, Er.
  by rewrite (lstrip_fixed _ _ Hd), <- Er, reverse_involutive.
Qed.

Section ImageAnalysisFacts.
Import ImageAnalysis.

Lemma classify_unit_type_eq t word_count :
  classify_unit_type t word_count
  = if forallb is_decoration (strip t) then divider
    else if (length (counted_letters (strip t)) <=? 2)
            && (word_count <=? 1)%Z then letter
    else if (word_count <=? 1)%Z then word
    else if (word_count <=? 4)%Z then word
    else sentence.
Proof. unfold classify_unit_type. by destruct (strip t). Qed.

Lemma forallb_Forall {A} (p : A → bool) l :
  forallb p l = true ↔ Forall (λ c, p c = true) l.
Proof.
  induction l as [|x l IH]; cbn; [by split; [constructor|]|].
  rewrite andb_true_iff, IH, Forall_cons. done.
Qed.

(** X20. [classify_unit_type] never answers [drill_group]; it answers
    [divider] exactly when the trimmed text is empty or made of decoration
    characters only, whatever the word count; otherwise more than four
    words give [sentence], and [letter] needs a single word with at most
    two code points of the Arabic blocks outside the diacritics table.
    White space around the text does not change the answer. *)
Theorem classify_unit_type_cases (t : text) (word_count : Z) :
  classify_unit_type t word_count ≠ drill_group
  ∧ (classify_unit_type t word_count = divider ↔
     Forall (λ c, is_decoration c = true) (strip t))
  ∧ (classify_unit_type t word_count = sentence ↔
     ¬ Forall (λ c, is_decoration c = true) (strip t) ∧ (4 < word_count)%Z)
  ∧ (classify_unit_type t word_count = letter ↔
     ¬ Forall (λ c, is_decoration c = true) (strip t)
     ∧ (word_count ≤ 1)%Z ∧ length (counted_letters (strip t)) ≤ 2)
  ∧ classify_unit_type (strip t) word_count = classify_unit_type t word_count.
Proof.
  split; [|split; [|split; [|split]]];
    rewrite ?classify_unit_type_eq, ?strip_idemp; [| | | |done].
  all: rewrite <- ?forallb_Forall.
  all: destruct (forallb is_decoration (strip t)) eqn:Ed.
  all: destruct (length (counted_letters (strip t)) <=? 2) eqn:El;
    destruct (word_count <=? 1)%Z eqn:E1;
    destruct (word_count <=? 4)%Z eqn:E4; cbn [andb].
  all: rewrite ?Nat.leb_le, ?Nat.leb_gt, ?Z.leb_le, ?Z.leb_gt in *.
  all: try done.
  all: split; try done; try tauto; try lia; try (intros; exfalso; lia).
  all: intros (? & ? & ?); lia.
Qed.


(** *** Line grouping *)

Lemma group_step_eq lines b :
  group_step lines b
  = match strip (box_text b) with
    | [] => lines
    | _ :: _ =>
        <[line_num b :=
            default [] (lines !! line_num b)
            ++ [{| word_text := strip (box_text b); word_left := left b;
                   word_top := top b; word_width := width b;
                   word_height := height b;
                   word_conf := Qmaxb 0 (conf b / 100) |}]]> lines
    end.
Proof. unfold group_step. by destruct (strip (box_text b)). Qed.

Lemma lines_invariant data :
  let lines := foldl group_step ∅ data in
  (∀ k ws, lines !! k = Some ws →
     ws ≠ [] ∧ ∀ w, w ∈ ws → ∃ b, b ∈ data ∧ word_of_box k w b)
  ∧ (∀ k, is_Some (lines !! k) ↔
       ∃ b, b ∈ data ∧ line_num b = k ∧ strip (box_text b) ≠ []).
Proof.
  induction data as [|b data IH] using rev_ind; cbn zeta.
  - cbn. split.
    + intros k ws H. by rewrite lookup_empty in H.
    + intros k. rewrite lookup_empty. split; [by intros [? ?]|].
      intros (b & Hb & _). inversion Hb.
  - rewrite foldl_app. cbn [foldl]. cbn zeta in IH.
    set (lines := foldl group_step ∅ data) in *.
    destruct IH as [I1 I2]. rewrite group_step_eq.
    destruct (strip (box_text b)) as [|c t] eqn:Eb.
    + split.
      * intros k ws H. destruct (I1 k ws H) as [Hne Hws].
        split; [done|]. intros w Hw. destruct (Hws w Hw) as (b' & Hb' & Hwb).
        exists b'. split; [|done]. apply elem_of_app. by left.
      * intros k. rewrite I2. split.
        -- intros (b' & Hb' & Hk). exists b'. split; [|done].
           apply elem_of_app. by left.
        -- intros (b' & [Hb'| ->%list_elem_of_singleton]%elem_of_app & Hk & Hn);
             [by eauto|]. by rewrite Eb in Hn.
    + split.
      * intros k ws H. destruct (decide (k = line_num b)) as [->|Hne].
        -- rewrite lookup_insert_eq in H. injection H as <-.
           split; [by destruct (default [] (lines !! line_num b))|].
           intros w [Hw| ->%list_elem_of_singleton]%elem_of_app.
           ++ destruct (lines !! line_num b) as [ws|] eqn:El;
                [|inversion Hw].
              destruct (I1 _ _ El) as [_ Hws].
              destruct (Hws w Hw) as (b' & Hb' & Hwb).
              exists b'. split; [|done]. apply elem_of_app. by left.
           ++ exists b. split; [apply elem_of_app; right;
                                 apply list_elem_of_here|].
              unfold word_of_box. cbn. by rewrite Eb.
        -- rewrite lookup_insert_ne in H by done.
           destruct (I1 k ws H) as [Hn Hws]. split; [done|].
           intros w Hw. destruct (Hws w Hw) as (b' & Hb' & Hwb).
           exists b'. split; [|done]. apply elem_of_app. by left.
      * intros k. destruct (decide (k = line_num b)) as [->|Hne].
        -- rewrite lookup_insert_eq. split; [|by eexists].
           intros _. exists b. split; [|by rewrite Eb].
           apply elem_of_app. right. apply list_elem_of_here.
        -- rewrite lookup_insert_ne by done. rewrite I2. split.
           ++ intros (b' & Hb' & Hk). exists b'. split; [|done].
              apply elem_of_app. by left.
           ++ intros (b' & [Hb'| ->%list_elem_of_singleton]%elem_of_app
                      & Hk & Hn); [by eauto|]. done.
Qed.

Lemma Qeq_bool_inject_Z_0 z : Qeq_bool (inject_Z z) 0 = true ↔ z = 0%Z.
Proof.
  rewrite Qeq_bool_iff. unfold Qeq. cbn. lia.
Qed.

Lemma unit_of_line_Some img_width img_height i w ws :
  img_width ≠ 0%Z → img_height ≠ 0%Z →
  is_Some (unit_of_line img_width img_height i w ws).
Proof.
  intros Hw Hh. unfold unit_of_line, py_div.
  assert (∀ z, z ≠ 0%Z → Qeq_bool (inject_Z z) 0 = false) as Hnz.
  { intros z Hz. apply not_true_iff_false.
    by rewrite Qeq_bool_inject_Z_0. }
  rewrite (Hnz _ Hw), (Hnz _ Hh). cbn. by eexists.
Qed.

Lemma unit_of_line_inv img_width img_height i w ws u :
  unit_of_line img_width img_height i w ws = Some u →
  let words := w :: ws in
  let min_left := foldl Z.min (word_left w) (map word_left ws) in
  let min_top := foldl Z.min (word_top w) (map word_top ws) in
  let max_right :=
    foldl Z.max (word_left w + word_width w)%Z
      (map (λ w, (word_left w + word_width w)%Z) ws) in
  let max_bottom :=
    foldl Z.max (word_top w + word_height w)%Z
      (map (λ w, (word_top w + word_height w)%Z) ws) in
  let line_text := join_space (map word_text words) in
  img_width ≠ 0%Z ∧ img_height ≠ 0%Z
  ∧ u = {| unit_text := line_text;
           unit_type := classify_unit_type line_text (Z.of_nat (length words));
           bbox_x := round2 (inject_Z min_left / inject_Z img_width * 100);
           bbox_y := round2 (inject_Z min_top / inject_Z img_height * 100);
           bbox_w :=
             round2 (inject_Z (max_right - min_left) / inject_Z img_width
                     * 100);
           bbox_h :=
             round2 (inject_Z (max_bottom - min_top) / inject_Z img_height
                     * 100);
           confidence :=
             round3 (Qsum (map word_conf words) / Qofnat (length words));
           sort_order := i;
           metadata :=
             {| word_count := length words;
                has_diacritics :=
                  ImageAnalyzer.has_arabic_diacritics line_text;
                diacritics_count := count_diacritics line_text;
                source := "tesseract" |} |}.
Proof.
  unfold unit_of_line. cbv zeta. intros H.
  apply bind_Some in H as (x & Ex & H).
  apply bind_Some in H as (y & Ey & H).
  apply bind_Some in H as (bw & Ew & H).
  apply bind_Some in H as (bh & Eh & H).
  injection H as <-.
  unfold py_div in *.
  destruct (Qeq_bool (inject_Z img_width) 0) eqn:E1; [done|].
  destruct (Qeq_bool (inject_Z img_height) 0) eqn:E2; [done|].
  injection Ex as <-. injection Ey as <-.
  injection Ew as <-. injection Eh as <-.
  split; [|split; [|done]]; intros ->; by rewrite ?E1, ?E2 in *.
Qed.

Lemma unit_of_line_None img_width img_height i w ws :
  img_width = 0%Z ∨ img_height = 0%Z →
  unit_of_line img_width img_height i w ws = None.
Proof.
  intros H. unfold unit_of_line, py_div.
  destruct H as [-> | ->]; [done|].
  by destruct (Qeq_bool (inject_Z img_width) 0).
Qed.

Lemma process_lines_Some img_width img_height lines keys :
  img_width ≠ 0%Z → img_height ≠ 0%Z →
  (∀ k, k ∈ keys → ∃ w ws, lines !! k = Some (w :: ws)) →
  ∀ units sort_idx,
    ∃ new,
      process_lines img_width img_height lines keys units sort_idx
        = Some (units ++ new)
      ∧ Forall2 (λ k u, ∃ i w ws, lines !! k = Some (w :: ws)
                   ∧ unit_of_line img_width img_height i w ws = Some u)
          keys new
      ∧ ∀ j u, new !! j = Some u → sort_order u = sort_idx + j.
Proof.
  intros Hw Hh. induction keys as [|k keys IH]; intros Hkeys units sort_idx.
  - exists []. cbn. rewrite app_nil_r. split; [done|]. split; [constructor|].
    intros j u H. done.
  - cbn [process_lines].
    destruct (Hkeys k ltac:(apply list_elem_of_here)) as (w & ws & Hk).
    destruct (unit_of_line_Some img_width img_height sort_idx w ws Hw Hh)
      as [u Hu].
    rewrite Hk, Hu. cbn.
    destruct (IH ltac:(intros k' Hk'; by apply Hkeys, list_elem_of_further)
                (units ++ [u]) (S sort_idx)) as (new & -> & Hnew & Hidx).
    exists (u :: new). rewrite <- app_assoc. split; [done|]. split.
    + constructor; [|done]. by exists sort_idx, w, ws.
    + intros [|j] u' Hj; cbn in Hj.
      * injection Hj as <-. rewrite Nat.add_0_r.
        by apply unit_of_line_inv in Hu as (_ & _ & ->).
      * rewrite (Hidx j u' Hj). lia.
Qed.

Lemma process_lines_None img_width img_height lines keys :
  img_width = 0%Z ∨ img_height = 0%Z →
  (∀ k, k ∈ keys → ∃ w ws, lines !! k = Some (w :: ws)) →
  keys ≠ [] →
  ∀ units sort_idx,
    process_lines img_width img_height lines keys units sort_idx = None.
Proof.
  intros Hz Hkeys Hne units sort_idx. destruct keys as [|k keys]; [done|].
  cbn [process_lines].
  destruct (Hkeys k ltac:(apply list_elem_of_here)) as (w & ws & ->).
  by rewrite unit_of_line_None.
Qed.

(** The sorted keys of the table. *)
Lemma sorted_keys_spec (lines : gmap Z (list OcrWord)) :
  let keys := sorted_by Z.ltb (λ k, k) (map fst (map_to_list lines)) in
  (∀ k, k ∈ keys ↔ is_Some (lines !! k))
  ∧ length keys = size lines
  ∧ StronglySorted Z.le keys.
Proof.
  cbn zeta. split; [|split].
  - intros k. rewrite sorted_by_perm. rewrite list_elem_of_fmap. split.
    + intros ([k' ws] & -> & Hin%elem_of_map_to_list). by eexists.
    + intros [ws Hws]. exists (k, ws). split; [done|].
      by apply elem_of_map_to_list.
  - rewrite sorted_by_perm, length_map. apply length_map_to_list.
  - apply (sorted_by_sorted Z.ltb (λ k : Z, k) Z.le); intros x y; [lia|..];
      rewrite ?Z.ltb_lt, ?Z.ltb_ge; lia.
Qed.

Lemma units_of_boxes_spec img_width img_height data :
  let lines := foldl group_step ∅ data in
  let keys := sorted_by Z.ltb (λ k, k) (map fst (map_to_list lines)) in
  (img_width = 0%Z ∨ img_height = 0%Z →
   units_of_boxes img_width img_height data = [])
  ∧ (img_width ≠ 0%Z → img_height ≠ 0%Z →
     Forall2 (λ k u, ∃ i w ws, lines !! k = Some (w :: ws)
                ∧ unit_of_line img_width img_height i w ws = Some u)
       keys (units_of_boxes img_width img_height data))
  ∧ ∀ j u, units_of_boxes img_width img_height data !! j = Some u →
      sort_order u = j.
Proof.
  cbn zeta. unfold units_of_boxes.
  set (lines := foldl group_step ∅ data).
  set (keys := sorted_by Z.ltb (λ k, k) (map fst (map_to_list lines))).
  assert (∀ k, k ∈ keys → ∃ w ws, lines !! k = Some (w :: ws)) as Hkeys.
  { intros k Hk. apply (sorted_keys_spec lines) in Hk as [ws Hws].
    destruct (lines_invariant data) as [I1 _].
    destruct (I1 k ws Hws) as [Hne _]. destruct ws as [|w ws]; [done|].
    by exists w, ws. }
  assert (img_width = 0%Z ∨ img_height = 0%Z →
          default [] (process_lines img_width img_height lines keys [] 0)
          = []) as Hzero.
  { intros Hz. destruct keys as [|k keys'] eqn:E; [done|].
    by rewrite (process_lines_None _ _ lines (k :: keys') Hz Hkeys). }
  split; [done|].
  destruct (decide (img_width = 0%Z)) as [Hw|Hw].
  { rewrite Hzero by by left. split; [done|]. intros j u H. done. }
  destruct (decide (img_height = 0%Z)) as [Hh|Hh].
  { rewrite Hzero by by right. split; [done|]. intros j u H. done. }
  destruct (process_lines_Some _ _ lines keys Hw Hh Hkeys [] 0)
    as (new & -> & Hnew & Hidx).
  cbn. split; [done|]. intros j u Hj. by rewrite (Hidx j u Hj).
Qed.

Lemma has_arabic_diacritics_count t :
  ImageAnalyzer.has_arabic_diacritics t = true ↔ 0 < count_diacritics t.
Proof.
  unfold ImageAnalyzer.has_arabic_diacritics, count_diacritics.
  induction t as [|c t IH]; cbn; [split; [done|lia]|].
  destruct (bool_decide (c ∈ ImageAnalyzer.ARABIC_DIACRITICS)); cbn;
    [split; [lia|done]|done].
Qed.

Lemma join_space_nonempty t ts : t ≠ [] → join_space (t :: ts) ≠ [].
Proof.
  intros Ht. cbn. destruct ts; [done|].
  intros [H _]%app_nil. done.
Qed.

(** X21. The units built from a table of OCR boxes are numbered
    consecutively: the unit at position [j] has [sort_order = j].  There
    is one unit per line number that holds a box with non-blank text, and
    none at all when the image width or height is zero (the division by
    zero is caught and the result is the empty list). *)
Theorem units_are_numbered_by_line
    (img_width img_height : Z) (data : list OcrBox) :
  (∀ j u, units_of_boxes img_width img_height data !! j = Some u →
     sort_order u = j)
  ∧ (img_width = 0%Z ∨ img_height = 0%Z →
     units_of_boxes img_width img_height data = [])
  ∧ (img_width ≠ 0%Z → img_height ≠ 0%Z →
     length (units_of_boxes img_width img_height data)
     = size (list_to_set
               (map line_num
                  (List.filter
                     (λ b, negb (bool_decide (strip (box_text b) = [])))
                     data)) : gset Z)).
Proof.
  destruct (units_of_boxes_spec img_width img_height data)
    as (Hzero & Hunits & Hidx).
  split; [done|]. split; [done|]. intros Hw Hh.
  rewrite <- (Forall2_length _ _ _ (Hunits Hw Hh)).
  destruct (sorted_keys_spec (foldl group_step ∅ data)) as (_ & -> & _).
  rewrite <- size_dom. f_equal. apply set_eq. intros k.
  rewrite elem_of_dom, elem_of_list_to_set, list_elem_of_fmap.
  destruct (lines_invariant data) as [_ I2]. rewrite I2. split.
  - intros (b & Hb & Hk & Hne). exists b. split; [done|].
    apply list_elem_of_In, filter_In. rewrite <- list_elem_of_In.
    split; [done|]. by rewrite bool_decide_false.
  - intros (b & -> & Hb). apply list_elem_of_In, filter_In in Hb as [Hb Hne].
    exists b. rewrite list_elem_of_In. split; [done|]. split; [done|].
    apply negb_true_iff, bool_decide_eq_false in Hne. done.
Qed.

Lemma line_boxes_snoc k data b :
  line_boxes k (data ++ [b])
  = line_boxes k data
    ++ (if (line_num b =? k)%Z
           && negb (bool_decide (strip (box_text b) = []))
        then [b] else []).
Proof.
  unfold line_boxes. rewrite List.filter_app. cbn [List.filter].
  by destruct (_ && _).
Qed.

(** The table [lines] holds, under every line number, the non-blank boxes
    of that line in the order of the table, and nothing else. *)
Lemma lines_lookup data k :
  foldl group_step ∅ data !! k
  = match line_boxes k data with
    | [] => None
    | _ :: _ => Some (map word_of (line_boxes k data))
    end.
Proof.
  induction data as [|b data IH] using rev_ind;
    [cbn [foldl]; by rewrite lookup_empty|].
  rewrite foldl_app, line_boxes_snoc. cbn [foldl]. rewrite group_step_eq.
  destruct (strip (box_text b)) as [|c t] eqn:Eb.
  { rewrite bool_decide_true by done. rewrite andb_false_r, app_nil_r.
    exact IH. }
  rewrite bool_decide_false by done. rewrite andb_true_r.
  destruct (Z.eqb_spec (line_num b) k) as [->|Hne].
  - rewrite lookup_insert_eq, IH.
    assert (word_of b
            = {| word_text := c :: t; word_left := left b;
                 word_top := top b; word_width := width b;
                 word_height := height b;
                 word_conf := Qmaxb 0 (conf b / 100) |}) as <-
      by (unfold word_of; by rewrite Eb).
    destruct (line_boxes _ data) as [|b0 bs]; [done|].
    cbn [default app map]. by rewrite map_app.
  - rewrite lookup_insert_ne by done. by rewrite app_nil_r.
Qed.

Lemma StronglySorted_le_lt (l : list Z) :
  StronglySorted Z.le l → NoDup l → StronglySorted Z.lt l.
Proof.
  induction 1 as [|x l _ IH Hx]; intros Hnd; [constructor|].
  apply NoDup_cons in Hnd as [Hnin Hnd]. constructor; [by apply IH|].
  apply Forall_forall. intros y Hy.
  assert (x ≤ y)%Z by by eapply Forall_forall in Hx.
  assert (x ≠ y) by (intros ->; done). lia.
Qed.

Lemma sorted_keys_strict (lines : gmap Z (list OcrWord)) :
  StronglySorted Z.lt
    (sorted_by Z.ltb (λ k, k) (map fst (map_to_list lines))).
Proof.
  apply StronglySorted_le_lt; [apply sorted_keys_spec|].
  rewrite sorted_by_perm. apply NoDup_fst_map_to_list.
Qed.

(** X22. The unit at position [j] describes the line with the [j]-th
    smallest line number among the lines that hold a box with non-blank
    text: its text is the trimmed texts of all the non-blank boxes of that
    line, each once and in the order of the table, joined by single
    spaces, and it is not empty; [word_count] is the number of those
    boxes; the unit type is the one [classify_unit_type] gives for that
    text and count (never [drill_group]); the metadata hold the diacritics
    flag and count of that text, the flag being set exactly when the count
    is positive. *)
Theorem units_describe_their_line
    (img_width img_height : Z) (data : list OcrBox) (j : nat)
    (u : AnalyzedUnit) :
  units_of_boxes img_width img_height data !! j = Some u →
  ∃ keys k,
    StronglySorted Z.lt keys
    ∧ (∀ k', k' ∈ keys ↔ line_boxes k' data ≠ [])
    ∧ keys !! j = Some k
    ∧ line_boxes k data ≠ []
    ∧ unit_text u
      = join_space (map (λ b, strip (box_text b)) (line_boxes k data))
    ∧ unit_text u ≠ []
    ∧ word_count (metadata u) = length (line_boxes k data)
    ∧ unit_type u
      = classify_unit_type (unit_text u)
          (Z.of_nat (length (line_boxes k data)))
    ∧ unit_type u ≠ drill_group
    ∧ has_diacritics (metadata u)
      = ImageAnalyzer.has_arabic_diacritics (unit_text u)
    ∧ diacritics_count (metadata u) = count_diacritics (unit_text u)
    ∧ (has_diacritics (metadata u) = true ↔
       0 < diacritics_count (metadata u))
    ∧ source (metadata u) = "tesseract"%string.
Proof.
  intros Hj.
  destruct (units_of_boxes_spec img_width img_height data)
    as (Hzero & Hunits & _).
  destruct (decide (img_width = 0%Z)) as [Hw|Hw].
  { rewrite Hzero in Hj by by left. done. }
  destruct (decide (img_height = 0%Z)) as [Hh|Hh].
  { rewrite Hzero in Hj by by right. done. }
  specialize (Hunits Hw Hh).
  destruct (Forall2_lookup_r _ _ _ _ _ Hunits Hj)
    as (k & Hkey & i & w & ws & Hk & Hline).
  set (lines := foldl group_step ∅ data) in *.
  exists (sorted_by Z.ltb (λ k, k) (map fst (map_to_list lines))), k.
  split; [apply sorted_keys_strict|]. split.
  { intros k'. destruct (sorted_keys_spec lines) as (-> & _).
    unfold lines. rewrite lines_lookup.
    destruct (line_boxes k' data) as [|b1 bs1].
    - split; [by intros [? ?]|done].
    - split; [done|]. intros _. by eexists. }
  split; [done|].
  unfold lines in Hk. rewrite lines_lookup in Hk.
  destruct (line_boxes k data) as [|b0 bs] eqn:Eb; [done|].
  injection Hk as <- <-.
  split; [done|].
  apply unit_of_line_inv in Hline as (_ & _ & ->).
  cbn [unit_text unit_type metadata word_count has_diacritics
       diacritics_count source].
  assert (map word_text (word_of b0 :: map word_of bs)
          = map (λ b, strip (box_text b)) (b0 :: bs)) as Htexts.
  { cbn [map]. f_equal. by rewrite map_map. }
  assert (length (word_of b0 :: map word_of bs) = length (b0 :: bs)) as Hlen
    by (cbn [length]; by rewrite length_map).
  rewrite Htexts, Hlen.
  split; [done|]. split.
  { cbn [map]. apply join_space_nonempty.
    assert (b0 ∈ line_boxes k data) as Hin
      by (rewrite Eb; apply list_elem_of_here).
    apply list_elem_of_In, filter_In in Hin as [_ Hc].
    apply andb_true_iff in Hc as [_ Hc].
    by apply negb_true_iff, bool_decide_eq_false in Hc. }
  split; [done|]. split; [done|].
  split; [apply classify_unit_type_cases|].
  split; [done|]. split; [done|].
  split; [apply has_arabic_diacritics_count|done].
Qed.

Lemma units_describe_their_line_witness :
  ∃ (u : AnalyzedUnit) (keys : list Z) (k : Z),
    units_of_boxes 1000 2000
      [ {| box_text := [0x0628; 0x064E]%N; line_num := 1; left := 10;
           top := 20; width := 30; height := 40; conf := 80 |} ]
    = [u]
    ∧ keys !! 0 = Some k
    ∧ unit_text u ≠ [] ∧ unit_type u = letter.
Proof.
  eexists.
  destruct (units_describe_their_line 1000 2000
    [ {| box_text := [0x0628; 0x064E]%N; line_num := 1; left := 10;
         top := 20; width := 30; height := 40; conf := 80 |} ] 0 _
    ltac:(vm_compute; reflexivity))
    as (keys & k & _ & _ & Hk & _ & _ & Hne & _).
  exists keys, k. split; [vm_compute; reflexivity|].
  split; [exact Hk|]. split; [exact Hne|reflexivity].
Defined.

Lemma foldl_Zmin_bounds l : ∀ a lo hi,
  (lo ≤ a ≤ hi)%Z → Forall (λ x, (lo ≤ x ≤ hi)%Z) l →
  (lo ≤ foldl Z.min a l ≤ hi)%Z ∧ (foldl Z.min a l ≤ a)%Z.
Proof.
  induction l as [|x l IH]; intros a lo hi Ha Hl; cbn; [lia|].
  inversion Hl as [|? ? Hx Hl']; subst.
  destruct (IH (Z.min a x) lo hi ltac:(lia) Hl') as [H1 H2]. lia.
Qed.

Lemma foldl_Zmax_bounds l : ∀ a lo hi,
  (lo ≤ a ≤ hi)%Z → Forall (λ x, (lo ≤ x ≤ hi)%Z) l →
  (lo ≤ foldl Z.max a l ≤ hi)%Z ∧ (a ≤ foldl Z.max a l)%Z.
Proof.
  induction l as [|x l IH]; intros a lo hi Ha Hl; cbn; [lia|].
  inversion Hl as [|? ? Hx Hl']; subst.
  destruct (IH (Z.max a x) lo hi ltac:(lia) Hl') as [H1 H2]. lia.
Qed.

Lemma percent_bounds m n :
  (0 ≤ m ≤ n)%Z → (0 < n)%Z →
  (0 <= inject_Z m / inject_Z n * 100 ∧ inject_Z m / inject_Z n * 100 <= 100)%Q.
Proof.
  intros Hm Hn.
  assert (0 < inject_Z n)%Q as Hn'
    by (change 0%Q with (inject_Z 0); rewrite <- Zlt_Qlt; lia).
  assert (0 <= inject_Z m)%Q as Hm0
    by (change 0%Q with (inject_Z 0); rewrite <- Zle_Qle; lia).
  assert (inject_Z m <= inject_Z n)%Q as Hmn by (rewrite <- Zle_Qle; lia).
  assert (0 <= inject_Z m / inject_Z n)%Q as H0.
  { apply Qle_shift_div_l; [done|]. lra. }
  assert (inject_Z m / inject_Z n <= 1)%Q as H1.
  { apply Qle_shift_div_r; [done|]. lra. }
  split; lra.
Qed.

Lemma round2_percent q :
  (0 <= q)%Q → (q <= 100)%Q → (0 <= round2 q)%Q ∧ (round2 q <= 100)%Q.
Proof.
  intros H0 H1. split.
  - apply (round2_mono 0 q H0).
  - apply (round2_mono q 100 H1).
Qed.

Lemma round3_mono x y : (x <= y)%Q → (round3 x <= round3 y)%Q.
Proof.
  intros H. unfold round3. rewrite !Qred_correct.
  apply Qmult_le_compat_r; [|done].
  rewrite <- Zle_Qle. apply round_half_even_mono. lra.
Qed.

Lemma Qsum_bounds l : ∀ a,
  Forall (λ x, (0 <= x)%Q ∧ (x <= 1)%Q) l →
  (a <= foldl Qplus a l)%Q
  ∧ (foldl Qplus a l <= a + Qofnat (length l))%Q.
Proof.
  induction l as [|x l IH]; intros a Hl.
  - cbn [foldl length]. unfold Qofnat.
    change (inject_Z (Z.of_nat 0)) with 0%Q. split; lra.
  - inversion Hl as [|? ? [Hx0 Hx1] Hl']; subst. cbn [foldl length].
    destruct (IH (a + x)%Q Hl') as [H1 H2].
    unfold Qofnat in *. rewrite Nat2Z.inj_succ, <- Z.add_1_r, inject_Z_plus.
    change (inject_Z 1) with 1%Q. split; lra.
Qed.

(** X23. When the image has a positive width and height and every box
    with non-blank text lies inside the image with a confidence of at
    most 100, every unit has [bbox_x], [bbox_y], [bbox_w] and [bbox_h]
    between 0 and 100 and a confidence between 0 and 1. *)
Theorem units_lie_inside_the_page
    (img_width img_height : Z) (data : list OcrBox) (u : AnalyzedUnit) :
  (0 < img_width)%Z → (0 < img_height)%Z →
  (∀ b, b ∈ data → strip (box_text b) ≠ [] →
     (0 ≤ left b ∧ 0 ≤ width b ∧ left b + width b ≤ img_width
      ∧ 0 ≤ top b ∧ 0 ≤ height b ∧ top b + height b ≤ img_height)%Z
     ∧ (conf b <= 100)%Q) →
  u ∈ units_of_boxes img_width img_height data →
  ((0 <= bbox_x u)%Q ∧ (bbox_x u <= 100)%Q)
  ∧ ((0 <= bbox_y u)%Q ∧ (bbox_y u <= 100)%Q)
  ∧ ((0 <= bbox_w u)%Q ∧ (bbox_w u <= 100)%Q)
  ∧ ((0 <= bbox_h u)%Q ∧ (bbox_h u <= 100)%Q)
  ∧ ((0 <= confidence u)%Q ∧ (confidence u <= 1)%Q).
Proof.
  intros Hw Hh Hin Hu.
  destruct (units_of_boxes_spec img_width img_height data)
    as (_ & Hunits & _).
  specialize (Hunits ltac:(lia) ltac:(lia)).
  apply list_elem_of_lookup in Hu as [j Hj].
  destruct (Forall2_lookup_r _ _ _ _ _ Hunits Hj)
    as (k & _ & i & w & ws & Hk & Hline).
  destruct (lines_invariant data) as [I1 _].
  destruct (I1 k _ Hk) as [_ Hwords].
  assert (Forall (λ w, (0 ≤ word_left w ∧ 0 ≤ word_width w
                        ∧ word_left w + word_width w ≤ img_width
                        ∧ 0 ≤ word_top w ∧ 0 ≤ word_height w
                        ∧ word_top w + word_height w ≤ img_height)%Z
                       ∧ (0 <= word_conf w)%Q ∧ (word_conf w <= 1)%Q)
            (w :: ws)) as Hall.
  { apply Forall_forall. intros w' Hw'.
    destruct (Hwords w' Hw')
      as (b & Hb & _ & Et & Hne & -> & -> & -> & -> & ->).
    rewrite Et in Hne. destruct (Hin b Hb Hne) as [Hbox Hconf].
    split; [done|]. split; [apply Qmaxb_ge_l|].
    unfold Qmaxb. destruct (Qltb 0 (conf b / 100)); [|done].
    apply Qle_shift_div_r; [done|]. lra. }
  inversion Hall as [|? ? Hw0 Hws]; subst.
  apply unit_of_line_inv in Hline as (_ & _ & ->).
  cbn [bbox_x bbox_y bbox_w bbox_h confidence].
  destruct (foldl_Zmin_bounds (map word_left ws) (word_left w) 0 img_width)
    as [Hl1 Hl2]; [lia| |].
  { apply Forall_fmap. eapply Forall_impl; [exact Hws|]. cbn. lia. }
  destruct (foldl_Zmin_bounds (map word_top ws) (word_top w) 0 img_height)
    as [Ht1 Ht2]; [lia| |].
  { apply Forall_fmap. eapply Forall_impl; [exact Hws|]. cbn. lia. }
  destruct (foldl_Zmax_bounds
              (map (λ w, (word_left w + word_width w)%Z) ws)
              (word_left w + word_width w)%Z 0 img_width)
    as [Hr1 Hr2]; [lia| |].
  { apply Forall_fmap. eapply Forall_impl; [exact Hws|]. cbn. lia. }
  destruct (foldl_Zmax_bounds
              (map (λ w, (word_top w + word_height w)%Z) ws)
              (word_top w + word_height w)%Z 0 img_height)
    as [Hb1 Hb2]; [lia| |].
  { apply Forall_fmap. eapply Forall_impl; [exact Hws|]. cbn. lia. }
  split; [apply round2_percent; apply percent_bounds; lia|].
  split; [apply round2_percent; apply percent_bounds; lia|].
  split; [apply round2_percent; apply percent_bounds; lia|].
  split; [apply round2_percent; apply percent_bounds; lia|].
  split.
  - apply (round3_mono 0). unfold Qsum.
    destruct (Qsum_bounds (map word_conf (w :: ws)) 0) as [H1 _].
    { apply Forall_fmap. eapply Forall_impl; [exact Hall|]. cbn. tauto. }
    apply Qle_shift_div_l; [|lra].
    unfold Qofnat. change 0%Q with (inject_Z 0). rewrite <- Zlt_Qlt.
    cbn [length]. lia.
  - apply (round3_mono _ 1). unfold Qsum.
    destruct (Qsum_bounds (map word_conf (w :: ws)) 0) as [_ H2].
    { apply Forall_fmap. eapply Forall_impl; [exact Hall|]. cbn. tauto. }
    rewrite length_map in H2.
    apply Qle_shift_div_r; [|lra].
    unfold Qofnat. change 0%Q with (inject_Z 0). rewrite <- Zlt_Qlt.
    cbn [length]. lia.
Qed.

Lemma units_lie_inside_the_page_witness :
  ∃ u, units_of_boxes 1000 2000
         [ {| box_text := [0x0628; 0x064E]%N; line_num := 1; left := 10;
              top := 20; width := 30; height := 40; conf := 80 |} ]
       = [u]
    ∧ (bbox_x u <= 100)%Q.
Proof.
  eexists. split; [vm_compute; reflexivity|].
  refine (proj2 (proj1 (units_lie_inside_the_page 1000 2000
    [ {| box_text := [0x0628; 0x064E]%N; line_num := 1; left := 10;
         top := 20; width := 30; height := 40; conf := 80 |} ] _
    ltac:(lia) ltac:(lia) _ ltac:(vm_compute; apply list_elem_of_here)))).
  intros b ->%list_elem_of_singleton _. cbn. split; [lia|]. by vm_compute.
Defined.

(** *** Letters as the two services count them *)

Lemma lstrip_decomp t :
  ∃ a, t = a ++ lstrip t ∧ Forall (λ c, isspace c = true) a.
Proof.
  induction t as [|c t (a & E & Ha)]; [by exists []|]. cbn.
  destruct (isspace c) eqn:Hc; [|by exists []].
  exists (c :: a). split; [by rewrite E at 1|by constructor].
Qed.

Lemma strip_decomp t :
  ∃ a b, t = a ++ strip t ++ b
    ∧ Forall (λ c, isspace c = true) a ∧ Forall (λ c, isspace c = true) b.
Proof.
  destruct (lstrip_decomp t) as (a & Et & Ha).
  destruct (lstrip_decomp (reverse (lstrip t))) as (b & Eb & Hb).
  exists a, (reverse b). split; [|split; [done|by apply Forall_reverse]].
  unfold strip. rewrite <- reverse_app, <- Eb, reverse_involutive. done.
Qed.

Lemma isspace_not_letter c : isspace c = true → is_arabic_letter c = false.
Proof.
  unfold isspace, is_arabic_letter.
  rewrite !orb_true_iff, !orb_false_iff, !between_spec, !N.eqb_eq.
  intros H. split; apply not_true_iff_false; rewrite between_spec; lia.
Qed.

Lemma filter_letters_of_blanks l :
  Forall (λ c, isspace c = true) l → List.filter is_arabic_letter l = [].
Proof.
  induction 1 as [|c l Hc _ IH]; [done|].
  cbn. by rewrite (isspace_not_letter _ Hc).
Qed.

Lemma letter_is_counted c :
  is_arabic_letter c = true →
  (c ∉ ImageAnalyzer.ARABIC_DIACRITICS) ∧ c ≠ 0x20%N
  ∧ (between 0x0600 0x06FF c || between 0x0750 0x077F c) = true.
Proof.
  intros Hc. pose proof (is_arabic_letter_not_diacritic _ Hc) as Hd.
  revert Hc Hd. unfold is_arabic_letter, is_diacritic.
  rewrite !orb_true_iff, !orb_false_iff, !between_spec.
  intros Hc ((_ & Hd) & H670). apply not_true_iff_false in Hd, H670.
  rewrite between_spec in Hd. rewrite N.eqb_eq in H670.
  split; [|split; [lia|left; lia]].
  unfold ImageAnalyzer.ARABIC_DIACRITICS.
  rewrite !elem_of_cons, elem_of_nil. lia.
Qed.

Lemma letters_are_counted l :
  length (List.filter is_arabic_letter l) ≤ length (counted_letters l).
Proof.
  unfold counted_letters.
  induction l as [|c l IH]; [done|]. cbn [List.filter].
  destruct (is_arabic_letter c) eqn:Hc.
  - destruct (letter_is_counted _ Hc) as (Hd & Hsp & Hb).
    rewrite (bool_decide_false _ Hd).
    apply N.eqb_neq in Hsp. rewrite Hsp. cbn [negb andb List.filter].
    rewrite Hb. cbn [length]. lia.
  - match goal with |- context [if ?b then _ else _] => destruct b end;
      [|exact IH].
    cbn [List.filter].
    destruct (between 0x0600 0x06FF c || between 0x0750 0x077F c);
      [cbn [length]; lia|done].
Qed.

(** X24. Every base letter of the sectioning service ([is_arabic_letter],
    diacritics removed) is one of the code points [classify_unit_type]
    counts, and white space around the text holds none; so a text the image
    analyzer classifies as [letter] has a single word and at most two base
    letters in the sense of [count_chars]. *)
Theorem letter_units_have_few_letters (t : text) (word_count : Z) :
  count_chars t = count_chars (strip t)
  ∧ count_chars t ≤ length (counted_letters (strip t))
  ∧ (classify_unit_type t word_count = letter →
     (word_count ≤ 1)%Z ∧ count_chars t ≤ 2).
Proof.
  assert (count_chars t = count_chars (strip t)) as E.
  { destruct (strip_decomp t) as (a & b & Et & Ha & Hb).
    unfold count_chars. rewrite !extract_arabic_letters_filter.
    rewrite Et at 1. rewrite !List.filter_app.
    rewrite (filter_letters_of_blanks _ Ha), (filter_letters_of_blanks _ Hb).
    by rewrite app_nil_r. }
  assert (count_chars t ≤ length (counted_letters (strip t))) as Hle.
  { rewrite E. unfold count_chars. rewrite extract_arabic_letters_filter.
    apply letters_are_counted. }
  split; [done|]. split; [done|].
  rewrite classify_unit_type_eq.
  destruct (forallb is_decoration (strip t)); [done|].
  destruct (Nat.leb_spec (length (counted_letters (strip t))) 2) as [H2|H2];
    destruct (Z.leb_spec word_count 1); cbn [andb]; try done.
  - intros _. split; [done|lia].
  - by destruct (word_count <=? 4)%Z.
  - by destruct (word_count <=? 4)%Z.
Qed.

End ImageAnalysisFacts.

(** ** Properties of the section handlers *)

Section AdminBookFacts.
Import AdminBook.

Lemma index_spec x l :
  match index x l with
  | Some i => ∃ a b, l = a ++ x :: b ∧ (x ∉ a) ∧ length a = i
  | None => x ∉ l
  end.
Proof.
  induction l as [|y l IH]; cbn; [by intros ?%elem_of_nil|].
  destruct (Z.eqb_spec y x) as [->|Hne].
  - exists [], l. split; [done|]. split; [by intros ?%elem_of_nil|done].
  - destruct (index x l) as [i|]; cbn.
    + destruct IH as (a & b & -> & Ha & <-). exists (y :: a), b.
      split; [done|]. split; [|done].
      intros [?|?]%elem_of_cons; [congruence|done].
    + intros [?|?]%elem_of_cons; [congruence|done].
Qed.

(** X25. [split_section] cuts the section's [unit_ids] right after the first
    occurrence of [split_after_unit_id]: the two halves concatenate to the
    original list, the first half ends with that id and holds it only
    there, and the second half is not empty.  It answers with status 400
    exactly when the id is not in the list or its first occurrence is the
    last element, and no Python exception escapes. *)
Theorem split_section_halves (unit_ids : list Z) (split_after_unit_id : Z) :
  match split_section unit_ids split_after_unit_id with
  | Return (first_half, second_half) =>
      first_half ++ second_half = unit_ids
      ∧ second_half ≠ []
      ∧ ∃ before, first_half = before ++ [split_after_unit_id]
                  ∧ split_after_unit_id ∉ before
  | HTTPError status_code _ =>
      status_code = 400
      ∧ (split_after_unit_id ∉ unit_ids
         ∨ ∃ before, unit_ids = before ++ [split_after_unit_id]
                     ∧ split_after_unit_id ∉ before)
  | Unhandled _ => False
  end.
Proof.
  unfold split_section.
  destruct (decide (split_after_unit_id ∈ unit_ids)) as [Hin|Hnin].
  2: { rewrite bool_decide_false by done. cbn. by split; [|left]. }
  rewrite bool_decide_true by done. cbn [negb].
  pose proof (index_spec split_after_unit_id unit_ids) as Hi.
  destruct (index split_after_unit_id unit_ids) as [i|]; [|done].
  destruct Hi as (a & b & -> & Ha & <-).
  rewrite length_app. cbn [length].
  destruct (Nat.leb_spec (length a + S (length b)) (length a + 1)) as [Hl|Hl].
  - split; [done|]. right. exists a. split; [|done].
    destruct b; [done|]. cbn in Hl. lia.
  - replace (a ++ split_after_unit_id :: b)
      with ((a ++ [split_after_unit_id]) ++ b) by by rewrite <- app_assoc.
    rewrite take_app_length', drop_app_length'
      by (rewrite length_app; cbn; lia).
    split; [done|]. split; [|by exists a].
    destruct b; [cbn in Hl; lia|done].
Qed.

End AdminBookFacts.

(** ** The informational checks *)

(** X26. The audio coverage reported by [check_audio_coverage] is a
    fraction: the number of units with audio does not exceed the total, the
    coverage lies between 0 and 1, and it is 0 when no unit carries an
    audio segment. *)
Theorem audio_coverage_is_a_fraction (units : list TextUnit) :
  ∃ with_audio coverage,
    details (check_audio_coverage units)
    = AudioDetails (length units) with_audio coverage
    ∧ with_audio ≤ length units
    ∧ (0 <= coverage)%Q ∧ (coverage <= 1)%Q
    ∧ (Forall (λ u, has_audio u = false) units →
       with_audio = 0 ∧ coverage = 0%Q).
Proof.
  unfold check_audio_coverage. cbn [details].
  eexists _, _. split; [reflexivity|].
  pose proof (List.filter_length_le has_audio units) as Hle.
  split; [done|].
  assert (∀ q, (0 <= q)%Q → (q <= 1)%Q →
               (0 <= round2 q)%Q ∧ (round2 q <= 1)%Q) as Hround.
  { intros q H0 H1. split; [apply (round2_mono 0 q H0)|].
    apply (round2_mono q 1 H1). }
  destruct (Nat.ltb_spec 0 (length units)) as [Hpos|Hzero].
  - assert (0 < Qofnat (length units))%Q as Hq.
    { unfold Qofnat. change 0%Q with (inject_Z 0). rewrite <- Zlt_Qlt. lia. }
    split; [|split].
    + apply Hround.
      * apply Qle_shift_div_l; [done|]. rewrite Qmult_0_l.
        unfold Qofnat. change 0%Q with (inject_Z 0). rewrite <- Zle_Qle. lia.
      * apply Qle_shift_div_r; [done|]. rewrite Qmult_1_l.
        unfold Qofnat. rewrite <- Zle_Qle. lia.
    + apply Hround.
      * apply Qle_shift_div_l; [done|]. rewrite Qmult_0_l.
        unfold Qofnat. change 0%Q with (inject_Z 0). rewrite <- Zle_Qle. lia.
      * apply Qle_shift_div_r; [done|]. rewrite Qmult_1_l.
        unfold Qofnat. rewrite <- Zle_Qle. lia.
    + intros Hnone.
      assert (List.filter has_audio units = []) as ->.
      { clear -Hnone. induction Hnone as [|u l Hu _ IH]; [done|].
        cbn. by rewrite Hu. }
      split; [done|]. cbn [length].
      change (Qofnat 0) with 0%Q.
      assert (0 / Qofnat (length units) * 100 == 0)%Q as E0.
      { unfold Qdiv. by rewrite !Qmult_0_l. }
      assert (round_half_even (0 / Qofnat (length units) * 100) = 0%Z) as E.
      { assert (0 / Qofnat (length units) * 100 <= 0)%Q as L1
          by (rewrite E0; apply Qle_refl).
        assert (0 <= 0 / Qofnat (length units) * 100)%Q as L2
          by (rewrite E0; apply Qle_refl).
        pose proof (round_half_even_mono _ _ L1) as H1.
        pose proof (round_half_even_mono _ _ L2) as H2.
        change (round_half_even 0) with 0%Z in H1, H2. lia. }
      unfold round2. by rewrite E.
  - split; [|split]; [by vm_compute..|].
    intros _. split; [lia|]. by vm_compute.
Qed.
